(** * The bounded-concurrency [Limiter] of
      extensions/codestory/src/server/applyEdits.ts

    A shallow embedding of the class [Limiter<T>] together with the part of
    the JavaScript run time it talks to (the promises it allocates in
    [queue], the promises returned by the task factories, and the
    [vscode.EventEmitter] held in [_onDrained]), followed by the properties
    of the limiter that its design note states.

    Modelling conventions.
    - The counters [_size] and [runningPromises], which the class only ever
      increments, decrements and compares, are integers of [Z].  The
      maximum degree of parallelism is a number of tasks, an integer too;
      the constructor stores it unchecked, so it may be zero or negative.
    - The run time is single threaded and runs every turn to completion:
      a call of a public method, and the reactions of one settling task
      promise, are each one atomic [step].
    - A task factory is opaque caller code.  Calling it yields a promise
      that is in flight until the environment settles it; factories do not
      call back into the limiter and do not throw synchronously (they are
      [async] functions at the one call site of the repository). *)

From stdpp Require Import base gmap list strings sorting.
From Stdlib Require Import ZArith Lia.

Open Scope Z_scope.

(* ===================================================================== *)
(** ** Data model *)
(* ===================================================================== *)

(** Values a task may resolve with and errors it may reject with are opaque
    to the limiter. *)
Definition Value := nat.
Definition Failure := nat.

(** The settled state of a promise; a promise that is absent from the heap
    of settled promises is still pending. *)
Inductive Outcome :=
| Resolved (v : Value)
| Rejected (err : Failure).

(** [ITask<Promise<T>>]: the caller's factory, known by name only. *)
Definition ITask := nat.

(** Identity of a promise allocated by [new Promise] in [queue]. *)
Definition PromiseId := nat.

Bind Scope nat_scope with Value Failure ITask PromiseId.

(** [ILimitedTaskFactory<T>]: the factory and the two settling functions
    [c] and [e] of the promise that [queue] returned for it.  Both functions
    belong to the same promise, which [future] names. *)
Record ILimitedTaskFactory := mkEntry {
  factory : ITask;
  future : PromiseId
}.

(** [vscode.EventEmitter<void>]: whether it was disposed and how many
    events it delivered. *)
Record EventEmitter := mkEmitter {
  em_disposed : bool;
  em_fired : nat
}.

Definition new_EventEmitter : EventEmitter :=
  {| em_disposed := false; em_fired := 0%nat |}.

(** [EventEmitter.fire]: delivers one event unless disposed. *)
Definition em_fire (em : EventEmitter) : EventEmitter :=
  if em_disposed em then em
  else {| em_disposed := false; em_fired := S (em_fired em) |}.

(** [EventEmitter.dispose] *)
Definition em_dispose (em : EventEmitter) : EventEmitter :=
  {| em_disposed := true; em_fired := em_fired em |}.

(** The fields of [class Limiter<T>]. *)
Record Limiter := mkLimiter {
  _size : Z;
  _isDisposed : bool;
  runningPromises : Z;
  maxDegreeOfParalellism : Z;
  outstandingPromises : list ILimitedTaskFactory;
  _onDrained : EventEmitter
}.

(** The limiter together with the promises around it.
    - [settled]: the promises handed out by [queue] that have been settled,
      with their outcome;
    - [nextPromise]: the next identity [new Promise] hands out;
    - [inflight]: the task promises created by a factory call and not
      settled yet, each named by the [future] it is wired to;
    - [started]: the order in which factories were called (observation
      only, nothing reads it). *)
Record World := mkWorld {
  limiter : Limiter;
  settled : gmap PromiseId Outcome;
  nextPromise : PromiseId;
  inflight : list PromiseId;
  started : list PromiseId
}.

(* ===================================================================== *)
(** ** A state monad with exceptions *)
(* ===================================================================== *)

Inductive Completion (A : Type) :=
| Normal (a : A)
| Throw (msg : string).
Arguments Normal {A} a.
Arguments Throw {A} msg.

Definition M (A : Type) : Type := World → Completion A * World.

#[global] Instance M_ret : MRet M := λ A a w, (Normal a, w).
#[global] Instance M_bind : MBind M := λ A B k m w,
  match m w with
  | (Normal a, w') => k a w'
  | (Throw msg, w') => (Throw msg, w')
  end.

Definition throw {A} (msg : string) : M A := λ w, (Throw msg, w).
Definition get : M World := λ w, (Normal w, w).
Definition modify (f : World → World) : M unit := λ w, (Normal tt, f w).

Definition exec {A} (m : M A) (w : World) : World := snd (m w).
Definition result {A} (m : M A) (w : World) : Completion A := fst (m w).

(* ===================================================================== *)
(** ** Field updates *)
(* ===================================================================== *)

Definition with_limiter (f : Limiter → Limiter) (w : World) : World :=
  {| limiter := f (limiter w); settled := settled w;
     nextPromise := nextPromise w; inflight := inflight w;
     started := started w |}.

Definition set_size (n : Z) (l : Limiter) : Limiter :=
  {| _size := n; _isDisposed := _isDisposed l;
     runningPromises := runningPromises l;
     maxDegreeOfParalellism := maxDegreeOfParalellism l;
     outstandingPromises := outstandingPromises l;
     _onDrained := _onDrained l |}.

Definition set_isDisposed (b : bool) (l : Limiter) : Limiter :=
  {| _size := _size l; _isDisposed := b;
     runningPromises := runningPromises l;
     maxDegreeOfParalellism := maxDegreeOfParalellism l;
     outstandingPromises := outstandingPromises l;
     _onDrained := _onDrained l |}.

Definition set_runningPromises (n : Z) (l : Limiter) : Limiter :=
  {| _size := _size l; _isDisposed := _isDisposed l;
     runningPromises := n;
     maxDegreeOfParalellism := maxDegreeOfParalellism l;
     outstandingPromises := outstandingPromises l;
     _onDrained := _onDrained l |}.

Definition set_outstandingPromises (q : list ILimitedTaskFactory)
    (l : Limiter) : Limiter :=
  {| _size := _size l; _isDisposed := _isDisposed l;
     runningPromises := runningPromises l;
     maxDegreeOfParalellism := maxDegreeOfParalellism l;
     outstandingPromises := q;
     _onDrained := _onDrained l |}.

Definition set_onDrained (em : EventEmitter) (l : Limiter) : Limiter :=
  {| _size := _size l; _isDisposed := _isDisposed l;
     runningPromises := runningPromises l;
     maxDegreeOfParalellism := maxDegreeOfParalellism l;
     outstandingPromises := outstandingPromises l;
     _onDrained := em |}.

(* ===================================================================== *)
(** ** The promises around the limiter *)
(* ===================================================================== *)

(** [new Promise]: hands out a fresh, pending promise. *)
Definition new_Promise : M PromiseId := λ w,
  (Normal (nextPromise w),
   {| limiter := limiter w; settled := settled w;
      nextPromise := S (nextPromise w); inflight := inflight w;
      started := started w |}).

(** Calling [c] or [e] of promise [k]: the first call settles it, later
    calls are ignored. *)
Definition settle (k : PromiseId) (o : Outcome) (w : World) : World :=
  match settled w !! k with
  | Some _ => w
  | None =>
      {| limiter := limiter w; settled := <[k := o]> (settled w);
         nextPromise := nextPromise w; inflight := inflight w;
         started := started w |}
  end.

(** [iLimitedTask.factory()] followed by the two [promise.then]
    registrations: the task promise is in flight, wired to the entry's
    [future]. *)
Definition call_factory (t : ILimitedTaskFactory) (w : World) : World :=
  {| limiter := limiter w; settled := settled w;
     nextPromise := nextPromise w;
     inflight := inflight w ++ [future t];
     started := started w ++ [future t] |}.

(** The task promise wired to [k] leaves the in-flight set. *)
Definition land (k : PromiseId) (w : World) : World :=
  {| limiter := limiter w; settled := settled w;
     nextPromise := nextPromise w;
     inflight := filter (λ j, j ≠ k) (inflight w);
     started := started w |}.

(* ===================================================================== *)
(** ** The methods of [Limiter] *)
(* ===================================================================== *)

(** [constructor(maxDegreeOfParalellism)] *)
Definition new_Limiter (maxDegree : Z) : World :=
  {| limiter := {| _size := 0; _isDisposed := false;
                   runningPromises := 0;
                   maxDegreeOfParalellism := maxDegree;
                   outstandingPromises := [];
                   _onDrained := new_EventEmitter |};
     settled := ∅; nextPromise := 0%nat; inflight := []; started := [] |}.

(** [get size()] *)
Definition size : M Z := w ← get; mret (_size (limiter w)).

(** The loop condition of [consume]. *)
Definition may_start (l : Limiter) : bool :=
  bool_decide (outstandingPromises l ≠ []) &&
  bool_decide (runningPromises l < maxDegreeOfParalellism l).

(** One turn of the [while] loop of [consume]: [shift] the head entry,
    [runningPromises++], call the factory. *)
Definition consume_body (w : World) : World :=
  match outstandingPromises (limiter w) with
  | [] => w
  | t :: rest =>
      call_factory t
        (with_limiter (λ l, set_runningPromises (runningPromises l + 1)
                              (set_outstandingPromises rest l)) w)
  end.

(** The [while] loop, run for at most [n] turns. *)
Fixpoint consume_loop (n : nat) (w : World) : World :=
  match n with
  | O => w
  | S n' =>
      if may_start (limiter w) then consume_loop n' (consume_body w) else w
  end.

(** [private consume()]: every turn shifts one entry off the queue, so the
    length of the queue bounds the number of turns. *)
Definition consume (w : World) : World :=
  consume_loop (length (outstandingPromises (limiter w))) w.

(** [private consumed()] *)
Definition consumed (w : World) : World :=
  if _isDisposed (limiter w) then w
  else
    let w1 := with_limiter
                (λ l, set_runningPromises (runningPromises l - 1) l) w in
    (* [if (--this._size === 0) { /* this._onDrained.fire(); */ }] *)
    let w2 := with_limiter (λ l, set_size (_size l - 1) l) w1 in
    let w3 := if bool_decide (_size (limiter w2) = 0) then w2 else w2 in
    if bool_decide (0 < Z.of_nat (length (outstandingPromises (limiter w3))))
    then consume w3 else w3.

(** [queue(factory)] *)
Definition queue (f : ITask) : M PromiseId :=
  w ← get;
  if _isDisposed (limiter w) then throw "Object has been disposed"
  else
    modify (with_limiter (λ l, set_size (_size l + 1) l));;
    p ← new_Promise;
    modify (with_limiter
              (λ l, set_outstandingPromises
                      (outstandingPromises l ++ [mkEntry f p]) l));;
    modify consume;;
    mret p.

(** [clear()] *)
Definition clear : M unit :=
  w ← get;
  if _isDisposed (limiter w) then throw "Object has been disposed"
  else
    modify (with_limiter (set_outstandingPromises []));;
    modify (with_limiter (λ l, set_size (runningPromises l) l)).

(** [dispose()] *)
Definition dispose : M unit :=
  modify (with_limiter (set_isDisposed true));;
  modify (with_limiter (set_outstandingPromises []));;
  modify (with_limiter (set_size 0));;
  modify (with_limiter (λ l, set_onDrained (em_dispose (_onDrained l)) l)).

(** A task promise wired to [k] settles with [o]: its reactions run in the
    order they were registered, first [c] or [e] of the promise returned by
    [queue], then [consumed]. *)
Definition task_settles (k : PromiseId) (o : Outcome) (w : World) : World :=
  consumed (settle k o (land k w)).

(* ===================================================================== *)
(** ** Executions *)
(* ===================================================================== *)

(** What can happen to a limiter: a caller invokes one of the public
    methods, or a task promise that is in flight settles. *)
Inductive Event :=
| CallQueue (f : ITask)
| CallClear
| CallDispose
| Settles (k : PromiseId) (o : Outcome).

Definition step (w : World) (ev : Event) : World :=
  match ev with
  | CallQueue f => exec (queue f) w
  | CallClear => exec clear w
  | CallDispose => exec dispose w
  | Settles k o =>
      if bool_decide (k ∈ inflight w) then task_settles k o w else w
  end.

Definition run (es : list Event) (w : World) : World := foldl step w es.

(* ===================================================================== *)
(** ** Auxiliary definitions for the proofs *)
(* ===================================================================== *)

(** The world after the loop of [consume] has started the entries [pre] and
    left [rest] in the queue. *)
Definition advance (pre rest : list ILimitedTaskFactory) (w : World) : World :=
  {| limiter :=
       set_runningPromises
         (runningPromises (limiter w) + Z.of_nat (length pre))
         (set_outstandingPromises rest (limiter w));
     settled := settled w;
     nextPromise := nextPromise w;
     inflight := inflight w ++ (future <$> pre);
     started := started w ++ (future <$> pre) |}.

(** The futures of the queued entries, head first. *)
Definition queued (w : World) : list PromiseId :=
  future <$> outstandingPromises (limiter w).

(** Every promise whose task was started or is waiting to be, in the order
    the factories were, or will be, called. *)
Definition order (w : World) : list PromiseId := started w ++ queued w.

(** [queue] up to, and excluding, its call of [consume]. *)
Definition pushed (f : ITask) (w : World) : World :=
  {| limiter :=
       set_outstandingPromises
         (outstandingPromises (limiter w) ++ [mkEntry f (nextPromise w)])
         (set_size (_size (limiter w) + 1) (limiter w));
     settled := settled w;
     nextPromise := S (nextPromise w);
     inflight := inflight w;
     started := started w |}.

(** [consumed] on a live limiter up to, and excluding, its call of
    [consume]. *)
Definition released (w : World) : World :=
  with_limiter (λ l, set_size (_size l - 1) l)
    (with_limiter (λ l, set_runningPromises (runningPromises l - 1) l) w).

(** The world after [clear] on a live limiter. *)
Definition cleared (w : World) : World :=
  with_limiter
    (λ l, set_size (runningPromises l) (set_outstandingPromises [] l)) w.

(** The world after [dispose]. *)
Definition disposed (w : World) : World :=
  with_limiter
    (λ l, set_onDrained (em_dispose (_onDrained l))
            (set_size 0
               (set_outstandingPromises [] (set_isDisposed true l)))) w.

(** The world with its heap of settled promises replaced. *)
Definition with_settled (m : gmap PromiseId Outcome) (w : World) : World :=
  {| limiter := limiter w; settled := m; nextPromise := nextPromise w;
     inflight := inflight w; started := started w |}.

(** Sample executions, used to instantiate the theorems below. *)
Definition three_submitted : World :=
  run [CallQueue 0; CallQueue 1; CallQueue 2] (new_Limiter 1).

Definition two_of_three_running : World :=
  run [CallQueue 0; CallQueue 1; CallQueue 2; Settles 1 (Rejected 4)]
    (new_Limiter 2).

Definition disposed_while_running : World :=
  run [CallQueue 0; CallDispose] (new_Limiter 1).

(** [a] occurs at an earlier position of [l] than [b]. *)
Definition before (a b : PromiseId) (l : list PromiseId) : Prop :=
  ∃ i j, (i < j)%nat ∧ l !! i = Some a ∧ l !! j = Some b.

(** What holds of the world whenever the limiter's code is not in the
    middle of a method, the exit condition of the loop aside. *)
Record Inv0 (N : Z) (w : World) : Prop := mkInv0 {
  inv_max : maxDegreeOfParalellism (limiter w) = N;
  inv_sorted : StronglySorted lt (order w);
  inv_fresh : Forall (λ k, (k < nextPromise w)%nat) (order w);
  inv_inflight : inflight w `sublist_of` started w;
  inv_settled :
    ∀ k, is_Some (settled w !! k) → k ∈ started w ∧ k ∉ inflight w;
  inv_running :
    if _isDisposed (limiter w)
    then Z.of_nat (length (inflight w)) ≤ runningPromises (limiter w)
    else runningPromises (limiter w) = Z.of_nat (length (inflight w));
  inv_bound : runningPromises (limiter w) ≤ Z.max 0 N;
  inv_size :
    _isDisposed (limiter w) = false →
    _size (limiter w)
    = Z.of_nat (length (outstandingPromises (limiter w)))
      + runningPromises (limiter w);
  inv_disposed :
    _isDisposed (limiter w) = true →
    outstandingPromises (limiter w) = [] ∧
    em_disposed (_onDrained (limiter w)) = true ∧
    _size (limiter w) = 0;
  inv_fired : em_fired (_onDrained (limiter w)) = 0%nat;
  inv_nostart : N ≤ 0 → started w = [];
  inv_count :
    length (started w) = (length (inflight w) + base.size (settled w))%nat
}.

(** The exit condition of the loop of [consume], which a live limiter
    keeps between turns. *)
Definition drained (w : World) : Prop :=
  _isDisposed (limiter w) = false →
  outstandingPromises (limiter w) = [] ∨
  maxDegreeOfParalellism (limiter w) ≤ runningPromises (limiter w).

Definition Inv (N : Z) (w : World) : Prop := Inv0 N w ∧ drained w.

(** A promise that [queue] handed out, whose task is neither started nor
    queued any more, and that is pending. *)
Definition dropped (k : PromiseId) (w : World) : Prop :=
  (k < nextPromise w)%nat ∧ (k ∉ order w) ∧ settled w !! k = None.

(** The promises [queue] handed out whose task is neither started nor
    queued any more: [clear] or [dispose] removed its entry. *)
Definition dropped_promises (w : World) : list PromiseId :=
  filter (λ k, k ∉ order w) (seq 0 (nextPromise w)).

(** One step, as a relation between the world before and the world after:
    a call that throws or a completion that cannot happen changes nothing,
    and every other step is one of five shapes. *)
Inductive turn (w : World) : World → Prop :=
| turn_refused :
    turn w w
| turn_queue f :
    _isDisposed (limiter w) = false →
    turn w (consume (pushed f w))
| turn_clear :
    _isDisposed (limiter w) = false →
    turn w (cleared w)
| turn_dispose :
    turn w (disposed w)
| turn_settles_live k o :
    k ∈ inflight w →
    _isDisposed (limiter w) = false →
    turn w (consume (released (settle k o (land k w))))
| turn_settles_disposed k o :
    k ∈ inflight w →
    _isDisposed (limiter w) = true →
    turn w (settle k o (land k w)).

(* ===================================================================== *)
(** ** Completions chosen by the environment *)
(* ===================================================================== *)

(** [es] is a sequence of completions, each of a task that is in flight
    when its turn comes. *)
Fixpoint completions (es : list Event) (w : World) : bool :=
  match es with
  | [] => true
  | Settles k o :: es' =>
      bool_decide (k ∈ inflight w) && completions es' (step w (Settles k o))
  | _ :: _ => false
  end.

(** Every task that was started and is not in flight any more has settled
    the promise returned for it. *)
Definition landed_are_settled (w : World) : Prop :=
  ∀ k, k ∈ started w → k ∉ inflight w → is_Some (settled w !! k).

(* ===================================================================== *)
(** ** Strings and positions *)
(* ===================================================================== *)

(** A JavaScript string is a sequence of UTF-16 code units; [length] of
    the list is the string's [.length]. *)
Definition CodeUnit := N.
Abbreviation JSString := (list CodeUnit).

Definition CR : CodeUnit := 13%N.
Definition LF : CodeUnit := 10%N.

(** The code units the regular expression [/\r\n|\r|\n/] looks for. *)
Definition is_newline (c : CodeUnit) : Prop := c = CR ∨ c = LF.

(** [s.split(/\r\n|\r|\n/)]: at every position the alternatives are tried
    in order, so a carriage return followed by a line feed is one
    separator; the pieces between separators are returned, the last one
    included, and the empty string gives one empty piece. *)
Fixpoint split_newlines (s : JSString) : list JSString :=
  match s with
  | [] => [[]]
  | c :: s' =>
      if (c =? CR)%N then
        match s' with
        | d :: s'' =>
            if (d =? LF)%N then [] :: split_newlines s''
            else [] :: split_newlines s'
        | [] => [] :: split_newlines s'
        end
      else if (c =? LF)%N then [] :: split_newlines s'
      else
        match split_newlines s' with
        | l :: ls => (c :: l) :: ls
        | [] => [[c]]
        end
  end.

(** [s.split('\n')] *)
Fixpoint split_LF (s : JSString) : list JSString :=
  match s with
  | [] => [[]]
  | c :: s' =>
      if (c =? LF)%N then [] :: split_LF s'
      else
        match split_LF s' with
        | l :: ls => (c :: l) :: ls
        | [] => [[c]]
        end
  end.

(** [lines.join('\n')] *)
Fixpoint join_LF (ls : list JSString) : JSString :=
  match ls with
  | [] => []
  | [l] => l
  | l :: ls' => l ++ LF :: join_LF ls'
  end.

(** Line numbers, columns and lengths are JavaScript numbers, that is
    doubles, which here hold natural numbers.  [double_of n] is the double
    nearest to [n], the one with the even significand when two are
    equally near: every natural number up to 2^53 is a double, and above
    that only the multiples of the power of two that leaves 53 binary
    digits.  No sum below overflows: a line number is at most the
    largest double and a length is below 2^53. *)
Definition double_of (n : N) : N :=
  if (n <=? 2 ^ 53)%N then n
  else
    let e := (N.log2 n - 52)%N in
    let q := N.shiftr n e in
    let r := N.land n (N.ones e) in
    let half := N.shiftl 1 (e - 1) in
    let q' :=
      if (r <? half)%N then q
      else if (half <? r)%N then (q + 1)%N
      else if N.even q then q else (q + 1)%N in
    N.shiftl q' e.

(** [a + b] and [a - b] on such numbers; [a - b] is used with [b <= a]
    only. *)
Definition double_add (a b : N) : N := double_of (a + b).
Definition double_sub (a b : N) : N := double_of (a - b).

(** A position as the sidecar sends it and as the response returns it.
    Lines and columns are natural numbers: [vscode.Position] refuses
    negative ones. *)
Record Position := mkPosition {
  line : N;
  character : N;
  byteOffset : N
}.

(** The [selected_range] of a request and the [new_range] of a response. *)
Record SidecarRange := mkSidecarRange {
  startPosition : Position;
  endPosition : Position
}.

(** [vscode.Position] and [vscode.Range], classes of the editor's API
    that this file imports.  As the API documents it, the constructor of
    [Range] swaps its arguments when the first position is after the
    second; nothing proved below depends on which of the two it puts
    first. *)
Record VsPosition := mkVsPosition {
  pos_line : N;
  pos_character : N
}.

Record VsRange := mkVsRange {
  range_start : VsPosition;
  range_end : VsPosition
}.

Definition isBeforeOrEqual (p q : VsPosition) : bool :=
  (pos_line p <? pos_line q)%N ||
  ((pos_line p =? pos_line q)%N && (pos_character p <=? pos_character q)%N).

Definition new_Range (p q : VsPosition) : VsRange :=
  if isBeforeOrEqual p q then {| range_start := p; range_end := q |}
  else {| range_start := q; range_end := p |}.

(** One replacement of a [vscode.WorkspaceEdit]:
    [workspaceEdit.replace(uri, range, newText)]. *)
Record Replace := mkReplace {
  uri : JSString;
  range : VsRange;
  newText : JSString
}.

(* ===================================================================== *)
(** ** Requests and responses of [applyEdits] *)
(* ===================================================================== *)

(** The fields of [SidecarApplyEditsRequest] that the two functions read;
    the interface is declared in [./types]. *)
Module Request.
Record t := mk {
  fs_file_path : JSString;
  selected_range : SidecarRange;
  edited_content : JSString;
  apply_directly : bool
}.
End Request.

(** [SidecarApplyEditsResponse], as the two functions build it. *)
Module Response.
Record t := mk {
  fs_file_path : JSString;
  success : bool;
  new_range : SidecarRange
}.
End Response.

(** The range the two functions report: it starts where the selection
    started, ends at the line that is the sum, a double, of the start
    line and of the number of pieces of the replacement, at the column
    that is the length of the last piece. *)
Definition newRange (startPosition : Position) (replacedText : JSString)
    : SidecarRange :=
  let lines := split_newlines replacedText in
  let lastLineColumn :=
    if (0 <? N.of_nat (length lines))%N
    then N.of_nat (length (List.last lines []))
    else double_add (N.of_nat (length replacedText))
           (character startPosition) in
  {| startPosition :=
       {| line := line startPosition;
          character := character startPosition;
          byteOffset := 0%N |};
     endPosition :=
       {| line := double_add (line startPosition)
                    (N.of_nat (length (split_newlines replacedText)));
          character := lastLineColumn;
          byteOffset := 0%N |} |}.

(** The value both functions return. *)
Definition response (request : Request.t) : Response.t :=
  {| Response.fs_file_path := Request.fs_file_path request;
     Response.success := true;
     Response.new_range :=
       newRange (startPosition (Request.selected_range request))
         (Request.edited_content request) |}.

(** The range both functions replace: from column 0 of the line the
    selection starts on to the position the selection ends at. *)
Definition replaced_range (request : Request.t) : VsRange :=
  new_Range
    {| pos_line := line (startPosition (Request.selected_range request));
       pos_character := 0%N |}
    {| pos_line := line (endPosition (Request.selected_range request));
       pos_character :=
         character (endPosition (Request.selected_range request)) |}.

(** [{ line, content }], an element of [textLines]. *)
Record TextLine := mkTextLine {
  tl_line : N;
  content : JSString
}.

(** The callback of [map] in [applyEdits], with the counter [startIndex]
    it increments at every call; the line is
    [startLineNumber + startIndex - 1], a sum and then a difference of
    doubles. *)
Fixpoint number_lines (startLineNumber startIndex : N) (ls : list JSString)
    : list TextLine :=
  match ls with
  | [] => []
  | lineContent :: ls' =>
      let startIndex := double_add startIndex 1 in
      {| tl_line := double_sub (double_add startLineNumber startIndex) 1;
         content := lineContent |}
      :: number_lines startLineNumber startIndex ls'
  end.

Definition textLines (request : Request.t) : list TextLine :=
  number_lines (pos_line (range_start (replaced_range request))) 0%N
    (split_LF (Request.edited_content request)).

(* ===================================================================== *)
(** ** [applyEdits] and [applyEditsDirectly] *)
(* ===================================================================== *)

(** The calls the two functions make on the editor and on the response
    stream, in the order they are made. *)
Inductive EditorCall :=
| ApplyEdit (edits : Replace)
| Save (file : JSString)
| CodeEdit (edits : Replace).

(** The edit of the task queued for one element of [textLines]: columns 0
    to 1000 of its line are replaced by its content. *)
Definition line_edit (request : Request.t) (textLine : TextLine) : Replace :=
  {| uri := Request.fs_file_path request;
     range := new_Range {| pos_line := tl_line textLine; pos_character := 0 |}
                {| pos_line := tl_line textLine; pos_character := 1000 |};
     newText := content textLine |}.

(** The two calls of [response.codeEdit] that the body of a task makes:
    the promise of the first is pushed on [editsPromise], the second is
    awaited. *)
Definition task_calls (request : Request.t) (textLine : TextLine)
    : list EditorCall :=
  [CodeEdit (line_edit request textLine);
   CodeEdit (line_edit request textLine)].

(** What the rest of the program does while [applyEdits] handles one
    element of [textLines]: the events on the limiter before the task is
    queued, the events between that and the end of the task's body, and
    the way the awaited call of [response.codeEdit] settles, if it does.
    [response.codeEdit] returns a promise; it does not throw. *)
Record Slot := mkSlot {
  before_queue : list Event;
  before_done : list Event;
  codeEdit_result : option Outcome
}.

(** An [async] function that finishes returns [undefined]. *)
Definition undefined : Value := 0%nat.

Definition async_outcome (awaited : Outcome) : Outcome :=
  match awaited with
  | Resolved _ => Resolved undefined
  | Rejected err => Rejected err
  end.

(** Why the promise of [applyEdits] rejects: [limiter.queue] threw, or the
    awaited promise of a task rejected. *)
Inductive Reason :=
| Thrown (msg : string)
| TaskFailed (err : Failure).

(** How the [for] loop over [textLines] ends; it is [Waiting] when the
    promise it awaits is not settled by the events given. *)
Inductive LoopEnd :=
| Finished
| Failed (why : Reason)
| Waiting.

Record Session := mkSession {
  world : World;
  calls : list EditorCall
}.

(** The name under which the limiter knows the task of a line. *)
Definition task_of (textLine : TextLine) : ITask :=
  N.to_nat (tl_line textLine).

(** [for (const textLine of textLines) { await limiter.queue(...) }],
    from the [i]-th element on.  Each turn queues the task of one line and
    waits for the promise [queue] returns.  The task's body runs when the
    limiter has started it; it makes its calls and settles as the awaited
    call does, which settles the awaited promise: the loop goes on after a
    success and ends after a failure. *)
Fixpoint stream (request : Request.t) (sched : nat → Slot) (i : nat)
    (lines : list TextLine) (s : Session) : LoopEnd * Session :=
  match lines with
  | [] => (Finished, s)
  | textLine :: rest =>
      let w0 := run (before_queue (sched i)) (world s) in
      match queue (task_of textLine) w0 with
      | (Throw msg, w1) =>
          (Failed (Thrown msg), {| world := w1; calls := calls s |})
      | (Normal p, w1) =>
          let w2 := run (before_done (sched i)) w1 in
          if bool_decide (p ∈ inflight w2) then
            let made := calls s ++ task_calls request textLine in
            match codeEdit_result (sched i) with
            | None => (Waiting, {| world := w2; calls := made |})
            | Some awaited =>
                let s' := {| world := step w2 (Settles p (async_outcome awaited));
                             calls := made |} in
                match awaited with
                | Resolved _ => stream request sched (S i) rest s'
                | Rejected err => (Failed (TaskFailed err), s')
                end
            end
          else (Waiting, {| world := w2; calls := calls s |})
      end
  end.

(** How the promise returned by [applyEdits] ends. *)
Inductive Ending :=
| Returns (r : Response.t)
| Rejects (why : Reason)
| NeverSettles.

(** The edit of the whole selection that both functions build first. *)
Definition workspaceEdit (request : Request.t) : Replace :=
  {| uri := Request.fs_file_path request;
     range := replaced_range request;
     newText := Request.edited_content request |}.

(** [applyEditsDirectly(request)]: the edit is applied, the file saved
    (both awaited calls are taken to succeed), the response returned. *)
Definition applyEditsDirectly (request : Request.t)
    : Response.t * list EditorCall :=
  (response request,
   [ApplyEdit (workspaceEdit request); Save (Request.fs_file_path request)]).

(** [applyEdits(request, response, limiter)] *)
Definition applyEdits (request : Request.t) (sched : nat → Slot) (w : World)
    : Ending * Session :=
  if Request.apply_directly request then
    (Returns (response request),
     {| world := w;
        calls := [ApplyEdit (workspaceEdit request);
                  Save (Request.fs_file_path request)] |})
  else
    match stream request sched 0 (textLines request)
            {| world := w; calls := [] |} with
    | (Finished, s) => (Returns (response request), s)
    | (Failed why, s) => (Rejects why, s)
    | (Waiting, s) => (NeverSettles, s)
    end.

(** The schedule in which nothing else touches the limiter and the
    awaited call of line [i] settles as [results i] says. *)
Definition alone (results : nat → Outcome) : nat → Slot :=
  λ i, {| before_queue := []; before_done := [];
          codeEdit_result := Some (results i) |}.

(** All the calls of [response.codeEdit] for some lines. *)
Definition all_task_calls (request : Request.t) (lines : list TextLine)
    : list EditorCall :=
  concat (task_calls request <$> lines).

(** A sample request: lines 3 to 4 are replaced by three lines, the first
    ending in a carriage return and a line feed, the second in a line
    feed. *)
Definition sample_request : Request.t :=
  {| Request.fs_file_path := [109; 46; 103; 111]%N;
     Request.selected_range :=
       {| startPosition := {| line := 3; character := 2; byteOffset := 0 |};
          endPosition := {| line := 4; character := 7; byteOffset := 0 |} |};
     Request.edited_content := [97; 13; 10; 98; 98; 10; 99; 99; 99]%N;
     Request.apply_directly := false |}.

(* ===================================================================== *)
(** ** The build reporter (the [reporter.js] part of the file) *)
(* ===================================================================== *)

Module Reporter.

(** The array [errors] of one reporter, with the property [__logged__]
    that [end] sets on it. *)
Record ErrorArray := mkErrorArray {
  items : list JSString;
  __logged__ : bool
}.

(** [class ErrorLog].  [allErrors] holds the arrays of the reporters by
    address: a reporter pushes to its array after the log has stored it. *)
Record ErrorLog := mkErrorLog {
  id : JSString;
  allErrors : list nat;
  startTime : option N;
  count : Z
}.

(** What [fancyLog] is called with: the announcement of a compilation, an
    error, the summary with the number of errors and the elapsed time. *)
Inductive Printed :=
| Starting (id : JSString)
| Error (err : JSString)
| Finished (id : JSString) (errors : nat) (ms : Z).

(** The result of [parseInt] on a string of decimal digits: the number
    itself when the string has at most 15 digits, and otherwise a double
    near it, which is not computed here. *)
Inductive JSNumber :=
| Exact (n : N)
| Rounded (digits : JSString).

(** An element of [messages]. *)
Record Message := mkMessage {
  path : JSString;
  line : JSNumber;
  column : JSNumber;
  message : JSString
}.

(** The module's state: the map [errorLogsById], the arrays allocated by
    [createReporter], what was printed and what [fs.writeFileSync] was
    called with (file name and messages), oldest first. *)
Record State := mkState {
  errorLogsById : gmap JSString ErrorLog;
  heap : gmap nat ErrorArray;
  nextArray : nat;
  printed : list Printed;
  written : list (JSString * list Message)
}.

Definition initial : State :=
  {| errorLogsById := ∅; heap := ∅; nextArray := 0%nat;
     printed := []; written := [] |}.

(** The closure [result] that [createReporter] returns: it knows its log
    and its array. *)
Record Handle := mkHandle {
  errorLog : JSString;
  errors : nat
}.

(** *** The regular expression of [log]: a path without an opening
    parenthesis, then a line and a column in parentheses, a colon, a
    space and the message *)

Definition is_digit (c : CodeUnit) : bool := (48 <=? c)%N && (c <=? 57)%N.

(** The longest prefix whose code units satisfy [p], and the rest. *)
Fixpoint span (p : CodeUnit → bool) (s : JSString) : JSString * JSString :=
  match s with
  | [] => ([], [])
  | c :: s' =>
      if p c then let (a, b) := span p s' in (c :: a, b) else ([], s)
  end.

Definition decimal (digits : JSString) : N :=
  fold_left (λ n c, (10 * n + (c - 48))%N) digits 0%N.

Definition parseInt (digits : JSString) : JSNumber :=
  if (length digits <=? 15)%nat then Exact (decimal digits)
  else Rounded digits.

(** A literal code unit of the regular expression. *)
Definition expect (c : CodeUnit) (s : JSString) : option JSString :=
  match s with
  | d :: s' => if (d =? c)%N then Some s' else None
  | [] => None
  end.

(** [regex.exec(err)] followed by the construction of the message.  Every
    group is greedy and is followed by a code unit it cannot contain, so
    only its longest match can succeed; a group matches one code unit at
    least. *)
Definition exec (err : JSString) : option Message :=
  let (path, r) := span (λ c, negb (c =? 40)%N) err in
  if bool_decide (path = []) then None else
  r ← expect 40%N r;
  let (line, r) := span is_digit r in
  if bool_decide (line = []) then None else
  r ← expect 44%N r;
  let (column, r) := span is_digit r in
  if bool_decide (column = []) then None else
  r ← expect 41%N r;
  r ← expect 58%N r;
  message ← expect 32%N r;
  Some {| path := path; line := parseInt line;
          column := parseInt column; message := message |}.

(** *** [ErrorLog] *)

(** [this.allErrors.flat()] *)
Definition flat (heap : gmap nat ErrorArray) (allErrors : list nat)
    : list JSString :=
  concat ((λ a, default [] (items <$> heap !! a)) <$> allErrors).

(** The callback of [errors.map] in [log], with the set [seen]. *)
Fixpoint print_unseen (seen : gset JSString) (errors : list JSString)
    : list Printed :=
  match errors with
  | [] => []
  | err :: rest =>
      if bool_decide (err ∈ seen) then print_unseen seen rest
      else Error err :: print_unseen ({[err]} ∪ seen) rest
  end.

(** ['log' + (this.id ? `_${this.id}` : '')] *)
Definition logFileName (id : JSString) : JSString :=
  [108; 111; 103]%N ++ match id with [] => [] | _ :: _ => 95%N :: id end.

(** [log()], at time [now]: what it prints and what it writes. *)
Definition log (now : N) (heap : gmap nat ErrorArray) (this : ErrorLog)
    : list Printed * (JSString * list Message) :=
  let errors := flat heap (allErrors this) in
  (print_unseen ∅ errors
   ++ [Finished (id this) (length errors)
         (Z.of_N now - match startTime this with
                       | Some t => Z.of_N t
                       | None => 0
                       end)],
   (logFileName (id this), omap exec errors)).

(** [onStart()] *)
Definition onStart (now : N) (this : ErrorLog) : ErrorLog * list Printed :=
  let before := count this in
  let this := {| id := id this; allErrors := allErrors this;
                 startTime := startTime this; count := before + 1 |} in
  if bool_decide (0 < before) then (this, [])
  else ({| id := id this; allErrors := allErrors this;
           startTime := Some now; count := count this |},
        [Starting (id this)]).

(** [onEnd()] *)
Definition onEnd (now : N) (heap : gmap nat ErrorArray) (this : ErrorLog)
    : ErrorLog * list Printed * list (JSString * list Message) :=
  let this := {| id := id this; allErrors := allErrors this;
                 startTime := startTime this; count := count this - 1 |} in
  if bool_decide (0 < count this) then (this, [], [])
  else let (p, w) := log now heap this in (this, p, [w]).

(** *** The module's functions *)

(** [getErrorLog(id)] *)
Definition getErrorLog (id : JSString) (st : State) : State :=
  match errorLogsById st !! id with
  | Some _ => st
  | None =>
      {| errorLogsById :=
           <[id := {| id := id; allErrors := []; startTime := None;
                      count := 0 |}]> (errorLogsById st);
         heap := heap st; nextArray := nextArray st;
         printed := printed st; written := written st |}
  end.

(** [createReporter(id)] *)
Definition createReporter (id : JSString) (st : State) : Handle * State :=
  let st := getErrorLog id st in
  let a := nextArray st in
  ({| errorLog := id; errors := a |},
   {| errorLogsById :=
        alter (λ l, {| id := Reporter.id l;
                       allErrors := allErrors l ++ [a];
                       startTime := startTime l; count := count l |})
          id (errorLogsById st);
      heap := <[a := {| items := []; __logged__ := false |}]> (heap st);
      nextArray := S a;
      printed := printed st; written := written st |}).

(** [result(err)] *)
Definition result (r : Handle) (err : JSString) (st : State) : State :=
  {| errorLogsById := errorLogsById st;
     heap := alter (λ e, {| items := items e ++ [err];
                            __logged__ := __logged__ e |})
               (errors r) (heap st);
     nextArray := nextArray st;
     printed := printed st; written := written st |}.

(** [result.hasErrors()] *)
Definition hasErrors (r : Handle) (st : State) : bool :=
  match heap st !! errors r with
  | Some e => bool_decide (0 < length (items e))%nat
  | None => false
  end.

(** [result.end(emitError)] up to the creation of the stream:
    [errors.length = 0], then [errorLog.onStart()]. *)
Definition result_end (r : Handle) (now : N) (st : State) : State :=
  let heap := alter (λ e, {| items := []; __logged__ := __logged__ e |})
                (errors r) (heap st) in
  match errorLogsById st !! errorLog r with
  | Some l =>
      let (l, p) := onStart now l in
      {| errorLogsById := <[errorLog r := l]> (errorLogsById st);
         heap := heap; nextArray := nextArray st;
         printed := printed st ++ p; written := written st |}
  | None =>
      {| errorLogsById := errorLogsById st;
         heap := heap; nextArray := nextArray st;
         printed := printed st; written := written st |}
  end.

(** What the stream emits when it ends. *)
Inductive Emitted :=
| EmitError (found : nat)
| EmitEnd.

(** The function given to [es.through], run when the stream ends:
    [onEnd] reads the clock at [now] if it logs, and the [log] of the
    failing branch reads it at [later]. *)
Definition flush (r : Handle) (emitError : bool) (now later : N)
    (st : State) : Emitted * State :=
  match errorLogsById st !! errorLog r, heap st !! errors r with
  | Some l, Some e =>
      let '(l, p1, w1) := onEnd now (heap st) l in
      if emitError && bool_decide (0 < length (items e))%nat then
        let (p2, w2) :=
          if __logged__ e then ([], [])
          else let (p, w) := log later (heap st) l in (p, [w]) in
        (EmitError (length (items e)),
         {| errorLogsById := <[errorLog r := l]> (errorLogsById st);
            heap := <[errors r := {| items := items e;
                                     __logged__ := true |}]> (heap st);
            nextArray := nextArray st;
            printed := printed st ++ p1 ++ p2;
            written := written st ++ w1 ++ w2 |})
      else
        (EmitEnd,
         {| errorLogsById := <[errorLog r := l]> (errorLogsById st);
            heap := heap st; nextArray := nextArray st;
            printed := printed st ++ p1; written := written st ++ w1 |})
  | _, _ => (EmitEnd, st)
  end.

(** *** Sequences of calls *)

(** A call of [onStart] or of [onEnd] on one log; [onEnd] reads the
    arrays as they are when it is called. *)
Inductive LogCall :=
| CallOnStart (now : N)
| CallOnEnd (now : N) (heap : gmap nat ErrorArray).

Definition call (c : LogCall) (this : ErrorLog)
    : ErrorLog * list Printed * list (JSString * list Message) :=
  match c with
  | CallOnStart now => let (l, p) := onStart now this in (l, p, [])
  | CallOnEnd now heap => onEnd now heap this
  end.

Fixpoint calls (cs : list LogCall) (this : ErrorLog)
    : ErrorLog * list Printed * list (JSString * list Message) :=
  match cs with
  | [] => (this, [], [])
  | c :: cs =>
      let '(l, p, w) := call c this in
      let '(l', p', w') := calls cs l in
      (l', p ++ p', w ++ w')
  end.

(** The calls [cs] end the [open] builds that run when they begin, and
    every build they start, and end none that has not started. *)
Fixpoint closes (open : nat) (cs : list LogCall) : bool :=
  match cs with
  | [] => bool_decide (open = 0%nat)
  | CallOnStart _ :: cs => closes (S open) cs
  | CallOnEnd _ _ :: cs =>
      match open with
      | O => false
      | S open => closes open cs
      end
  end.

(** The reporter called on each of [errs] in turn. *)
Definition reports (r : Handle) (errs : list JSString) (st : State)
    : State :=
  foldl (λ st err, result r err st) st errs.

(** One build: [end] is called at [started], the errors [errs] are
    reported, and the stream ends. *)
Definition build (r : Handle) (emitError : bool) (started now later : N)
    (errs : list JSString) (st : State) : Emitted * State :=
  flush r emitError now later (reports r errs (result_end r started st)).

(** What [log] prints at [now] for the errors [errs] of a compilation
    [id] started at [started]. *)
Definition report (id : JSString) (started now : N) (errs : list JSString)
    : list Printed :=
  print_unseen ∅ errs
  ++ [Finished id (length errs) (Z.of_N now - Z.of_N started)].

End Reporter.

(** The errors the regular expression of [log] accepts, and the message
    made of one: a non-empty path without an opening parenthesis, then in
    parentheses the decimal digits of the line, a comma and the decimal
    digits of the column, then a colon, a space and the message. *)
Definition message_shape (err : JSString) (m : Reporter.Message) : Prop :=
  ∃ ln col,
    err = Reporter.path m ++ 40%N :: ln ++ 44%N :: col
          ++ 41%N :: 58%N :: 32%N :: Reporter.message m ∧
    Reporter.path m ≠ [] ∧
    Forall (λ c, c ≠ 40%N) (Reporter.path m) ∧
    ln ≠ [] ∧ Forall (λ c, Reporter.is_digit c = true) ln ∧
    col ≠ [] ∧ Forall (λ c, Reporter.is_digit c = true) col ∧
    Reporter.line m = Reporter.parseInt ln ∧
    Reporter.column m = Reporter.parseInt col.

(** The reporter [r] is the only one of its log, no build of the log is
    running, and [logged] is the property [__logged__] of its array. *)
Definition lone (r : Reporter.Handle) (logged : bool) (st : Reporter.State)
    : Prop :=
  ∃ l e,
    Reporter.errorLogsById st !! Reporter.errorLog r = Some l ∧
    Reporter.id l = Reporter.errorLog r ∧
    Reporter.allErrors l = [Reporter.errors r] ∧
    Reporter.count l = 0 ∧
    Reporter.heap st !! Reporter.errors r = Some e ∧
    Reporter.__logged__ e = logged.

(** The reporters [r1] and [r2] are the two of one log, made in this
    order, no build of the log is running, and [logged1] and [logged2]
    are the properties [__logged__] of their arrays. *)
Definition paired (r1 r2 : Reporter.Handle) (logged1 logged2 : bool)
    (st : Reporter.State) : Prop :=
  Reporter.errorLog r1 = Reporter.errorLog r2 ∧
  Reporter.errors r1 ≠ Reporter.errors r2 ∧
  ∃ l e1 e2,
    Reporter.errorLogsById st !! Reporter.errorLog r1 = Some l ∧
    Reporter.id l = Reporter.errorLog r1 ∧
    Reporter.allErrors l = [Reporter.errors r1; Reporter.errors r2] ∧
    Reporter.count l = 0 ∧
    Reporter.heap st !! Reporter.errors r1 = Some e1 ∧
    Reporter.heap st !! Reporter.errors r2 = Some e2 ∧
    Reporter.__logged__ e1 = logged1 ∧
    Reporter.__logged__ e2 = logged2.

(** The first reporter of the compilation [a], and the second one. *)
Definition first_reporter : Reporter.Handle * Reporter.State :=
  Reporter.createReporter [97%N] Reporter.initial.

Definition second_reporter : Reporter.Handle * Reporter.State :=
  Reporter.createReporter [97%N] first_reporter.2.

(* ===================================================================== *)
(** ** What the [while] loop of [consume] does *)
(* ===================================================================== *)

Lemma advance_nil w :
  advance [] (outstandingPromises (limiter w)) w = w.
Proof.
  destruct w as [[] ? ? ? ?]; unfold advance; cbn.
  rewrite Z.add_0_r, !app_nil_r. reflexivity.
Qed.

Lemma advance_cons t pre rest w :
  outstandingPromises (limiter w) = t :: pre ++ rest →
  advance pre rest (consume_body w) = advance (t :: pre) rest w.
Proof.
  intros Hq. unfold consume_body. rewrite Hq.
  destruct w as [[] ? ? ? ?]; unfold advance; cbn.
  rewrite <- !app_assoc.
  unfold set_runningPromises, set_outstandingPromises. cbn.
  do 2 f_equal. lia.
Qed.

Lemma may_start_true l :
  may_start l = true ↔
  outstandingPromises l ≠ [] ∧
  runningPromises l < maxDegreeOfParalellism l.
Proof.
  unfold may_start. rewrite andb_true_iff, !bool_decide_eq_true. tauto.
Qed.

Lemma may_start_false l :
  may_start l = false ↔
  outstandingPromises l = [] ∨
  maxDegreeOfParalellism l ≤ runningPromises l.
Proof.
  unfold may_start. rewrite andb_false_iff, !bool_decide_eq_false.
  split; (intros [H|H]; [left|right]).
  - by destruct (outstandingPromises l); [|exfalso; apply H].
  - lia.
  - by rewrite H; intros ?.
  - lia.
Qed.

Lemma consume_loop_spec n w :
  ∃ pre rest,
    outstandingPromises (limiter w) = pre ++ rest ∧
    consume_loop n w = advance pre rest w ∧
    (pre ≠ [] →
     runningPromises (limiter w) + Z.of_nat (length pre)
       ≤ maxDegreeOfParalellism (limiter w)) ∧
    ((length (outstandingPromises (limiter w)) ≤ n)%nat →
     rest = [] ∨
     maxDegreeOfParalellism (limiter w)
       ≤ runningPromises (limiter w) + Z.of_nat (length pre)).
Proof.
  revert w. induction n as [|n IH]; intros w.
  - exists [], (outstandingPromises (limiter w)). cbn.
    split_and!; [done|by rewrite advance_nil|done|].
    intros Hn. left. by apply nil_length_inv, Nat.le_0_r.
  - cbn [consume_loop]. destruct (may_start (limiter w)) eqn:Hgo.
    + apply may_start_true in Hgo as [Hq Hlt].
      destruct (outstandingPromises (limiter w)) as [|t q] eqn:Eq; [done|].
      destruct (IH (consume_body w))
        as (pre & rest & Hsplit & Hres & Hle & Hex).
      assert (Hq' : outstandingPromises (limiter (consume_body w)) = q).
      { unfold consume_body. by rewrite Eq. }
      assert (Hr' : runningPromises (limiter (consume_body w))
                    = runningPromises (limiter w) + 1).
      { unfold consume_body. by rewrite Eq. }
      assert (Hm' : maxDegreeOfParalellism (limiter (consume_body w))
                    = maxDegreeOfParalellism (limiter w)).
      { unfold consume_body. by rewrite Eq. }
      rewrite Hq' in Hsplit, Hex. rewrite Hr', Hm' in Hle, Hex.
      exists (t :: pre), rest. split_and!.
      * by rewrite Hsplit.
      * rewrite Hres. apply advance_cons. by rewrite Eq, Hsplit.
      * intros _. cbn [length]. destruct pre as [|t' pre'].
        -- cbn. lia.
        -- specialize (Hle ltac:(done)). cbn [length] in *. lia.
      * intros Hn. cbn [length] in *.
        destruct Hex as [->| Hge]; [lia|by left|right; lia].
    + exists [], (outstandingPromises (limiter w)). cbn.
      split_and!; [done|by rewrite advance_nil|done|].
      intros _. apply may_start_false in Hgo as [->|Hge]; [by left|right; lia].
Qed.

Lemma consume_spec w :
  ∃ pre rest,
    outstandingPromises (limiter w) = pre ++ rest ∧
    consume w = advance pre rest w ∧
    (pre ≠ [] →
     runningPromises (limiter w) + Z.of_nat (length pre)
       ≤ maxDegreeOfParalellism (limiter w)) ∧
    (rest = [] ∨
     maxDegreeOfParalellism (limiter w)
       ≤ runningPromises (limiter w) + Z.of_nat (length pre)).
Proof.
  destruct (consume_loop_spec (length (outstandingPromises (limiter w))) w)
    as (pre & rest & H1 & H2 & H3 & H4).
  exists pre, rest. split_and!; auto.
Qed.

(** The loop of [consume] never takes the running count past the maximum,
    whatever the number of turns it has made. *)
Lemma consume_loop_bound N n w :
  maxDegreeOfParalellism (limiter w) = N →
  runningPromises (limiter w) ≤ Z.max 0 N →
  runningPromises (limiter (consume_loop n w)) ≤ Z.max 0 N.
Proof.
  intros Hmax Hrun.
  destruct (consume_loop_spec n w) as (pre & rest & _ & -> & Hle & _).
  cbn. destruct pre as [|t pre]; [cbn; lia|].
  specialize (Hle ltac:(done)). lia.
Qed.

Lemma consume_full w :
  may_start (limiter w) = false → consume w = w.
Proof.
  intros Hgo. unfold consume.
  destruct (length (outstandingPromises (limiter w))); [done|].
  cbn [consume_loop]. by rewrite Hgo.
Qed.

Lemma consume_unfold w :
  consume w
  = if may_start (limiter w) then consume (consume_body w) else w.
Proof.
  destruct (may_start (limiter w)) eqn:Hgo; [|by apply consume_full].
  pose proof Hgo as [Hq _]%may_start_true.
  unfold consume, consume_body.
  destruct (outstandingPromises (limiter w)) as [|t q] eqn:Eq; [done|].
  cbn [length consume_loop]. rewrite Hgo. unfold consume_body. by rewrite Eq.
Qed.


(* ===================================================================== *)
(** ** Closed forms of the methods *)
(* ===================================================================== *)

Lemma consume_nil w :
  outstandingPromises (limiter w) = [] → consume w = w.
Proof. intros Hq. unfold consume. by rewrite Hq. Qed.

Lemma queue_live f w :
  _isDisposed (limiter w) = false →
  queue f w = (Normal (nextPromise w), consume (pushed f w)).
Proof.
  intros Hd. unfold queue, mbind, M_bind, get, modify, mret, M_ret.
  rewrite Hd. reflexivity.
Qed.

Lemma queue_disposed f w :
  _isDisposed (limiter w) = true →
  queue f w = (Throw "Object has been disposed", w).
Proof.
  intros Hd. unfold queue, mbind, M_bind, get, throw. by rewrite Hd.
Qed.

Lemma clear_live w :
  _isDisposed (limiter w) = false → clear w = (Normal tt, cleared w).
Proof.
  intros Hd. unfold clear, mbind, M_bind, get, modify. by rewrite Hd.
Qed.

Lemma clear_disposed w :
  _isDisposed (limiter w) = true →
  clear w = (Throw "Object has been disposed", w).
Proof.
  intros Hd. unfold clear, mbind, M_bind, get, throw. by rewrite Hd.
Qed.

Lemma dispose_eq w : dispose w = (Normal tt, disposed w).
Proof. reflexivity. Qed.

Lemma consumed_live w :
  _isDisposed (limiter w) = false → consumed w = consume (released w).
Proof.
  intros Hd. unfold consumed. rewrite Hd. cbn zeta.
  rewrite Tauto.if_same. fold (released w).
  case_bool_decide as Hlen; [done|].
  symmetry. apply consume_nil.
  destruct (outstandingPromises (limiter (released w))); [done|].
  cbn [length] in Hlen. lia.
Qed.

Lemma size_eq w : size w = (Normal (_size (limiter w)), w).
Proof. reflexivity. Qed.

Lemma consumed_disposed w :
  _isDisposed (limiter w) = true → consumed w = w.
Proof. intros Hd. unfold consumed. by rewrite Hd. Qed.

(* ===================================================================== *)
(** ** Steps as turns *)
(* ===================================================================== *)

Lemma limiter_settle k o w : limiter (settle k o w) = limiter w.
Proof. unfold settle. by destruct (settled w !! k). Qed.

Lemma started_settle k o w : started (settle k o w) = started w.
Proof. unfold settle. by destruct (settled w !! k). Qed.

Lemma inflight_settle k o w : inflight (settle k o w) = inflight w.
Proof. unfold settle. by destruct (settled w !! k). Qed.

Lemma nextPromise_settle k o w : nextPromise (settle k o w) = nextPromise w.
Proof. unfold settle. by destruct (settled w !! k). Qed.

Lemma step_turn w ev : turn w (step w ev).
Proof.
  destruct ev as [f| | |k o]; cbn [step]; unfold exec.
  - destruct (_isDisposed (limiter w)) eqn:Hd.
    + rewrite queue_disposed by done. constructor.
    + rewrite queue_live by done. by constructor.
  - destruct (_isDisposed (limiter w)) eqn:Hd.
    + rewrite clear_disposed by done. constructor.
    + rewrite clear_live by done. by constructor.
  - rewrite dispose_eq. constructor.
  - case_bool_decide as Hk; [|constructor]. unfold task_settles.
    destruct (_isDisposed (limiter w)) eqn:Hd.
    + rewrite consumed_disposed by by rewrite limiter_settle.
      by constructor.
    + rewrite consumed_live by by rewrite limiter_settle.
      by constructor.
Qed.

(* ===================================================================== *)
(** ** Sorted lists of promise identities *)
(* ===================================================================== *)

Lemma sorted_NoDup (l : list PromiseId) : StronglySorted lt l → NoDup l.
Proof.
  induction 1 as [|x l _ IH Hx]; constructor; [|done].
  intros Hin. rewrite Forall_forall in Hx. specialize (Hx _ Hin). lia.
Qed.

Lemma sorted_lookup_lt (l : list PromiseId) i j a b :
  StronglySorted lt l → (i < j)%nat →
  l !! i = Some a → l !! j = Some b → (a < b)%nat.
Proof.
  intros Hs. revert i j.
  induction Hs as [|x l _ IH Hx]; intros i j Hij Hi Hj; [done|].
  destruct j as [|j]; [lia|]. cbn in Hj. destruct i as [|i].
  - cbn in Hi. injection Hi as ->. rewrite Forall_forall in Hx.
    apply Hx. by eapply list_elem_of_lookup_2.
  - cbn in Hi. apply (IH i j); [lia|done..].
Qed.

Lemma sorted_before (l : list PromiseId) a b :
  StronglySorted lt l → a ∈ l → b ∈ l → (a < b)%nat → before a b l.
Proof.
  intros Hs [i Hi]%list_elem_of_lookup_1 [j Hj]%list_elem_of_lookup_1 Hab.
  exists i, j. split_and!; [|done..].
  destruct (Nat.lt_trichotomy i j) as [?|[->|Hji]]; [done|..].
  - rewrite Hi in Hj. injection Hj as ->. lia.
  - pose proof (sorted_lookup_lt _ _ _ _ _ Hs Hji Hj Hi). lia.
Qed.

Lemma filter_ne_absent (k : PromiseId) (l : list PromiseId) :
  k ∉ l → filter (λ j, j ≠ k) l = l.
Proof.
  induction l as [|x l IH]; [done|].
  rewrite not_elem_of_cons. intros [Hne Hl].
  rewrite filter_cons_True by done. by rewrite IH.
Qed.

Lemma length_filter_ne (k : PromiseId) (l : list PromiseId) :
  NoDup l → k ∈ l → length l = S (length (filter (λ j, j ≠ k) l)).
Proof.
  induction 1 as [|x l Hx _ IH]; intros Hin; [by apply elem_of_nil in Hin|].
  apply elem_of_cons in Hin as [<-|Hin].
  - rewrite filter_cons_False by (intros ?; done).
    by rewrite filter_ne_absent.
  - assert (x ≠ k) by (intros ->; done).
    rewrite filter_cons_True by done. cbn. by rewrite <- IH.
Qed.

(* ===================================================================== *)
(** ** What the drain loop leaves alone *)
(* ===================================================================== *)

Lemma order_advance pre rest w :
  outstandingPromises (limiter w) = pre ++ rest →
  order (advance pre rest w) = order w.
Proof.
  intros Hq. unfold order, queued. rewrite Hq. cbn.
  by rewrite fmap_app, app_assoc.
Qed.

Lemma order_pushed f w : order (pushed f w) = order w ++ [nextPromise w].
Proof. unfold order, queued. cbn. by rewrite fmap_app, app_assoc. Qed.

Lemma settled_consume w : settled (consume w) = settled w.
Proof. by destruct (consume_spec w) as (pre & rest & _ & -> & _). Qed.

Lemma nextPromise_consume w : nextPromise (consume w) = nextPromise w.
Proof. by destruct (consume_spec w) as (pre & rest & _ & -> & _). Qed.

Lemma disposed_consume w :
  _isDisposed (limiter (consume w)) = _isDisposed (limiter w).
Proof. by destruct (consume_spec w) as (pre & rest & _ & -> & _). Qed.

Lemma order_consume w : order (consume w) = order w.
Proof.
  destruct (consume_spec w) as (pre & rest & Hq & -> & _).
  by apply order_advance.
Qed.

Lemma started_consume w : started w `prefix_of` started (consume w).
Proof.
  destruct (consume_spec w) as (pre & rest & _ & -> & _).
  by apply prefix_app_r.
Qed.

Create Rewrite HintDb frame.

#[local] Hint Rewrite
  settled_consume nextPromise_consume disposed_consume order_consume
  limiter_settle started_settle inflight_settle nextPromise_settle
  : frame.

(* ===================================================================== *)
(** ** The limiter does not look at outcomes *)
(* ===================================================================== *)

Lemma consume_body_with_settled m w :
  consume_body (with_settled m w) = with_settled m (consume_body w).
Proof.
  unfold consume_body. cbn. by destruct (outstandingPromises (limiter w)).
Qed.

Lemma consume_loop_with_settled m n w :
  consume_loop n (with_settled m w) = with_settled m (consume_loop n w).
Proof.
  revert w. induction n as [|n IH]; intros w; [done|].
  cbn [consume_loop]. change (limiter (with_settled m w)) with (limiter w).
  destruct (may_start (limiter w)); [|done].
  by rewrite consume_body_with_settled, IH.
Qed.

Lemma consumed_with_settled m w :
  consumed (with_settled m w) = with_settled m (consumed w).
Proof.
  destruct (_isDisposed (limiter w)) eqn:Hd.
  - by rewrite !consumed_disposed.
  - rewrite !consumed_live by done. unfold consume.
    change (released (with_settled m w)) with (with_settled m (released w)).
    by rewrite consume_loop_with_settled.
Qed.

(* ===================================================================== *)
(** ** What every turn preserves *)
(* ===================================================================== *)

Lemma settled_settle_stable k o w j oj :
  settled w !! j = Some oj → settled (settle k o w) !! j = Some oj.
Proof.
  intros Hj. unfold settle. destruct (settled w !! k) eqn:Hk; [done|].
  cbn. rewrite lookup_insert_ne; [done|]. intros ->. congruence.
Qed.

(** A settled promise keeps its outcome. *)
Lemma settled_turn w w' j oj :
  turn w w' → settled w !! j = Some oj → settled w' !! j = Some oj.
Proof.
  intros [|f Hd|Hd| |k o Hk Hd|k o Hk Hd] Hj;
    autorewrite with frame; try done.
  - by apply (settled_settle_stable k o (land k w)).
  - by apply (settled_settle_stable k o (land k w)).
Qed.

Lemma settled_run es w j oj :
  settled w !! j = Some oj → settled (run es w) !! j = Some oj.
Proof.
  revert w. induction es as [|ev es IH]; intros w Hj; [done|].
  cbn. eapply IH, settled_turn; [apply step_turn|done].
Qed.

(** Factories are called in one order, which only grows. *)
Lemma started_turn w w' : turn w w' → started w `prefix_of` started w'.
Proof.
  intros [|f Hd|Hd| |k o Hk Hd|k o Hk Hd]; try done.
  - apply (started_consume (pushed f w)).
  - etrans; [|apply started_consume]. cbn. by rewrite started_settle.
  - by rewrite started_settle.
Qed.

Lemma started_run es w : started w `prefix_of` started (run es w).
Proof.
  revert w. induction es as [|ev es IH]; intros w; [done|].
  cbn. etrans; [apply started_turn, step_turn|apply IH].
Qed.

(** Once disposed, always disposed. *)
Lemma disposed_turn w w' :
  turn w w' →
  _isDisposed (limiter w) = true → _isDisposed (limiter w') = true.
Proof.
  intros [|f Hd|Hd| |k o Hk Hd|k o Hk Hd] Hdisp;
    autorewrite with frame; try done; congruence.
Qed.

Lemma disposed_run es w :
  _isDisposed (limiter w) = true → _isDisposed (limiter (run es w)) = true.
Proof.
  revert w. induction es as [|ev es IH]; intros w Hd; [done|].
  cbn. eapply IH, disposed_turn; [apply step_turn|done].
Qed.

(* ===================================================================== *)
(** ** The invariant *)
(* ===================================================================== *)

Section invariant.
Variable N : Z.

Implicit Types (w : World) (k : PromiseId) (o : Outcome).

Lemma Inv0_NoDup_inflight w : Inv0 N w → NoDup (inflight w).
Proof.
  intros HI. eapply sublist_NoDup; [|apply HI].
  apply sorted_NoDup. eapply StronglySorted_app_1_l, (inv_sorted _ _ HI).
Qed.

Lemma Inv0_running_nonneg w : Inv0 N w → 0 ≤ runningPromises (limiter w).
Proof.
  intros HI. pose proof (inv_running _ _ HI) as Hr.
  destruct (_isDisposed (limiter w)); lia.
Qed.

Lemma Inv0_started_not_queued w k :
  Inv0 N w → k ∈ started w → k ∉ queued w.
Proof.
  intros HI Hs Hq.
  pose proof (StronglySorted_app_1_elem_of _ _ _ _ _ (inv_sorted _ _ HI) Hs Hq).
  lia.
Qed.

Lemma Inv0_pending w k :
  Inv0 N w → k ∈ inflight w ∨ k ∈ queued w → settled w !! k = None.
Proof.
  intros HI Hk. destruct (settled w !! k) eqn:E; [exfalso|done].
  destruct (inv_settled _ _ HI k) as [Hs Hni]; [by rewrite E|].
  destruct Hk as [?|Hq]; [done|].
  by eapply Inv0_started_not_queued.
Qed.

Lemma Inv0_queued_fresh w k :
  Inv0 N w → k ∈ queued w → (k < nextPromise w)%nat.
Proof.
  intros HI Hk. pose proof (inv_fresh _ _ HI) as Hf.
  rewrite Forall_forall in Hf. apply Hf, elem_of_app. by right.
Qed.

Lemma Inv_new : Inv N (new_Limiter N).
Proof.
  split; [split; cbn; try done|].
  - constructor.
  - intros k. rewrite lookup_empty. by intros [? ?].
  - lia.
  - by left.
Qed.

(** The drain loop keeps the invariant, whatever prefix of the queue it
    starts, and establishes its own exit condition. *)
Lemma Inv0_advance pre rest w :
  Inv0 N w →
  outstandingPromises (limiter w) = pre ++ rest →
  (pre ≠ [] →
   runningPromises (limiter w) + Z.of_nat (length pre)
     ≤ maxDegreeOfParalellism (limiter w)) →
  Inv0 N (advance pre rest w).
Proof.
  intros HI Hq Hle. pose proof (Inv0_running_nonneg _ HI) as Hnn.
  assert (Hpre : N ≤ 0 → pre = []).
  { intros HN. destruct pre as [|t pre]; [done|].
    specialize (Hle ltac:(done)). rewrite (inv_max _ _ HI) in Hle.
    cbn [length] in Hle. lia. }
  split.
  - apply HI.
  - rewrite order_advance by done. apply HI.
  - rewrite order_advance by done. apply HI.
  - cbn. apply sublist_app; [apply HI|done].
  - cbn. intros k Hk. destruct (inv_settled _ _ HI k Hk) as [Hs Hni].
    split; [apply elem_of_app; by left|].
    intros [?|Hin]%elem_of_app; [done|].
    eapply (Inv0_started_not_queued _ _ HI Hs).
    unfold queued. rewrite Hq, fmap_app. apply elem_of_app. by left.
  - pose proof (inv_running _ _ HI) as Hr. cbn.
    rewrite length_app, length_fmap.
    destruct (_isDisposed (limiter w)); lia.
  - pose proof (inv_bound _ _ HI) as Hb. cbn.
    destruct pre as [|t pre]; [cbn; lia|].
    specialize (Hle ltac:(done)). rewrite (inv_max _ _ HI) in Hle. lia.
  - cbn. intros Hd. rewrite (inv_size _ _ HI Hd), Hq, length_app. lia.
  - cbn. intros Hd. destruct (inv_disposed _ _ HI Hd) as (Hnil & ? & ?).
    rewrite Hnil in Hq. symmetry in Hq. apply app_eq_nil in Hq as [_ ->].
    done.
  - apply HI.
  - cbn. intros HN. rewrite (inv_nostart _ _ HI HN), (Hpre HN). done.
  - cbn. rewrite !length_app, (inv_count _ _ HI). lia.
Qed.

Lemma Inv_consume w : Inv0 N w → Inv N (consume w).
Proof.
  intros HI. destruct (consume_spec w) as (pre & rest & Hq & -> & Hle & Hex).
  split; [by apply Inv0_advance|].
  intros _. cbn. destruct Hex; [by left|by right].
Qed.

Lemma Inv0_pushed f w :
  Inv0 N w → _isDisposed (limiter w) = false → Inv0 N (pushed f w).
Proof.
  intros HI Hd. pose proof (inv_fresh _ _ HI) as Hfresh.
  rewrite Forall_forall in Hfresh.
  split.
  - apply HI.
  - rewrite order_pushed. apply StronglySorted_app_2; [|apply HI|].
    + intros a b Ha ->%list_elem_of_singleton. by apply Hfresh.
    + repeat constructor.
  - rewrite order_pushed. cbn. apply Forall_app. split.
    + apply Forall_forall. intros a Ha. specialize (Hfresh _ Ha). lia.
    + repeat constructor.
  - apply HI.
  - apply HI.
  - pose proof (inv_running _ _ HI) as Hr. cbn. by rewrite Hd in *.
  - apply HI.
  - cbn. intros _. rewrite (inv_size _ _ HI Hd), length_app. cbn. lia.
  - cbn. intros Hd'. congruence.
  - apply HI.
  - apply HI.
  - apply HI.
Qed.

(** A task promise in flight is wired to a pending promise, so its
    settling does settle that promise. *)
Lemma landed_eq k o w :
  Inv0 N w → k ∈ inflight w →
  settle k o (land k w) = with_settled (<[k := o]> (settled w)) (land k w).
Proof.
  intros HI Hk. unfold settle.
  change (settled (land k w)) with (settled w).
  rewrite (Inv0_pending w k HI); [done|by left].
Qed.

Lemma Inv0_landed_settled k o w :
  Inv0 N w → k ∈ inflight w →
  ∀ j, is_Some (<[k := o]> (settled w) !! j) →
       j ∈ started w ∧ j ∉ filter (λ i, i ≠ k) (inflight w).
Proof.
  intros HI Hk j. rewrite list_elem_of_filter.
  destruct (decide (k = j)) as [<-|Hne].
  - intros _. split; [|by intros [? _]].
    eapply elem_of_sublist; [done|apply HI].
  - rewrite lookup_insert_ne by done. intros Hj.
    destruct (inv_settled _ _ HI j Hj). tauto.
Qed.

Lemma Inv0_released k o w :
  Inv0 N w → k ∈ inflight w → _isDisposed (limiter w) = false →
  Inv0 N (released (settle k o (land k w))).
Proof.
  intros HI Hk Hd. rewrite landed_eq by done.
  pose proof (length_filter_ne k _ (Inv0_NoDup_inflight _ HI) Hk) as Hlen.
  split; cbn.
  - apply HI.
  - apply HI.
  - apply HI.
  - etrans; [apply sublist_filter|apply HI].
  - by apply Inv0_landed_settled.
  - pose proof (inv_running _ _ HI) as Hr. rewrite Hd in *. lia.
  - pose proof (inv_bound _ _ HI). lia.
  - intros _. rewrite (inv_size _ _ HI Hd). lia.
  - congruence.
  - apply HI.
  - apply HI.
  - rewrite map_size_insert_None by (apply Inv0_pending; auto).
    rewrite (inv_count _ _ HI). lia.
Qed.

Lemma Inv_landed_disposed k o w :
  Inv N w → k ∈ inflight w → _isDisposed (limiter w) = true →
  Inv N (settle k o (land k w)).
Proof.
  intros [HI _] Hk Hd. rewrite landed_eq by done.
  split; [split; cbn; try apply HI|].
  - etrans; [apply sublist_filter|apply HI].
  - by apply Inv0_landed_settled.
  - pose proof (inv_running _ _ HI) as Hr. rewrite Hd in *.
    pose proof (length_filter (λ j : PromiseId, j ≠ k) (inflight w)). lia.
  - pose proof (length_filter_ne k _ (Inv0_NoDup_inflight _ HI) Hk) as Hlen.
    rewrite map_size_insert_None by (apply Inv0_pending; auto).
    rewrite (inv_count _ _ HI). lia.
  - intros Hd'. cbn in Hd'. congruence.
Qed.

Lemma Inv_cleared w :
  Inv N w → _isDisposed (limiter w) = false → Inv N (cleared w).
Proof.
  intros [HI _] Hd.
  split; [split; cbn; try apply HI|].
  - unfold order, queued. cbn. rewrite app_nil_r.
    eapply StronglySorted_app_1_l, (inv_sorted _ _ HI).
  - unfold order, queued. cbn. rewrite app_nil_r.
    pose proof (inv_fresh _ _ HI) as Hf. by apply Forall_app in Hf as [? _].
  - lia.
  - congruence.
  - intros _. by left.
Qed.

Lemma Inv_disposed w : Inv N w → Inv N (disposed w).
Proof.
  intros [HI _].
  split; [split; cbn; try apply HI|].
  - unfold order, queued. cbn. rewrite app_nil_r.
    eapply StronglySorted_app_1_l, (inv_sorted _ _ HI).
  - unfold order, queued. cbn. rewrite app_nil_r.
    pose proof (inv_fresh _ _ HI) as Hf. by apply Forall_app in Hf as [? _].
  - pose proof (inv_running _ _ HI) as Hr.
    destruct (_isDisposed (limiter w)); lia.
  - done.
  - done.
  - intros Hd. cbn in Hd. congruence.
Qed.

Lemma Inv_turn w w' : Inv N w → turn w w' → Inv N w'.
Proof.
  intros HI [|f Hd|Hd| |k o Hk Hd|k o Hk Hd].
  - done.
  - apply Inv_consume, Inv0_pushed; [apply HI|done].
  - by apply Inv_cleared.
  - by apply Inv_disposed.
  - apply Inv_consume, Inv0_released; [apply HI|done..].
  - by apply Inv_landed_disposed.
Qed.

Lemma Inv_step w ev : Inv N w → Inv N (step w ev).
Proof. intros HI. eapply Inv_turn, step_turn. done. Qed.

Lemma Inv_run es w : Inv N w → Inv N (run es w).
Proof.
  revert w. induction es as [|ev es IH]; intros w HI; [done|].
  cbn. apply IH. by apply Inv_step.
Qed.

(** Every world of an execution from a new limiter satisfies the
    invariant. *)
Lemma Inv_execution es : Inv N (run es (new_Limiter N)).
Proof. apply Inv_run, Inv_new. Qed.

(* --------------------------------------------------------------------- *)
(** *** Promises keep their outcome *)

(** The promise returned for a task settles with the outcome of the task's
    own promise. *)
Lemma settled_task_settles w k o :
  Inv N w → k ∈ inflight w →
  settled (step w (Settles k o)) !! k = Some o.
Proof.
  intros [HI _] Hk. cbn [step]. rewrite bool_decide_eq_true_2 by done.
  unfold task_settles.
  destruct (_isDisposed (limiter w)) eqn:Hd.
  - rewrite consumed_disposed by by rewrite limiter_settle.
    rewrite landed_eq by done. apply lookup_insert_eq.
  - rewrite consumed_live by by rewrite limiter_settle.
    rewrite settled_consume, landed_eq by done. apply lookup_insert_eq.
Qed.

(* --------------------------------------------------------------------- *)
(** *** Dropped promises stay pending *)

Lemma dropped_turn w w' k :
  Inv N w → turn w w' → dropped k w → dropped k w'.
Proof.
  intros [HI _] Hturn (Hlt & Hno & Hpend).
  assert (Hstarted : k ∉ started w).
  { intros Hs. apply Hno, elem_of_app. by left. }
  destruct Hturn as [|f Hd|Hd| |j o Hj Hd|j o Hj Hd].
  - done.
  - split_and!; autorewrite with frame.
    + cbn. lia.
    + rewrite order_pushed.
      intros [?|Hx%list_elem_of_singleton]%elem_of_app; [done|lia].
    + done.
  - split_and!; [done| |done].
    unfold order, queued. cbn. by rewrite app_nil_r.
  - split_and!; [done| |done].
    unfold order, queued. cbn. by rewrite app_nil_r.
  - rewrite landed_eq by done. split_and!; autorewrite with frame.
    + done.
    + done.
    + cbn. rewrite lookup_insert_ne; [done|]. intros ->.
      apply Hstarted. eapply elem_of_sublist; [done|apply HI].
  - rewrite landed_eq by done. split_and!; [done..|].
    cbn. rewrite lookup_insert_ne; [done|]. intros ->.
    apply Hstarted. eapply elem_of_sublist; [done|apply HI].
Qed.

Lemma dropped_run es w k :
  Inv N w → dropped k w → dropped k (run es w).
Proof.
  revert w. induction es as [|ev es IH]; intros w HI Hk; [done|].
  cbn. apply IH; [by apply Inv_step|].
  eapply dropped_turn; [done|apply step_turn|done].
Qed.

(** What [clear] and [dispose] remove from the queue is dropped. *)
Lemma dropped_cleared w k :
  Inv N w → k ∈ queued w → dropped k (cleared w).
Proof.
  intros [HI _] Hk. split_and!.
  - cbn. by apply Inv0_queued_fresh.
  - unfold order, queued. cbn. rewrite app_nil_r.
    intros Hs. by eapply Inv0_started_not_queued.
  - cbn. apply Inv0_pending; [done|by right].
Qed.

Lemma dropped_disposed w k :
  Inv N w → k ∈ queued w → dropped k (disposed w).
Proof.
  intros [HI _] Hk. split_and!.
  - cbn. by apply Inv0_queued_fresh.
  - unfold order, queued. cbn. rewrite app_nil_r.
    intros Hs. by eapply Inv0_started_not_queued.
  - cbn. apply Inv0_pending; [done|by right].
Qed.

(* --------------------------------------------------------------------- *)
(** *** Order of starts *)

(** Of two queued entries, the drain loop never starts the later one and
    leaves the earlier one queued. *)
Lemma consume_keeps_order w a b :
  Inv0 N w → a ∈ queued w → b ∈ queued w → (a < b)%nat →
  (a ∈ queued (consume w) ∧ b ∈ queued (consume w)) ∨
  a ∈ started (consume w).
Proof.
  intros HI Ha Hb Hab.
  destruct (consume_spec w) as (pre & rest & Hq & -> & _).
  unfold queued in *. rewrite Hq, fmap_app in Ha, Hb. cbn.
  apply elem_of_app in Ha as [Ha|Ha].
  { right. apply elem_of_app. by right. }
  apply elem_of_app in Hb as [Hb|Hb]; [exfalso|by left].
  pose proof (inv_sorted _ _ HI) as Hs. unfold order, queued in Hs.
  rewrite Hq, fmap_app in Hs.
  apply StronglySorted_app_1_r in Hs.
  pose proof (StronglySorted_app_1_elem_of _ _ _ _ _ Hs Hb Ha). lia.
Qed.

(** After one turn, two queued entries are both still queued, or the
    earlier one is started, or the later one is dropped. *)
Lemma turn_keeps_order w w' a b :
  Inv N w → turn w w' →
  a ∈ queued w → b ∈ queued w → (a < b)%nat →
  (a ∈ queued w' ∧ b ∈ queued w') ∨ a ∈ started w' ∨ dropped b w'.
Proof.
  intros HI Hturn Ha Hb Hab. pose proof HI as [HI0 _].
  destruct Hturn as [|f Hd|Hd| |k o Hk Hd|k o Hk Hd].
  - by left.
  - destruct (consume_keeps_order (pushed f w) a b) as [?|?];
      [by apply Inv0_pushed| | |done|by left|by (right; left)].
    + unfold queued. cbn. rewrite fmap_app. apply elem_of_app. by left.
    + unfold queued. cbn. rewrite fmap_app. apply elem_of_app. by left.
  - right; right. by apply dropped_cleared.
  - right; right. by apply dropped_disposed.
  - destruct (consume_keeps_order (released (settle k o (land k w))) a b)
      as [?|?]; [by apply Inv0_released| | |done|by left|by (right; left)].
    + unfold queued. cbn. by rewrite limiter_settle.
    + unfold queued. cbn. by rewrite limiter_settle.
  - left. unfold queued. by rewrite limiter_settle.
Qed.

Lemma run_keeps_order es w a b :
  Inv N w → a ∈ queued w → b ∈ queued w → (a < b)%nat →
  b ∈ started (run es w) → before a b (started (run es w)).
Proof.
  revert w. induction es as [|ev es IH]; intros w HI Ha Hb Hab Hrun.
  - exfalso. destruct HI as [HI _].
    by eapply (Inv0_started_not_queued _ b HI).
  - cbn in *. pose proof (Inv_step w ev HI) as HI1.
    destruct (turn_keeps_order w _ a b HI (step_turn w ev) Ha Hb Hab)
      as [[Ha1 Hb1]|[Ha1|Hdrop]].
    + by apply IH.
    + pose proof (Inv_run es _ HI1) as [HI2 _].
      apply sorted_before; [|by eapply elem_of_prefix, started_run|done..].
      eapply StronglySorted_app_1_l, (inv_sorted _ _ HI2).
    + exfalso. destruct (dropped_run es _ b HI1 Hdrop) as (_ & Hno & _).
      apply Hno, elem_of_app. by left.
Qed.

(* --------------------------------------------------------------------- *)
(** *** Counting submissions *)

(** As long as nothing is dropped, every promise handed out is started or
    queued. *)
Lemma order_step_nodrop w ev :
  ev ≠ CallClear → ev ≠ CallDispose →
  length (order w) = nextPromise w →
  length (order (step w ev)) = nextPromise (step w ev).
Proof.
  intros Hc Hdi Hlen. destruct ev as [f| | |k o]; [|done|done|].
  - cbn [step]. unfold exec. destruct (_isDisposed (limiter w)) eqn:Hd.
    + by rewrite queue_disposed.
    + rewrite queue_live by done. cbn [snd]. autorewrite with frame.
      rewrite order_pushed, length_app. cbn. lia.
  - cbn [step]. case_bool_decide; [|done]. unfold task_settles.
    destruct (_isDisposed (limiter w)) eqn:Hd.
    + rewrite consumed_disposed by by rewrite limiter_settle.
      unfold order, queued in *. by autorewrite with frame.
    + rewrite consumed_live by by rewrite limiter_settle.
      autorewrite with frame. unfold order, queued in *. cbn.
      by autorewrite with frame.
Qed.

Lemma order_run_nodrop es w :
  CallClear ∉ es → CallDispose ∉ es →
  length (order w) = nextPromise w →
  length (order (run es w)) = nextPromise (run es w).
Proof.
  revert w. induction es as [|ev es IH]; intros w Hc Hd Hlen; [done|].
  apply not_elem_of_cons in Hc as [? ?]. apply not_elem_of_cons in Hd as [? ?].
  cbn. apply IH; [done..|]. by apply order_step_nodrop.
Qed.

Lemma disposed_in_trace es w :
  CallDispose ∈ es → _isDisposed (limiter (run es w)) = true.
Proof.
  intros (l1 & l2 & ->)%list_elem_of_split.
  unfold run. rewrite foldl_app. cbn [foldl].
  by apply (disposed_run l2).
Qed.

(* --------------------------------------------------------------------- *)
(** *** The limiter does not look at outcomes *)

Lemma task_settles_with_settled k o w :
  Inv N w → k ∈ inflight w →
  task_settles k o w
  = with_settled (<[k := o]> (settled w)) (consumed (land k w)).
Proof.
  intros [HI _] Hk. unfold task_settles.
  by rewrite landed_eq, <- consumed_with_settled by done.
Qed.

(* --------------------------------------------------------------------- *)
(** *** Counting the dropped promises *)

Lemma elem_of_dropped_promises w k :
  Inv0 N w → k ∈ dropped_promises w ↔ dropped k w.
Proof.
  intros HI. unfold dropped_promises, dropped.
  rewrite list_elem_of_filter, elem_of_seq. split.
  - intros [Hno Hlt]. split_and!; [lia|done|].
    destruct (settled w !! k) eqn:Hs; [|done].
    destruct (inv_settled _ _ HI k) as [Hin _]; [by rewrite Hs|].
    exfalso. apply Hno, elem_of_app. by left.
  - intros (Hlt & Hno & _). split; [done|lia].
Qed.

Lemma length_dropped_promises w :
  Inv0 N w →
  (length (dropped_promises w) + length (order w))%nat = nextPromise w.
Proof.
  intros HI. unfold dropped_promises.
  set (all := seq 0 (nextPromise w)).
  assert (Hperm : filter (λ k, k ∈ order w) all ≡ₚ order w).
  { apply NoDup_Permutation.
    - apply NoDup_filter, NoDup_seq.
    - apply sorted_NoDup, (inv_sorted _ _ HI).
    - intros k. rewrite list_elem_of_filter. unfold all.
      rewrite elem_of_seq. split; [tauto|]. intros Hk. split; [done|].
      pose proof (inv_fresh _ _ HI) as Hf.
      rewrite Forall_forall in Hf. specialize (Hf _ Hk). lia. }
  pose proof (filter_app_complement (λ k, k ∈ order w) all) as Hsplit.
  apply Permutation_length in Hsplit, Hperm.
  rewrite length_app in Hsplit. unfold all in Hsplit at 3.
  rewrite length_seq in Hsplit. unfold PromiseId in *. lia.
Qed.

End invariant.

(* ===================================================================== *)
(** ** The properties of the limiter *)
(* ===================================================================== *)

(** C1. For a limiter built with [maxDegreeOfParalellism] N ≥ 1, after any
    sequence of submissions, [clear] and [dispose] calls and task
    completions, the counter [runningPromises] is at most N, and so is the
    number of task promises in flight.  The bound also holds inside the
    drain loop: after any number of turns of the loop entered from [queue]
    or from [consumed], the counter is at most N. *)
Theorem C1_running_never_exceeds_max (N : Z) (es : list Event) :
  1 ≤ N →
  runningPromises (limiter (run es (new_Limiter N))) ≤ N ∧
  Z.of_nat (length (inflight (run es (new_Limiter N)))) ≤ N ∧
  (∀ f n,
     runningPromises
       (limiter (consume_loop n (pushed f (run es (new_Limiter N))))) ≤ N) ∧
  (∀ k o n,
     runningPromises
       (limiter (consume_loop n
          (released (settle k o (land k (run es (new_Limiter N))))))) ≤ N).
Proof.
  intros HN. set (w := run es (new_Limiter N)).
  assert (HI : Inv0 N w) by apply (Inv_execution N es).
  pose proof (inv_bound _ _ HI) as Hb.
  pose proof (inv_running _ _ HI) as Hr.
  pose proof (inv_max _ _ HI) as Hm.
  assert (Hmax : Z.max 0 N = N) by lia. rewrite Hmax in Hb.
  split_and!.
  - done.
  - destruct (_isDisposed (limiter w)); lia.
  - intros f n.
    pose proof (consume_loop_bound N n (pushed f w) Hm) as Hloop.
    cbn in Hloop. lia.
  - intros k o n.
    assert (Hl : limiter (settle k o (land k w)) = limiter w).
    { unfold settle. by destruct (settled (land k w) !! k). }
    pose proof (consume_loop_bound N n
                  (released (settle k o (land k w)))) as Hloop.
    cbn in Hloop. rewrite Hl in Hloop. lia.
Qed.

Lemma C1_running_never_exceeds_max_witness :
  1 ≤ 2 ∧
  runningPromises (limiter two_of_three_running) ≤ 2 ∧
  Z.of_nat (length (inflight two_of_three_running)) ≤ 2 ∧
  (∀ f n,
     runningPromises
       (limiter (consume_loop n (pushed f two_of_three_running))) ≤ 2) ∧
  (∀ k o n,
     runningPromises
       (limiter (consume_loop n
          (released (settle k o (land k two_of_three_running))))) ≤ 2).
Proof.
  split; [lia|].
  apply (C1_running_never_exceeds_max 2
           [CallQueue 0; CallQueue 1; CallQueue 2; Settles 1 (Rejected 4)]).
  lia.
Defined.

(** C2. Let two tasks wait in the pending queue of a limiter, the first
    submitted before the second ([queue] hands out promise identities in
    submission order, so its promise has the smaller identity).  Then the
    first precedes the second in the queue, and in every continuation of
    the execution in which the second task is started, the first one was
    started before it.  Nothing is said about the order of completions,
    which the environment chooses. *)
Theorem C2_queued_tasks_start_in_submission_order
    (N : Z) (es0 : list Event) (a b : PromiseId) :
  a ∈ queued (run es0 (new_Limiter N)) →
  b ∈ queued (run es0 (new_Limiter N)) →
  (a < b)%nat →
  before a b (queued (run es0 (new_Limiter N))) ∧
  ∀ es, b ∈ started (run es (run es0 (new_Limiter N))) →
        before a b (started (run es (run es0 (new_Limiter N)))).
Proof.
  intros Ha Hb Hab. set (w := run es0 (new_Limiter N)) in *.
  assert (HI : Inv N w) by apply (Inv_execution N es0).
  split.
  - apply sorted_before; [|done..].
    destruct HI as [HI _].
    eapply StronglySorted_app_1_r, (inv_sorted _ _ HI).
  - intros es. by apply (run_keeps_order N).
Qed.

Lemma C2_queued_tasks_start_in_submission_order_witness :
  queued three_submitted = [1; 2]%nat ∧
  before 1 2 (queued three_submitted) ∧
  ∀ es, 2%nat ∈ started (run es three_submitted) →
        before 1 2 (started (run es three_submitted)).
Proof.
  split; [reflexivity|].
  apply (C2_queued_tasks_start_in_submission_order 1
           [CallQueue 0; CallQueue 1; CallQueue 2] 1 2).
  - vm_compute. repeat constructor.
  - vm_compute. repeat constructor.
  - lia.
Defined.

(** Both completion orders of two running tasks are executions. *)
Example completion_order_is_free :
  inflight (run [CallQueue 0; CallQueue 1] (new_Limiter 2)) = [0; 1]%nat ∧
  settled (run [CallQueue 0; CallQueue 1; Settles 1 (Resolved 5)]
             (new_Limiter 2)) !! 1%nat = Some (Resolved 5) ∧
  settled (run [CallQueue 0; CallQueue 1; Settles 1 (Resolved 5)]
             (new_Limiter 2)) !! 0%nat = None ∧
  settled (run [CallQueue 0; CallQueue 1; Settles 0 (Resolved 6)]
             (new_Limiter 2)) !! 0%nat = Some (Resolved 6) ∧
  settled (run [CallQueue 0; CallQueue 1; Settles 0 (Resolved 6)]
             (new_Limiter 2)) !! 1%nat = None.
Proof. by vm_compute. Qed.




(** C4. [dispose] never throws; it sets the disposed flag, empties the
    pending queue, leaves every promise as it was (the promises of the
    dropped entries are not settled, and no later event settles them) and
    disposes of the emitter [_onDrained].  Every later call of [queue]
    throws 'Object has been disposed' and changes nothing. *)
Theorem C4_dispose_then_queue_throws (N : Z) (es : list Event) :
  let w := run es (new_Limiter N) in
  result dispose w = Normal tt ∧
  _isDisposed (limiter (exec dispose w)) = true ∧
  outstandingPromises (limiter (exec dispose w)) = [] ∧
  settled (exec dispose w) = settled w ∧
  em_disposed (_onDrained (limiter (exec dispose w))) = true ∧
  (∀ k es', k ∈ queued w →
            settled w !! k = None ∧
            settled (run es' (exec dispose w)) !! k = None) ∧
  (∀ es' f,
     queue f (run es' (exec dispose w))
     = (Throw "Object has been disposed", run es' (exec dispose w))).
Proof.
  intros w. assert (HI : Inv N w) by apply (Inv_execution N es).
  split_and!; try done.
  - intros k es' Hk. split.
    + destruct HI as [HI _]. apply (Inv0_pending N); [done|by right].
    + apply (dropped_run N es' (disposed w) k).
      * by apply Inv_disposed.
      * by apply (dropped_disposed N).
  - intros es' f. apply queue_disposed. by apply disposed_run.
Qed.

(** With one task running and two waiting: the two are dropped, and the
    completion of a dropped task's promise is no event of the limiter. *)
Example dispose_drops_queued_tasks :
  queued three_submitted = [1; 2]%nat ∧
  queued (exec dispose three_submitted) = [] ∧
  result (queue 3) (exec dispose three_submitted)
  = Throw "Object has been disposed" ∧
  settled (run [Settles 0 (Resolved 8); Settles 1 (Resolved 8)]
             (exec dispose three_submitted)) !! 1%nat = None.
Proof. by vm_compute. Qed.

(** C5. When the promise of a running task A settles with an outcome (a
    rejection with error E, say), the promise that [queue] returned for A
    settles with that outcome and keeps it; when later, after any further
    events, the promise of another running task B settles with its outcome
    (a value V, say), the promise returned for B settles with that one,
    and A's is unchanged.  This holds for either order of submission and
    of completion of the two.  What the limiter does on A's completion
    does not depend on A's outcome: its fields, the tasks in flight and
    the tasks started are the same after a rejection as after a
    resolution. *)
Theorem C5_outcomes_are_isolated
    (N : Z) (es0 es1 es2 : list Event) (a b : PromiseId) (oa ob : Outcome) :
  let w := run es0 (new_Limiter N) in
  let w1 := run es1 (step w (Settles a oa)) in
  let w2 := run es2 (step w1 (Settles b ob)) in
  a ∈ inflight w →
  b ∈ inflight w1 →
  settled (step w (Settles a oa)) !! a = Some oa ∧
  settled w2 !! a = Some oa ∧
  settled w2 !! b = Some ob ∧
  ∀ o',
    limiter (step w (Settles a o')) = limiter (step w (Settles a oa)) ∧
    inflight (step w (Settles a o')) = inflight (step w (Settles a oa)) ∧
    started (step w (Settles a o')) = started (step w (Settles a oa)).
Proof.
  intros w w1 w2 Ha Hb.
  assert (HI : Inv N w) by apply (Inv_execution N es0).
  assert (HI1 : Inv N w1) by apply Inv_run, Inv_step, HI.
  assert (Hsa : settled (step w (Settles a oa)) !! a = Some oa)
    by by apply (settled_task_settles N).
  split_and!.
  - done.
  - apply settled_run, (settled_turn _ _ _ _ (step_turn _ _)), settled_run, Hsa.
  - apply settled_run. by apply (settled_task_settles N).
  - intros o'. cbn [step]. rewrite bool_decide_eq_true_2 by done.
    by rewrite !(task_settles_with_settled N) by done.
Qed.

Lemma C5_outcomes_are_isolated_witness :
  inflight three_submitted = [0%nat] ∧
  inflight (run [CallQueue 3] (step three_submitted (Settles 0 (Rejected 7))))
  = [1%nat] ∧
  settled
    (run [CallClear]
       (step (run [CallQueue 3]
                (step three_submitted (Settles 0 (Rejected 7))))
          (Settles 1 (Resolved 9)))) !! 0%nat
  = Some (Rejected 7) ∧
  settled
    (run [CallClear]
       (step (run [CallQueue 3]
                (step three_submitted (Settles 0 (Rejected 7))))
          (Settles 1 (Resolved 9)))) !! 1%nat
  = Some (Resolved 9).
Proof.
  split; [reflexivity|]. split; [reflexivity|].
  destruct (C5_outcomes_are_isolated 1
              [CallQueue 0; CallQueue 1; CallQueue 2]
              [CallQueue 3] [CallClear]
              0%nat 1%nat (Rejected 7) (Resolved 9))
    as (_ & Ha & Hb & _).
  - vm_compute. repeat constructor.
  - vm_compute. repeat constructor.
  - split; [exact Ha|exact Hb].
Defined.

(** C6. [clear] empties the pending queue without settling any promise:
    the promises returned for the dropped entries are pending, and no
    later event settles them.  The running tasks are not touched: the same
    task promises are in flight, the running count is the same, and when
    one of them settles later, the promise returned for it settles with
    that outcome and keeps it. *)
Theorem C6_clear_drops_queued_only (N : Z) (es : list Event) :
  let w := run es (new_Limiter N) in
  result clear w
  = (if _isDisposed (limiter w)
     then Throw "Object has been disposed" else Normal tt) ∧
  outstandingPromises (limiter (exec clear w)) = [] ∧
  settled (exec clear w) = settled w ∧
  inflight (exec clear w) = inflight w ∧
  runningPromises (limiter (exec clear w)) = runningPromises (limiter w) ∧
  (∀ k es', k ∈ queued w →
            settled w !! k = None ∧
            settled (run es' (exec clear w)) !! k = None) ∧
  (∀ k o es', k ∈ inflight w →
              settled (run es' (step (exec clear w) (Settles k o))) !! k
              = Some o).
Proof.
  intros w. assert (HI : Inv N w) by apply (Inv_execution N es).
  pose proof HI as [HI0 _]. unfold exec, result.
  destruct (_isDisposed (limiter w)) eqn:Hd.
  - rewrite clear_disposed by done. cbn [fst snd].
    destruct (inv_disposed _ _ HI0 Hd) as (Hq & _).
    split_and!; try done.
    + intros k es' Hk. unfold queued in Hk. rewrite Hq in Hk.
      by apply elem_of_nil in Hk.
    + intros k o es' Hk. by apply settled_run, (settled_task_settles N).
  - rewrite clear_live by done. cbn [fst snd].
    split_and!; try done.
    + intros k es' Hk. split.
      * apply (Inv0_pending N); [done|by right].
      * apply (dropped_run N es' (cleared w) k).
        -- by apply Inv_cleared.
        -- by apply (dropped_cleared N).
    + intros k o es' Hk. apply settled_run.
      apply (settled_task_settles N); [by apply Inv_cleared|done].
Qed.

(** With one task running and two waiting: the two are dropped, the
    running one completes as before. *)
Example clear_drops_queued_tasks :
  queued three_submitted = [1; 2]%nat ∧
  inflight three_submitted = [0%nat] ∧
  queued (exec clear three_submitted) = [] ∧
  inflight (exec clear three_submitted) = [0%nat] ∧
  _size (limiter (exec clear three_submitted)) = 1 ∧
  settled (run [Settles 0 (Resolved 8); Settles 1 (Resolved 8)]
             (exec clear three_submitted)) !! 0%nat = Some (Resolved 8) ∧
  settled (run [Settles 0 (Resolved 8); Settles 1 (Resolved 8)]
             (exec clear three_submitted)) !! 1%nat = None.
Proof. by vm_compute. Qed.

(** C7, as stated, fails: [clear] removes the queued entries from the
    count, although their tasks were submitted and have not completed.
    On a limiter of one, after two calls of [queue] and a call of
    [clear], two tasks were submitted, none has completed, and [size] is
    1. *)
Lemma C7_size_after_clear_misses_dropped_task :
  _isDisposed
    (limiter (run [CallQueue 0; CallQueue 1; CallClear] (new_Limiter 1)))
  = false ∧
  nextPromise (run [CallQueue 0; CallQueue 1; CallClear] (new_Limiter 1))
  = 2%nat ∧
  settled (run [CallQueue 0; CallQueue 1; CallClear] (new_Limiter 1)) = ∅ ∧
  result size (run [CallQueue 0; CallQueue 1; CallClear] (new_Limiter 1))
  = Normal 1 ∧
  result size (run [CallQueue 0; CallQueue 1; CallClear] (new_Limiter 1))
  ≠ Normal
      (Z.of_nat
         (nextPromise
            (run [CallQueue 0; CallQueue 1; CallClear] (new_Limiter 1)))
       - Z.of_nat
           (base.size
              (settled
                 (run [CallQueue 0; CallQueue 1; CallClear]
                    (new_Limiter 1))))).
Proof. by vm_compute. Qed.

(** C7, amended.  On a limiter that has not been disposed, after any
    sequence of events, the getter [size] returns the number of queued
    entries plus the number of running tasks, the latter being both the
    counter [runningPromises] and the number of task promises in flight.
    This is the number of promises [queue] has handed out, minus the
    number of those that are settled, minus the number of those whose
    entry [clear] dropped from the queue; as long as [clear] was not
    called, nothing is dropped and it is the number of tasks submitted and
    not completed. *)
Theorem C7_size_is_queued_plus_running (N : Z) (es : list Event) :
  let w := run es (new_Limiter N) in
  _isDisposed (limiter w) = false →
  result size w
  = Normal (Z.of_nat (length (outstandingPromises (limiter w)))
            + Z.of_nat (length (inflight w))) ∧
  exec size w = w ∧
  runningPromises (limiter w) = Z.of_nat (length (inflight w)) ∧
  result size w
  = Normal (Z.of_nat (nextPromise w) - Z.of_nat (base.size (settled w))
            - Z.of_nat (length (dropped_promises w))) ∧
  (∀ k, k ∈ dropped_promises w ↔ dropped k w) ∧
  (CallClear ∉ es →
   dropped_promises w = [] ∧
   result size w
   = Normal (Z.of_nat (nextPromise w) - Z.of_nat (base.size (settled w)))).
Proof.
  intros w Hd. assert (HI : Inv0 N w) by apply (Inv_execution N es).
  pose proof (inv_running _ _ HI) as Hr. rewrite Hd in Hr.
  pose proof (inv_size _ _ HI Hd) as Hsize.
  pose proof (inv_count _ _ HI) as Hcount.
  pose proof (length_dropped_promises N w HI) as Hdrop.
  assert (Hord : length (order w)
                 = (length (started w)
                    + length (outstandingPromises (limiter w)))%nat).
  { unfold order, queued. by rewrite length_app, length_fmap. }
  unfold result. rewrite size_eq. cbn [fst].
  split_and!; [by rewrite Hsize, Hr|done..| | |].
  - f_equal. lia.
  - intros k. apply (elem_of_dropped_promises N w k HI).
  - intros Hclear.
    assert (Hlen : length (order w) = nextPromise w).
    { apply order_run_nodrop; [done| |done].
      intros Hin. apply (disposed_in_trace _ (new_Limiter N)) in Hin.
      fold w in Hin. congruence. }
    split; [|f_equal; lia].
    apply length_zero_iff_nil. lia.
Qed.

Lemma C7_size_is_queued_plus_running_witness :
  _isDisposed
    (limiter (run [CallQueue 0; CallQueue 1; CallQueue 2; CallClear]
                (new_Limiter 1))) = false ∧
  result size (run [CallQueue 0; CallQueue 1; CallQueue 2; CallClear]
                 (new_Limiter 1)) = Normal 1 ∧
  dropped_promises (run [CallQueue 0; CallQueue 1; CallQueue 2; CallClear]
                      (new_Limiter 1)) = [1; 2]%nat ∧
  result size (run [CallQueue 0; CallQueue 1; CallQueue 2; CallClear]
                 (new_Limiter 1))
  = Normal
      (Z.of_nat
         (nextPromise (run [CallQueue 0; CallQueue 1; CallQueue 2; CallClear]
                         (new_Limiter 1)))
       - Z.of_nat
           (base.size
              (settled (run [CallQueue 0; CallQueue 1; CallQueue 2; CallClear]
                          (new_Limiter 1))))
       - Z.of_nat
           (length
              (dropped_promises
                 (run [CallQueue 0; CallQueue 1; CallQueue 2; CallClear]
                    (new_Limiter 1))))).
Proof.
  split; [reflexivity|]. split; [reflexivity|]. split; [reflexivity|].
  destruct (C7_size_is_queued_plus_running 1
              [CallQueue 0; CallQueue 1; CallQueue 2; CallClear])
    as (_ & _ & _ & Hsize & _).
  - reflexivity.
  - exact Hsize.
Defined.

(** After [clear], the dropped entry is pending and counted no more. *)
Example size_after_clear :
  result size (run [CallQueue 0; CallQueue 1; CallClear] (new_Limiter 1))
  = Normal 1 ∧
  nextPromise (run [CallQueue 0; CallQueue 1; CallClear] (new_Limiter 1))
  = 2%nat ∧
  settled (run [CallQueue 0; CallQueue 1; CallClear] (new_Limiter 1)) = ∅.
Proof. by vm_compute. Qed.

(** C8. The emitter [_onDrained] never delivers an event: after any
    sequence of [queue], [clear] and [dispose] calls and task completions
    its count of delivered events is zero. *)
Theorem C8_onDrained_never_fires (N : Z) (es : list Event) :
  em_fired (_onDrained (limiter (run es (new_Limiter N)))) = 0%nat.
Proof.
  assert (HI : Inv0 N (run es (new_Limiter N)))
    by apply (Inv_execution N es).
  apply HI.
Qed.

(** Also when the size has been positive and is back at zero. *)
Example drained_without_event :
  _size (limiter (run [CallQueue 0] (new_Limiter 1))) = 1 ∧
  _size (limiter (run [CallQueue 0; Settles 0 (Resolved 1)] (new_Limiter 1)))
  = 0 ∧
  em_fired (_onDrained
    (limiter (run [CallQueue 0; Settles 0 (Resolved 1)] (new_Limiter 1))))
  = 0%nat.
Proof. by vm_compute. Qed.

(** C9. On a limiter on which [dispose] was called, whatever happened
    before and since, [clear] throws 'Object has been disposed' and changes
    nothing. *)
Theorem C9_clear_after_dispose_throws (N : Z) (es es' : list Event) :
  let w := run es' (exec dispose (run es (new_Limiter N))) in
  clear w = (Throw "Object has been disposed", w).
Proof. intros w. apply clear_disposed. by apply disposed_run. Qed.

(** C10. The constructor stores [maxDegreeOfParalellism] unchecked.  With
    a maximum that is zero or negative, after any sequence of events the
    running count is 0, no factory was ever called, no task is in flight
    and no promise is settled; [queue] on such a limiter, unless it was
    disposed, returns normally with a new promise, appends the entry to the
    queue and increments [size], and no later event settles that
    promise. *)
Theorem C10_nonpositive_max_starts_nothing
    (N : Z) (es : list Event) (f : ITask) :
  N ≤ 0 →
  let w := run es (new_Limiter N) in
  runningPromises (limiter w) = 0 ∧
  started w = [] ∧
  inflight w = [] ∧
  settled w = ∅ ∧
  (_isDisposed (limiter w) = false →
   result (queue f) w = Normal (nextPromise w) ∧
   outstandingPromises (limiter (exec (queue f) w))
   = outstandingPromises (limiter w) ++ [mkEntry f (nextPromise w)] ∧
   _size (limiter (exec (queue f) w)) = _size (limiter w) + 1 ∧
   ∀ es', settled (run es' (exec (queue f) w)) !! nextPromise w = None).
Proof.
  intros HN.
  assert (Hall : ∀ es0,
            let w0 := run es0 (new_Limiter N) in
            runningPromises (limiter w0) = 0 ∧ started w0 = [] ∧
            inflight w0 = [] ∧ settled w0 = ∅).
  { intros es0 w0.
    assert (HI : Inv0 N w0) by apply (Inv_execution N es0).
    pose proof (inv_nostart _ _ HI HN) as Hs.
    pose proof (inv_inflight _ _ HI) as Hsub. rewrite Hs in Hsub.
    apply sublist_nil_r in Hsub.
    pose proof (inv_bound _ _ HI). pose proof (Inv0_running_nonneg _ _ HI).
    split_and!; [lia|done..|].
    apply map_empty. intros k. destruct (settled w0 !! k) eqn:E; [|done].
    destruct (inv_settled _ _ HI k) as [Hk _]; [by rewrite E|].
    rewrite Hs in Hk. by apply elem_of_nil in Hk. }
  intros w. destruct (Hall es) as (Hr & Hs & Hi & Hm).
  split_and!; try done.
  intros Hd. unfold result, exec. rewrite queue_live by done. cbn [fst snd].
  assert (Hfull : consume (pushed f w) = pushed f w).
  { apply consume_full, may_start_false. right. cbn.
    assert (HI : Inv0 N w) by apply (Inv_execution N es).
    rewrite (inv_max _ _ HI). fold w in Hr. lia. }
  rewrite Hfull. split_and!; try done.
  intros es'.
  assert (Hq : step w (CallQueue f) = pushed f w).
  { cbn [step]. unfold exec. rewrite queue_live by done. by cbn [snd]. }
  destruct (Hall (es ++ CallQueue f :: es')) as (_ & _ & _ & Hm'').
  unfold run in Hm''. rewrite foldl_app in Hm''. cbn [foldl] in Hm''.
  fold (run es (new_Limiter N)) in Hm''. fold w in Hm''. rewrite Hq in Hm''.
  fold (run es' (pushed f w)) in Hm''. by rewrite Hm''.
Qed.

Lemma C10_nonpositive_max_starts_nothing_witness :
  0 ≤ 0 ∧
  runningPromises
    (limiter (run [CallQueue 5; CallQueue 6] (new_Limiter 0))) = 0 ∧
  started (run [CallQueue 5; CallQueue 6] (new_Limiter 0)) = [] ∧
  queued (run [CallQueue 5; CallQueue 6] (new_Limiter 0)) = [0; 1]%nat ∧
  _size (limiter (run [CallQueue 5; CallQueue 6] (new_Limiter 0))) = 2.
Proof.
  split; [lia|].
  destruct (C10_nonpositive_max_starts_nothing 0
              [CallQueue 5; CallQueue 6] 7%nat) as (Hr & Hs & _);
    [lia|].
  split; [exact Hr|]. split; [exact Hs|]. split; reflexivity.
Defined.

(* ===================================================================== *)
(** ** Further properties *)
(* ===================================================================== *)

(** X1. Between turns, a limiter that has not been disposed never holds a
    waiting entry while it has free capacity: its queue is empty or the
    running count has reached [maxDegreeOfParalellism]. *)
Theorem X1_no_idle_capacity (N : Z) (es : list Event) :
  let w := run es (new_Limiter N) in
  _isDisposed (limiter w) = false →
  outstandingPromises (limiter w) = [] ∨ N ≤ runningPromises (limiter w).
Proof.
  intros w Hd. destruct (Inv_execution N es) as [HI Hdr].
  fold w in HI, Hdr. rewrite <- (inv_max _ _ HI). by apply Hdr.
Qed.

Lemma X1_no_idle_capacity_witness :
  _isDisposed (limiter three_submitted) = false ∧
  queued three_submitted = [1; 2]%nat ∧
  (outstandingPromises (limiter three_submitted) = [] ∨
   1 ≤ runningPromises (limiter three_submitted)).
Proof.
  split; [reflexivity|]. split; [reflexivity|].
  apply (X1_no_idle_capacity 1 [CallQueue 0; CallQueue 1; CallQueue 2]).
  reflexivity.
Defined.

(** X2. On a limiter that has not been disposed, [queue] returns normally
    with a promise that was never handed out before and is pending, raises
    [size] by one, and leaves the new entry either started or at the end of
    the queue. *)
Theorem X2_queue_accepts (N : Z) (es : list Event) (f : ITask) :
  let w := run es (new_Limiter N) in
  _isDisposed (limiter w) = false →
  result (queue f) w = Normal (nextPromise w) ∧
  (nextPromise w ∉ order w) ∧
  settled (exec (queue f) w) !! nextPromise w = None ∧
  _size (limiter (exec (queue f) w)) = _size (limiter w) + 1 ∧
  (last (inflight (exec (queue f) w)) = Some (nextPromise w) ∨
   last (outstandingPromises (limiter (exec (queue f) w)))
   = Some (mkEntry f (nextPromise w))).
Proof.
  intros w Hd. destruct (Inv_execution N es) as [HI _]. fold w in HI.
  unfold result, exec. rewrite queue_live by done. cbn [fst snd].
  assert (Hfresh : nextPromise w ∉ order w).
  { intros Hin. pose proof (inv_fresh _ _ HI) as Hf.
    rewrite Forall_forall in Hf. specialize (Hf _ Hin). lia. }
  destruct (consume_spec (pushed f w))
    as (pre & rest & Hq & Hc & _ & _).
  rewrite Hc. cbn in Hq. split_and!; [done|done| |done|].
  - cbn. destruct (settled w !! nextPromise w) eqn:E; [exfalso|done].
    destruct (inv_settled _ _ HI (nextPromise w)) as [Hs _]; [by rewrite E|].
    apply Hfresh, elem_of_app. by left.
  - cbn. destruct rest as [|r rest _] using rev_ind.
    + left. rewrite app_nil_r in Hq. rewrite <- Hq, fmap_app, app_assoc.
      apply last_snoc.
    + right. rewrite app_assoc in Hq. apply app_inj_tail in Hq as [_ <-].
      apply last_snoc.
Qed.

Lemma X2_queue_accepts_witness :
  _isDisposed (limiter three_submitted) = false ∧
  result (queue 9) three_submitted = Normal 3%nat ∧
  _size (limiter (exec (queue 9) three_submitted)) = 3 + 1.
Proof.
  split; [reflexivity|].
  destruct (X2_queue_accepts 1 [CallQueue 0; CallQueue 1; CallQueue 2] 9%nat)
    as (Hres & _ & _ & Hsize & _).
  - reflexivity.
  - split; [exact Hres|exact Hsize].
Defined.

(* ===================================================================== *)
(** ** Hand-over of a freed slot *)
(* ===================================================================== *)

Lemma live_full_of_waiting N w t rest :
  Inv N w → _isDisposed (limiter w) = false →
  outstandingPromises (limiter w) = t :: rest →
  inflight w ≠ [] →
  runningPromises (limiter w) = N ∧ 1 ≤ N.
Proof.
  intros [HI Hdr] Hd Hq Hne.
  pose proof (inv_running _ _ HI) as Hr. rewrite Hd in Hr.
  pose proof (inv_bound _ _ HI) as Hb.
  pose proof (inv_max _ _ HI) as Hm.
  destruct (Hdr Hd) as [Hnil|Hfull]; [congruence|].
  destruct (inflight w); [done|]. cbn [length] in Hr. lia.
Qed.

(** X3. When a task in flight completes on a limiter that has not been
    disposed, [size] drops by one.  If nothing is waiting, the slot is
    freed: the running count drops by one and nothing is started.  If
    entries are waiting, the limiter was full, the slot goes to the head of
    the queue and to no other entry: exactly that entry is started and the
    running count is the maximum again. *)
Theorem X3_completion_starts_the_head
    (N : Z) (es : list Event) (k : PromiseId) (o : Outcome) :
  let w := run es (new_Limiter N) in
  let w' := step w (Settles k o) in
  _isDisposed (limiter w) = false →
  k ∈ inflight w →
  _size (limiter w') = _size (limiter w) - 1 ∧
  match outstandingPromises (limiter w) with
  | [] =>
      outstandingPromises (limiter w') = [] ∧
      inflight w' = filter (λ j, j ≠ k) (inflight w) ∧
      started w' = started w ∧
      runningPromises (limiter w') = runningPromises (limiter w) - 1
  | t :: rest =>
      outstandingPromises (limiter w') = rest ∧
      inflight w' = filter (λ j, j ≠ k) (inflight w) ++ [future t] ∧
      started w' = started w ++ [future t] ∧
      runningPromises (limiter w') = runningPromises (limiter w) ∧
      runningPromises (limiter w) = N
  end.
Proof.
  intros w w' Hd Hk. pose proof (Inv_execution N es) as HI. fold w in HI.
  pose proof HI as [HI0 _].
  assert (Hstep : w' = consume (released (settle k o (land k w)))).
  { unfold w'. cbn [step]. rewrite bool_decide_eq_true_2 by done.
    unfold task_settles. apply consumed_live. by rewrite limiter_settle. }
  rewrite Hstep, (landed_eq N) by done.
  set (x := released (with_settled (<[k:=o]> (settled w)) (land k w))).
  destruct (outstandingPromises (limiter w)) as [|t rest] eqn:Hq.
  - rewrite consume_nil by done. done.
  - destruct (live_full_of_waiting N w t rest HI Hd Hq) as [Hr HN].
    { intros Hnil. rewrite Hnil in Hk. by apply elem_of_nil in Hk. }
    pose proof (inv_max _ _ HI0) as Hm.
    rewrite consume_unfold.
    assert (Hgo : may_start (limiter x) = true).
    { apply may_start_true. cbn. rewrite Hq. split; [done|lia]. }
    rewrite Hgo.
    assert (Hstop : may_start (limiter (consume_body x)) = false).
    { apply may_start_false. right. unfold consume_body. cbn. rewrite Hq.
      cbn. lia. }
    rewrite (consume_full _ Hstop). unfold consume_body. cbn. rewrite Hq. cbn.
    split_and!; try done; lia.
Qed.

Lemma X3_completion_starts_the_head_witness :
  _isDisposed (limiter three_submitted) = false ∧
  inflight three_submitted = [0%nat] ∧
  queued three_submitted = [1; 2]%nat ∧
  queued (step three_submitted (Settles 0 (Rejected 7))) = [2%nat] ∧
  inflight (step three_submitted (Settles 0 (Rejected 7))) = [1%nat] ∧
  _size (limiter (step three_submitted (Settles 0 (Rejected 7))))
  = _size (limiter three_submitted) - 1.
Proof.
  split; [reflexivity|]. split; [reflexivity|]. split; [reflexivity|].
  split; [reflexivity|]. split; [reflexivity|].
  apply (X3_completion_starts_the_head 1
           [CallQueue 0; CallQueue 1; CallQueue 2] 0%nat (Rejected 7)).
  - reflexivity.
  - vm_compute. repeat constructor.
Defined.

(** X4. On a limiter that has not been disposed, [queue] starts the new
    task at once exactly when the running count is below the maximum: the
    queue is then empty before and after, and the task is the last in
    flight.  Otherwise the entry goes to the end of the queue and nothing
    is started. *)
Theorem X4_queue_starts_iff_capacity
    (N : Z) (es : list Event) (f : ITask) :
  let w := run es (new_Limiter N) in
  let w' := exec (queue f) w in
  _isDisposed (limiter w) = false →
  if bool_decide (runningPromises (limiter w) < N)
  then outstandingPromises (limiter w) = [] ∧
       outstandingPromises (limiter w') = [] ∧
       inflight w' = inflight w ++ [nextPromise w] ∧
       started w' = started w ++ [nextPromise w] ∧
       runningPromises (limiter w') = runningPromises (limiter w) + 1
  else outstandingPromises (limiter w')
       = outstandingPromises (limiter w) ++ [mkEntry f (nextPromise w)] ∧
       inflight w' = inflight w ∧
       started w' = started w ∧
       runningPromises (limiter w') = runningPromises (limiter w).
Proof.
  intros w w' Hd. destruct (Inv_execution N es) as [HI Hdr].
  fold w in HI, Hdr. pose proof (inv_max _ _ HI) as Hm.
  unfold w', exec. rewrite queue_live by done. cbn [snd].
  case_bool_decide as Hlt.
  - destruct (Hdr Hd) as [Hnil|Hfull]; [|lia].
    rewrite consume_unfold.
    assert (Hgo : may_start (limiter (pushed f w)) = true).
    { apply may_start_true. cbn. rewrite Hnil. split; [done|lia]. }
    rewrite Hgo.
    assert (Hstop : may_start (limiter (consume_body (pushed f w))) = false).
    { apply may_start_false. left. unfold consume_body. cbn.
      by rewrite Hnil. }
    rewrite (consume_full _ Hstop). unfold consume_body. cbn.
    rewrite Hnil. cbn. done.
  - rewrite consume_full; [done|].
    apply may_start_false. right. cbn. lia.
Qed.

Lemma X4_queue_starts_iff_capacity_witness :
  _isDisposed (limiter two_of_three_running) = false ∧
  runningPromises (limiter two_of_three_running) = 2 ∧
  queued (exec (queue 9) two_of_three_running) = [3%nat] ∧
  inflight (exec (queue 9) two_of_three_running)
  = inflight two_of_three_running.
Proof.
  split; [reflexivity|]. split; [reflexivity|]. split; [reflexivity|].
  pose proof (X4_queue_starts_iff_capacity 2
                [CallQueue 0; CallQueue 1; CallQueue 2;
                 Settles 1 (Rejected 4)] 9%nat eq_refl) as H.
  rewrite bool_decide_eq_false_2 in H by (vm_compute; discriminate).
  apply H.
Defined.

(** X5. After [dispose], the getter [size] returns 0 whatever happens
    next, also while tasks started before are still in flight. *)
Theorem X5_size_is_zero_once_disposed (N : Z) (es es' : list Event) :
  result size (run es' (exec dispose (run es (new_Limiter N)))) = Normal 0.
Proof.
  set (w := run es' (exec dispose (run es (new_Limiter N)))).
  assert (HI : Inv N w).
  { apply Inv_run. unfold exec. rewrite dispose_eq.
    apply Inv_disposed, Inv_execution. }
  assert (Hd : _isDisposed (limiter w) = true) by by apply disposed_run.
  destruct HI as [HI _].
  destruct (inv_disposed _ _ HI Hd) as (_ & _ & Hsize).
  unfold result. rewrite size_eq. cbn [fst]. by rewrite Hsize.
Qed.

(** A disposed limiter reports size 0 with a task still running. *)
Example size_zero_with_task_running :
  inflight disposed_while_running = [0%nat] ∧
  result size disposed_while_running = Normal 0.
Proof. by vm_compute. Qed.

(** X6. A limiter with a maximum of at least 1 that has not been disposed
    cannot be stuck: whenever its size is not zero, some task is in
    flight, so a completion is possible. *)
Theorem X6_pending_work_means_running_task (N : Z) (es : list Event) :
  let w := run es (new_Limiter N) in
  1 ≤ N →
  _isDisposed (limiter w) = false →
  _size (limiter w) ≠ 0 →
  inflight w ≠ [].
Proof.
  intros w HN Hd Hsize Hnil. destruct (Inv_execution N es) as [HI Hdr].
  fold w in HI, Hdr. apply Hsize.
  pose proof (inv_running _ _ HI) as Hr. rewrite Hd, Hnil in Hr.
  pose proof (inv_max _ _ HI) as Hm.
  rewrite (inv_size _ _ HI Hd), Hr.
  destruct (Hdr Hd) as [->|Hfull]; [done|]. cbn in Hr. lia.
Qed.

Lemma X6_pending_work_means_running_task_witness :
  1 ≤ 1 ∧
  _isDisposed (limiter three_submitted) = false ∧
  _size (limiter three_submitted) = 3 ∧
  inflight three_submitted ≠ [].
Proof.
  split; [lia|]. split; [reflexivity|]. split; [reflexivity|].
  apply (X6_pending_work_means_running_task 1
           [CallQueue 0; CallQueue 1; CallQueue 2]).
  - lia.
  - reflexivity.
  - vm_compute. discriminate.
Defined.

(* ===================================================================== *)
(** ** Draining by completions *)
(* ===================================================================== *)

Lemma landed_are_settled_advance pre rest w :
  landed_are_settled w → landed_are_settled (advance pre rest w).
Proof.
  intros Hw k. cbn. rewrite !elem_of_app. intros [Hs|Hp] Hni.
  - apply Hw; [done|]. intros ?. apply Hni. by left.
  - exfalso. apply Hni. by right.
Qed.

Lemma landed_are_settled_consume w :
  landed_are_settled w → landed_are_settled (consume w).
Proof.
  intros Hw. destruct (consume_spec w) as (pre & rest & _ & -> & _).
  by apply landed_are_settled_advance.
Qed.

Lemma landed_are_settled_landed k o w :
  landed_are_settled w →
  landed_are_settled (with_settled (<[k := o]> (settled w)) (land k w)).
Proof.
  intros Hw j. cbn. rewrite list_elem_of_filter. intros Hs Hni.
  destruct (decide (k = j)) as [->|Hne].
  - rewrite lookup_insert_eq. by eexists.
  - rewrite lookup_insert_ne by done. apply Hw; [done|].
    intros Hin. apply Hni. split; [congruence|done].
Qed.

Lemma landed_are_settled_turn N w w' :
  Inv N w → turn w w' → landed_are_settled w → landed_are_settled w'.
Proof.
  intros [HI _] Hturn Hw.
  destruct Hturn as [|f Hd|Hd| |k o Hk Hd|k o Hk Hd]; try done.
  - by apply landed_are_settled_consume.
  - apply landed_are_settled_consume. rewrite (landed_eq N) by done.
    by apply (landed_are_settled_landed k o w).
  - rewrite (landed_eq N) by done. by apply landed_are_settled_landed.
Qed.

Lemma landed_are_settled_run N es w :
  Inv N w → landed_are_settled w → landed_are_settled (run es w).
Proof.
  revert w. induction es as [|ev es IH]; intros w HI Hw; [done|].
  cbn. apply IH; [by apply Inv_step|].
  eapply landed_are_settled_turn; [done|apply step_turn|done].
Qed.

Lemma landed_are_settled_execution N es :
  landed_are_settled (run es (new_Limiter N)).
Proof.
  apply (landed_are_settled_run N); [apply Inv_new|].
  intros k Hk. by apply elem_of_nil in Hk.
Qed.

(** One completion on a live limiter: the size drops by one, the limiter
    stays live, and the same promises are started or queued. *)
Lemma completion_live N w k o :
  Inv N w → _isDisposed (limiter w) = false → k ∈ inflight w →
  _size (limiter (step w (Settles k o))) = _size (limiter w) - 1 ∧
  _isDisposed (limiter (step w (Settles k o))) = false ∧
  order (step w (Settles k o)) = order w.
Proof.
  intros [HI _] Hd Hk. cbn [step]. rewrite bool_decide_eq_true_2 by done.
  unfold task_settles. rewrite consumed_live by by rewrite limiter_settle.
  rewrite (landed_eq N) by done.
  set (x := released (with_settled (<[k:=o]> (settled w)) (land k w))).
  destruct (consume_spec x) as (pre & rest & Hq & -> & _).
  split_and!; [done|done|]. by rewrite order_advance.
Qed.

(** X7. On a limiter that has not been disposed, every sequence of
    completions of tasks in flight lowers [size] by its length.  When as
    many tasks have completed as the size was, the queue is empty, nothing
    is in flight, the tasks that were waiting have all been started, in
    queue order, and the promise returned for every task that was running
    or waiting is settled. *)
Theorem X7_completions_drain_the_limiter
    (N : Z) (es cs : list Event) :
  let w := run es (new_Limiter N) in
  _isDisposed (limiter w) = false →
  completions cs w = true →
  _size (limiter (run cs w)) = _size (limiter w) - Z.of_nat (length cs) ∧
  (Z.of_nat (length cs) = _size (limiter w) →
   outstandingPromises (limiter (run cs w)) = [] ∧
   inflight (run cs w) = [] ∧
   started (run cs w) = order w ∧
   ∀ k, k ∈ order w → is_Some (settled (run cs w) !! k)).
Proof.
  intros w Hd Hcs.
  assert (HI : Inv N w) by apply Inv_execution.
  assert (Hgen : ∀ cs v, Inv N v → _isDisposed (limiter v) = false →
            completions cs v = true →
            _size (limiter (run cs v)) = _size (limiter v) - Z.of_nat (length cs) ∧
            _isDisposed (limiter (run cs v)) = false ∧
            order (run cs v) = order v).
  { clear. intros cs. induction cs as [|c cs IH]; intros v HI Hd Hcs.
    - cbn. split_and!; [lia|done..].
    - destruct c as [| | |k o]; try done. cbn [completions] in Hcs.
      apply andb_true_iff in Hcs as [Hk%bool_decide_eq_true Hcs].
      destruct (completion_live N v k o HI Hd Hk) as (Hs & Hd' & Ho).
      destruct (IH _ (Inv_step N v _ HI) Hd' Hcs) as (Hs2 & Hd2 & Ho2).
      cbn [run foldl length]. fold (run cs (step v (Settles k o))).
      split_and!; [lia|done|congruence]. }
  destruct (Hgen cs w HI Hd Hcs) as (Hsize & Hd' & Hord).
  split; [done|]. intros Hlen.
  pose proof (Inv_run N cs w HI) as [HI' _].
  pose proof (inv_size _ _ HI' Hd') as Hs.
  pose proof (inv_running _ _ HI') as Hr. rewrite Hd' in Hr.
  assert (Hq : outstandingPromises (limiter (run cs w)) = []).
  { destruct (outstandingPromises (limiter (run cs w))); [done|].
    cbn [length] in Hs. lia. }
  assert (Hfl : inflight (run cs w) = []).
  { destruct (inflight (run cs w)); [done|].
    rewrite Hq in Hs. cbn [length] in Hs, Hr. lia. }
  assert (Hst : started (run cs w) = order w).
  { rewrite <- Hord. unfold order, queued. by rewrite Hq, app_nil_r. }
  split_and!; [done..|].
  intros k Hk.
  apply (landed_are_settled_run N cs w HI (landed_are_settled_execution N es)).
  - by rewrite Hst.
  - rewrite Hfl. apply not_elem_of_nil.
Qed.

Lemma X7_completions_drain_the_limiter_witness :
  _isDisposed (limiter three_submitted) = false ∧
  completions [Settles 0 (Resolved 1); Settles 1 (Rejected 2);
               Settles 2 (Resolved 3)] three_submitted = true ∧
  _size (limiter three_submitted) = 3 ∧
  _size (limiter (run [Settles 0 (Resolved 1); Settles 1 (Rejected 2);
                       Settles 2 (Resolved 3)] three_submitted))
  = _size (limiter three_submitted) - Z.of_nat 3.
Proof.
  split; [reflexivity|]. split; [reflexivity|]. split; [reflexivity|].
  apply (X7_completions_drain_the_limiter 1
           [CallQueue 0; CallQueue 1; CallQueue 2]
           [Settles 0 (Resolved 1); Settles 1 (Rejected 2);
            Settles 2 (Resolved 3)]).
  - reflexivity.
  - reflexivity.
Defined.
(* ===================================================================== *)
(** ** Splitting into lines *)
(* ===================================================================== *)

(** Induction on a string that may step over one or two code units. *)
Lemma string_ind2 (P : JSString → Prop) :
  P [] →
  (∀ c s, P s → (∀ d s', s = d :: s' → P s') → P (c :: s)) →
  ∀ s, P s.
Proof.
  intros Hnil Hcons s.
  assert (H : P s ∧ ∀ d s', s = d :: s' → P s').
  { induction s as [|c s [IH1 IH2]]; [by split|].
    split; [by apply Hcons|]. intros d s' [= <- <-]. done. }
  apply H.
Qed.

Lemma split_newlines_cons_inv s : ∃ l ls, split_newlines s = l :: ls.
Proof.
  destruct s as [|c s']; cbn; [by eexists _, _|].
  destruct (c =? CR)%N.
  - destruct s' as [|d s'']; [by eexists _, _|].
    destruct (d =? LF)%N; by eexists _, _.
  - destruct (c =? LF)%N; [by eexists _, _|].
    destruct (split_newlines s'); by eexists _, _.
Qed.

Lemma split_LF_cons_inv s : ∃ l ls, split_LF s = l :: ls.
Proof.
  destruct s as [|c s']; cbn; [by eexists _, _|].
  destruct (c =? LF)%N; [by eexists _, _|].
  destruct (split_LF s'); by eexists _, _.
Qed.

(** The unfolding equations, one per alternative of the regular
    expression. *)
Lemma split_newlines_CRLF s :
  split_newlines (CR :: LF :: s) = [] :: split_newlines s.
Proof. done. Qed.

Lemma split_newlines_CR s :
  (∀ s', s ≠ LF :: s') →
  split_newlines (CR :: s) = [] :: split_newlines s.
Proof.
  intros Hs. cbn. destruct s as [|d s'']; [done|].
  destruct (N.eqb_spec d LF) as [->|]; [by destruct (Hs s'')|done].
Qed.

Lemma split_newlines_LF s :
  split_newlines (LF :: s) = [] :: split_newlines s.
Proof. done. Qed.

Lemma split_newlines_other c s l ls :
  ¬ is_newline c → split_newlines s = l :: ls →
  split_newlines (c :: s) = (c :: l) :: ls.
Proof.
  intros Hc Hs. cbn.
  destruct (N.eqb_spec c CR) as [->|]; [destruct Hc; by left|].
  destruct (N.eqb_spec c LF) as [->|]; [destruct Hc; by right|].
  by rewrite Hs.
Qed.

Lemma split_LF_LF s : split_LF (LF :: s) = [] :: split_LF s.
Proof. done. Qed.

Lemma split_LF_other c s l ls :
  c ≠ LF → split_LF s = l :: ls → split_LF (c :: s) = (c :: l) :: ls.
Proof.
  intros Hc Hs. cbn. destruct (N.eqb_spec c LF) as [->|]; [done|].
  by rewrite Hs.
Qed.

(** Case analysis on the head of a string, as the regular expression
    sees it. *)
Lemma string_head_cases (c : CodeUnit) (s : JSString) :
  (c = CR ∧ ∃ s', s = LF :: s') ∨
  (c = CR ∧ ∀ s', s ≠ LF :: s') ∨
  c = LF ∨
  ¬ is_newline c.
Proof.
  destruct (N.eqb_spec c CR) as [->|Hcr].
  - destruct s as [|d s']; [right; left; by split|].
    destruct (N.eqb_spec d LF) as [->|Hd].
    + left. split; [done|by eexists].
    + right; left. split; [done|]. intros s'' [= ? ?]. done.
  - destruct (N.eqb_spec c LF) as [->|Hlf]; [by right; right; left|].
    right; right; right. by intros [?|?].
Qed.

(** No piece contains a line terminator. *)
Lemma split_newlines_pieces s :
  Forall (Forall (λ c, ¬ is_newline c)) (split_newlines s).
Proof.
  induction s as [|c s IH IH2] using string_ind2; [by repeat constructor|].
  destruct (string_head_cases c s) as [[-> [s' ->]]|[[-> Hs]|[->|Hc]]].
  - rewrite split_newlines_CRLF. constructor; [done|]. by eapply IH2.
  - rewrite split_newlines_CR by done. by constructor.
  - rewrite split_newlines_LF. by constructor.
  - destruct (split_newlines_cons_inv s) as (l & ls & Hs).
    rewrite (split_newlines_other c s l ls) by done.
    rewrite Hs in IH. apply Forall_cons in IH as [Hl Hls].
    constructor; [by constructor|done].
Qed.

Lemma split_LF_pieces s : Forall (Forall (λ c, c ≠ LF)) (split_LF s).
Proof.
  induction s as [|c s IH]; [by repeat constructor|].
  destruct (decide (c = LF)) as [->|Hc].
  - rewrite split_LF_LF. by constructor.
  - destruct (split_LF_cons_inv s) as (l & ls & Hs).
    rewrite (split_LF_other c s l ls) by done.
    rewrite Hs in IH. apply Forall_cons in IH as [Hl Hls].
    constructor; [by constructor|done].
Qed.

(** A string without terminators is one piece. *)
Lemma split_newlines_one s :
  Forall (λ c, ¬ is_newline c) s → split_newlines s = [s].
Proof.
  induction 1 as [|c s Hc _ IH]; [done|].
  by apply split_newlines_other.
Qed.

Lemma split_LF_one s : Forall (λ c, c ≠ LF) s → split_LF s = [s].
Proof.
  induction 1 as [|c s Hc _ IH]; [done|]. by apply split_LF_other.
Qed.

(** Without carriage returns the two ways of splitting agree. *)
Lemma split_newlines_no_CR s :
  Forall (λ c, c ≠ CR) s → split_newlines s = split_LF s.
Proof.
  induction 1 as [|c s Hc _ IH]; [done|].
  destruct (decide (c = LF)) as [->|Hlf].
  - by rewrite split_newlines_LF, split_LF_LF, IH.
  - destruct (split_LF_cons_inv s) as (l & ls & Hs).
    rewrite (split_LF_other c s l ls) by done.
    apply split_newlines_other; [by intros [?|?]|by rewrite IH].
Qed.

(** Splitting at line feeds alone never gives more pieces. *)
Lemma split_LF_fewer s :
  (length (split_LF s) ≤ length (split_newlines s))%nat.
Proof.
  induction s as [|c s IH IH2] using string_ind2; [done|].
  destruct (string_head_cases c s) as [[-> [s' ->]]|[[-> Hs]|[->|Hc]]].
  - rewrite split_newlines_CRLF.
    destruct (split_LF_cons_inv s') as (l & ls & Hs).
    rewrite (split_LF_other CR (LF :: s') [] (l :: ls)); [|done|].
    + specialize (IH2 _ _ eq_refl). rewrite Hs in IH2. cbn in *. lia.
    + by rewrite split_LF_LF, Hs.
  - rewrite split_newlines_CR by done.
    destruct (split_LF_cons_inv s) as (l & ls & Hl).
    rewrite (split_LF_other CR s l ls) by done.
    rewrite Hl in IH. cbn in *. lia.
  - rewrite split_newlines_LF, split_LF_LF. cbn. lia.
  - destruct (split_newlines_cons_inv s) as (l & ls & Hs).
    destruct (split_LF_cons_inv s) as (l' & ls' & Hs').
    rewrite (split_newlines_other c s l ls) by done.
    rewrite (split_LF_other c s l' ls'); [|intros ->; apply Hc; by right|done].
    rewrite Hs, Hs' in IH. done.
Qed.

(** Joining the pieces with line feeds gives the string back, and
    splitting a joined list gives the list back. *)
Lemma join_split_LF s : join_LF (split_LF s) = s.
Proof.
  induction s as [|c s IH]; [done|].
  destruct (decide (c = LF)) as [->|Hc].
  - rewrite split_LF_LF.
    destruct (split_LF_cons_inv s) as (l & ls & Hs).
    rewrite Hs in *. cbn [join_LF]. cbn. by rewrite <- IH.
  - destruct (split_LF_cons_inv s) as (l & ls & Hs).
    rewrite (split_LF_other c s l ls) by done.
    rewrite Hs in IH. destruct ls; cbn in *; by rewrite <- IH.
Qed.

Lemma split_LF_app_LF l s :
  Forall (λ c, c ≠ LF) l → split_LF (l ++ LF :: s) = l :: split_LF s.
Proof.
  induction 1 as [|c l Hc _ IH]; [done|].
  cbn [app]. by apply split_LF_other.
Qed.

Lemma split_join_LF ls :
  ls ≠ [] → Forall (Forall (λ c, c ≠ LF)) ls → split_LF (join_LF ls) = ls.
Proof.
  intros Hne Hls. induction Hls as [|l ls Hl Hls IH]; [done|].
  destruct ls as [|l' ls'].
  - by apply split_LF_one.
  - cbn [join_LF]. rewrite split_LF_app_LF by done.
    f_equal. by apply IH.
Qed.

(** The number of pieces is one more than the number of line feeds. *)
Lemma length_split_LF s :
  length (split_LF s) = S (length (filter (λ c, c = LF) s)).
Proof.
  induction s as [|c s IH]; [done|].
  destruct (decide (c = LF)) as [->|Hc].
  - rewrite split_LF_LF, filter_cons_True by done. cbn. by rewrite IH.
  - destruct (split_LF_cons_inv s) as (l & ls & Hs).
    rewrite (split_LF_other c s l ls), filter_cons_False by done.
    by rewrite <- IH, Hs.
Qed.

(** The last piece is what follows the last terminator. *)
Lemma split_newlines_two pre c tail :
  is_newline c → ∃ l1 l2 ls, split_newlines (pre ++ c :: tail) = l1 :: l2 :: ls.
Proof.
  intros Hc. induction pre as [|x pre IH IH2] using string_ind2.
  - cbn [app]. destruct (split_newlines_cons_inv tail) as (l & ls & Ht).
    destruct (string_head_cases c tail) as [[-> [s' ->]]|[[-> Hs]|[->|Hn]]].
    + rewrite split_newlines_CRLF.
      destruct (split_newlines_cons_inv s') as (l' & ls' & ->).
      by eexists _, _, _.
    + rewrite split_newlines_CR, Ht by done. by eexists _, _, _.
    + rewrite split_newlines_LF, Ht. by eexists _, _, _.
    + done.
  - cbn [app]. destruct IH as (l1 & l2 & ls & Hs).
    destruct (string_head_cases x (pre ++ c :: tail))
      as [[-> [s' Hs']]|[[-> Hs']|[->|Hn]]].
    + rewrite Hs', split_newlines_CRLF.
      destruct pre as [|d pre'].
      * cbn [app] in Hs'. injection Hs' as -> <-.
        destruct (split_newlines_cons_inv tail) as (l & ls0 & ->).
        by eexists _, _, _.
      * cbn [app] in Hs'. injection Hs' as -> <-.
        destruct (IH2 _ _ eq_refl) as (? & ? & ? & ->). by eexists _, _, _.
    + rewrite split_newlines_CR, Hs by done. by eexists _, _, _.
    + rewrite split_newlines_LF, Hs. by eexists _, _, _.
    + rewrite (split_newlines_other x _ l1 (l2 :: ls)) by done.
      by eexists _, _, _.
Qed.

Lemma last_split_newlines pre c tail :
  is_newline c → Forall (λ c, ¬ is_newline c) tail →
  List.last (split_newlines (pre ++ c :: tail)) [] = tail.
Proof.
  intros Hc Htail. induction pre as [|x pre IH IH2] using string_ind2.
  - cbn [app].
    assert (Hnl : ∀ s', tail ≠ LF :: s').
    { intros s' ->. apply Forall_cons in Htail as [Hlf _].
      apply Hlf. by right. }
    destruct Hc as [->| ->].
    + by rewrite split_newlines_CR, split_newlines_one.
    + by rewrite split_newlines_LF, split_newlines_one.
  - cbn [app].
    destruct (string_head_cases x (pre ++ c :: tail))
      as [[-> [s' Hs']]|[[-> Hs']|[->|Hn]]].
    + rewrite Hs', split_newlines_CRLF.
      destruct (split_newlines_cons_inv s') as (l & ls & Hl).
      rewrite Hl.
      change (List.last ([] :: l :: ls) []) with (List.last (l :: ls) []).
      rewrite <- Hl.
      destruct pre as [|d pre'].
      * cbn [app] in Hs'. injection Hs' as -> <-.
        by rewrite split_newlines_one.
      * cbn [app] in Hs'. injection Hs' as -> <-. by apply (IH2 _ _ eq_refl).
    + rewrite split_newlines_CR by done.
      destruct (split_newlines_cons_inv (pre ++ c :: tail)) as (l & ls & Hl).
      rewrite Hl in IH |- *. exact IH.
    + rewrite split_newlines_LF.
      destruct (split_newlines_cons_inv (pre ++ c :: tail)) as (l & ls & Hl).
      rewrite Hl in IH |- *. exact IH.
    + destruct (split_newlines_two pre c tail Hc) as (l1 & l2 & ls & Hl).
      rewrite (split_newlines_other x _ l1 (l2 :: ls)) by done.
      rewrite Hl in IH. done.
Qed.
(* ===================================================================== *)
(** ** The reported range and the streamed lines *)
(* ===================================================================== *)

Lemma double_of_exact (n : N) : (n ≤ 2 ^ 53)%N → double_of n = n.
Proof.
  intros Hn. unfold double_of.
  by rewrite (proj2 (N.leb_le n (2 ^ 53)%N) Hn).
Qed.

Lemma double_add_exact (a b : N) :
  (a + b ≤ 2 ^ 53)%N → double_add a b = (a + b)%N.
Proof. apply double_of_exact. Qed.

(** Above 2^53 a sum is rounded, to the even significand when it lies
    half way; the last sum is the largest double plus 2^52. *)
Example double_of_rounds_to_even :
  double_of (2 ^ 53 + 1) = (2 ^ 53)%N ∧
  double_of (2 ^ 53 + 2) = (2 ^ 53 + 2)%N ∧
  double_of (2 ^ 53 + 3) = (2 ^ 53 + 4)%N ∧
  double_of (2 ^ 54 + 2) = (2 ^ 54)%N ∧
  double_of (2 ^ 54 + 6) = (2 ^ 54 + 8)%N ∧
  double_of (2 ^ 54 - 1) = (2 ^ 54)%N ∧
  double_of (2 ^ 1024 - 2 ^ 971 + 2 ^ 52) = (2 ^ 1024 - 2 ^ 971)%N.
Proof. by vm_compute. Qed.

(** X8. As long as the start line of the selection plus the number of
    pieces of the replacement is at most 2^53, so that the sum the code
    computes is exact: the range [applyEdits] and [applyEditsDirectly]
    report starts at the start of the selection, with byte offsets 0, and
    ends below the line it starts on, also for an empty replacement.  For
    a replacement without carriage returns the end line is the start line
    plus one plus the number of line feeds. *)
Theorem X8_newRange_end_line (sp : Position) (text : JSString) :
  (line sp + N.of_nat (length (split_newlines text)) ≤ 2 ^ 53)%N →
  line (startPosition (newRange sp text)) = line sp ∧
  character (startPosition (newRange sp text)) = character sp ∧
  byteOffset (startPosition (newRange sp text)) = 0%N ∧
  byteOffset (endPosition (newRange sp text)) = 0%N ∧
  (line sp < line (endPosition (newRange sp text)))%N ∧
  (Forall (λ c, c ≠ CR) text →
   line (endPosition (newRange sp text))
   = (line sp + 1 + N.of_nat (length (filter (λ c, c = LF) text)))%N).
Proof.
  intros Hsafe.
  assert (Hend : line (endPosition (newRange sp text))
                 = (line sp + N.of_nat (length (split_newlines text)))%N).
  { cbn [newRange endPosition line]. by apply double_add_exact. }
  rewrite Hend. split_and!; try done.
  - destruct (split_newlines_cons_inv text) as (l & ls & ->).
    cbn [length]. lia.
  - intros Hcr. rewrite split_newlines_no_CR, length_split_LF by done.
    lia.
Qed.

Lemma X8_newRange_end_line_witness :
  (line {| line := 3; character := 2; byteOffset := 7 |}
   + N.of_nat (length (split_newlines [97; 10; 98]%N)) ≤ 2 ^ 53)%N ∧
  (line {| line := 3; character := 2; byteOffset := 7 |}
   < line (endPosition
             (newRange {| line := 3; character := 2; byteOffset := 7 |}
                [97; 10; 98]%N)))%N.
Proof.
  assert (Hsafe :
    (line {| line := 3; character := 2; byteOffset := 7 |}
     + N.of_nat (length (split_newlines [97; 10; 98]%N)) ≤ 2 ^ 53)%N)
    by (vm_compute; discriminate).
  split; [exact Hsafe|].
  apply (X8_newRange_end_line _ _ Hsafe).
Defined.

(** At the start line 2^53 the sum is rounded back to the start line: the
    reported range ends on the line it starts on. *)
Example newRange_beyond_exact_sums :
  line (endPosition
          (newRange {| line := 2 ^ 53; character := 0; byteOffset := 0 |}
             [])) = (2 ^ 53)%N.
Proof. by vm_compute. Qed.

(** X9. The end column of the reported range is the number of code units
    after the last line terminator of the replacement (carriage return,
    line feed, or the two in a row), and the length of the replacement
    when it has none; it never depends on the start column. *)
Theorem X9_newRange_end_column
    (sp : Position) (text pre tail : JSString) :
  text = pre ++ tail →
  Forall (λ c, ¬ is_newline c) tail →
  (pre = [] ∨ ∃ p c, pre = p ++ [c] ∧ is_newline c) →
  character (endPosition (newRange sp text)) = N.of_nat (length tail).
Proof.
  intros -> Htail Hpre. cbn.
  destruct (split_newlines_cons_inv (pre ++ tail)) as (l & ls & Hs).
  rewrite Hs. cbn [length]. rewrite <- Hs.
  replace (0 <? N.of_nat (S (length ls)))%N with true
    by (symmetry; apply N.ltb_lt; lia).
  f_equal. f_equal.
  destruct Hpre as [->|(p & c & -> & Hc)].
  - cbn [app]. by rewrite split_newlines_one.
  - rewrite <- app_assoc. cbn [app]. by apply last_split_newlines.
Qed.

Lemma number_lines_lookup start idx ls i :
  (start + idx + N.of_nat (length ls) ≤ 2 ^ 53)%N →
  number_lines start idx ls !! i
  = (λ c, {| tl_line := (start + idx + N.of_nat i)%N; content := c |})
      <$> ls !! i.
Proof.
  revert idx i. induction ls as [|l ls IH]; intros idx i Hsafe; [done|].
  cbn [length] in Hsafe. cbn [number_lines].
  assert (Hidx : double_add idx 1 = (idx + 1)%N)
    by (apply double_add_exact; lia).
  assert (Hline : double_sub (double_add start (idx + 1)) 1
                  = (start + idx)%N).
  { rewrite double_add_exact by lia. unfold double_sub.
    rewrite double_of_exact by lia. lia. }
  rewrite Hidx, Hline. destruct i as [|i]; cbn [lookup list_lookup fmap
    option_fmap option_map].
  - do 2 f_equal. lia.
  - rewrite IH by lia. destruct (ls !! i); cbn; [|done]. do 2 f_equal. lia.
Qed.

Lemma number_lines_content start idx ls :
  content <$> number_lines start idx ls = ls.
Proof.
  revert idx. induction ls as [|l ls IH]; intros idx; [done|].
  cbn. by rewrite IH.
Qed.

Lemma length_number_lines start idx ls :
  length (number_lines start idx ls) = length ls.
Proof.
  rewrite <- (number_lines_content start idx ls) at 2.
  by rewrite length_fmap.
Qed.

(** X10. The lines [applyEdits] streams are the pieces of the replacement
    between line feeds.  As long as the start line of the replaced range
    plus the number of pieces is at most 2^53, so that the sums the code
    computes are exact, they are numbered consecutively from that start
    line.  There is one more line than the replacement has line feeds,
    no content contains a line feed, and the contents joined by line feeds
    are the replacement: no code unit is dropped, a carriage return before
    a line feed stays at the end of its line. *)
Theorem X10_textLines (request : Request.t) :
  ((pos_line (range_start (replaced_range request))
    + N.of_nat (length (split_LF (Request.edited_content request)))
    ≤ 2 ^ 53)%N →
   ∀ i,
     textLines request !! i
     = (λ c, {| tl_line :=
                  (pos_line (range_start (replaced_range request))
                   + N.of_nat i)%N;
                content := c |})
         <$> split_LF (Request.edited_content request) !! i) ∧
  length (textLines request)
  = S (length (filter (λ c, c = LF) (Request.edited_content request))) ∧
  Forall (λ textLine, Forall (λ c, c ≠ LF) (content textLine))
    (textLines request) ∧
  join_LF (content <$> textLines request) = Request.edited_content request.
Proof.
  unfold textLines. split_and!.
  - intros Hsafe i. rewrite number_lines_lookup by lia.
    by rewrite N.add_0_r.
  - by rewrite length_number_lines, length_split_LF.
  - apply Forall_fmap.
    rewrite number_lines_content. apply split_LF_pieces.
  - by rewrite number_lines_content, join_split_LF.
Qed.

(** From the start line 2^53 the first line is numbered one too low and
    the second has the number the first should have. *)
Example number_lines_beyond_exact_sums :
  tl_line <$> number_lines (2 ^ 53) 0 [[]; []]
  = [(2 ^ 53 - 1)%N; (2 ^ 53)%N].
Proof. by vm_compute. Qed.

(** X11. As long as the start line of the selection plus the number of
    pieces of the replacement is at most 2^53, so that the sum the code
    computes is exact, [applyEdits] never streams more lines than the
    reported range spans: the number of streamed lines is at most the end
    line minus the start line of [new_range], and equal to it when the
    replacement has no carriage return. *)
Theorem X11_streamed_lines_within_reported_range (request : Request.t) :
  (line (startPosition (Request.selected_range request))
   + N.of_nat (length (split_newlines (Request.edited_content request)))
   ≤ 2 ^ 53)%N →
  (N.of_nat (length (textLines request))
   ≤ line (endPosition (Response.new_range (response request)))
     - line (startPosition (Response.new_range (response request))))%N ∧
  (Forall (λ c, c ≠ CR) (Request.edited_content request) →
   N.of_nat (length (textLines request))
   = (line (endPosition (Response.new_range (response request)))
      - line (startPosition (Response.new_range (response request))))%N).
Proof.
  intros Hsafe.
  assert (Hlen : length (textLines request)
                 = length (split_LF (Request.edited_content request))).
  { unfold textLines. by rewrite length_number_lines. }
  rewrite Hlen.
  cbn [response Response.new_range newRange endPosition startPosition line].
  rewrite double_add_exact by done.
  pose proof (split_LF_fewer (Request.edited_content request)).
  split; [lia|]. intros Hcr. rewrite split_newlines_no_CR by done. lia.
Qed.

Lemma X10_textLines_witness :
  (pos_line (range_start (replaced_range sample_request))
   + N.of_nat (length (split_LF (Request.edited_content sample_request)))
   ≤ 2 ^ 53)%N ∧
  textLines sample_request !! 2%nat
  = (λ c, {| tl_line :=
               (pos_line (range_start (replaced_range sample_request))
                + N.of_nat 2)%N;
             content := c |})
      <$> split_LF (Request.edited_content sample_request) !! 2%nat.
Proof.
  assert (Hsafe :
    (pos_line (range_start (replaced_range sample_request))
     + N.of_nat (length (split_LF (Request.edited_content sample_request)))
     ≤ 2 ^ 53)%N) by (vm_compute; discriminate).
  split; [exact Hsafe|].
  destruct (X10_textLines sample_request) as (Hlines & _).
  exact (Hlines Hsafe 2%nat).
Defined.

Lemma X11_streamed_lines_within_reported_range_witness :
  (line (startPosition (Request.selected_range sample_request))
   + N.of_nat
       (length (split_newlines (Request.edited_content sample_request)))
   ≤ 2 ^ 53)%N ∧
  (N.of_nat (length (textLines sample_request))
   ≤ line (endPosition (Response.new_range (response sample_request)))
     - line (startPosition (Response.new_range (response sample_request))))%N.
Proof.
  assert (Hsafe :
    (line (startPosition (Request.selected_range sample_request))
     + N.of_nat
         (length (split_newlines (Request.edited_content sample_request)))
     ≤ 2 ^ 53)%N) by (vm_compute; discriminate).
  split; [exact Hsafe|].
  apply (X11_streamed_lines_within_reported_range sample_request Hsafe).
Defined.

(** At the start line 2^53 a line is streamed and the reported range
    spans none. *)
Example streamed_line_beyond_exact_sums :
  length
    (textLines
       {| Request.fs_file_path := [];
          Request.selected_range :=
            {| startPosition :=
                 {| line := 2 ^ 53; character := 0; byteOffset := 0 |};
               endPosition :=
                 {| line := 2 ^ 53; character := 0; byteOffset := 0 |} |};
          Request.edited_content := [];
          Request.apply_directly := false |}) = 1%nat ∧
  newRange {| line := 2 ^ 53; character := 0; byteOffset := 0 |} []
  = {| startPosition :=
         {| line := 2 ^ 53; character := 0; byteOffset := 0 |};
       endPosition :=
         {| line := 2 ^ 53; character := 0; byteOffset := 0 |} |}.
Proof. by vm_compute. Qed.

(* ===================================================================== *)
(** ** The streaming loop of [applyEdits] *)
(* ===================================================================== *)

Lemma all_task_calls_cons request textLine lines :
  all_task_calls request (textLine :: lines)
  = task_calls request textLine ++ all_task_calls request lines.
Proof. done. Qed.

(** The calls made are those of the first [n] lines, for some [n]; all
    lines when the loop finishes. *)
Lemma stream_calls request sched lines i s :
  ∃ n, (n ≤ length lines)%nat ∧
       calls (stream request sched i lines s).2
       = calls s ++ all_task_calls request (take n lines) ∧
       ((stream request sched i lines s).1 = Finished → n = length lines).
Proof.
  revert i s. induction lines as [|textLine rest IH]; intros i s.
  - exists 0%nat. cbn. by rewrite app_nil_r.
  - cbn [stream].
    destruct (queue (task_of textLine) (run (before_queue (sched i)) (world s)))
      as [[p|msg] w1].
    2:{ exists 0%nat. cbn. rewrite app_nil_r. split_and!; [lia|done|done]. }
    case_bool_decide.
    2:{ exists 0%nat. cbn. rewrite app_nil_r. split_and!; [lia|done|done]. }
    destruct (codeEdit_result (sched i)) as [[v|err]|].
    + match goal with
      | |- context [stream request sched (S i) rest ?s0] =>
          destruct (IH (S i) s0) as (n & Hn & Hc & Hf)
      end.
      exists (S n). cbn [length take]. split_and!; [lia| |].
      * rewrite Hc. cbn [calls].
        by rewrite all_task_calls_cons, !app_assoc.
      * intros Hfin. by rewrite Hf.
    + exists 1%nat. cbn. split_and!; [lia|done|done].
    + exists 1%nat. cbn. split_and!; [lia|done|done].
Qed.

Lemma textLines_cons request :
  ∃ textLine rest, textLines request = textLine :: rest.
Proof.
  unfold textLines.
  destruct (split_LF_cons_inv (Request.edited_content request))
    as (l & ls & ->).
  by eexists _, _.
Qed.

(** X12. On its streaming path (the request does not ask for a direct
    edit), whatever the limiter and the rest of the program do,
    [applyEdits] calls [response.codeEdit] for the lines in order,
    starting with the first, twice per line, skipping none; when its
    promise fulfils, it has done so for every line, and the value is the
    response with the reported range. *)
Theorem X12_edits_streamed_in_line_order
    (request : Request.t) (sched : nat → Slot) (w : World) :
  Request.apply_directly request = false →
  ∃ n, (n ≤ length (textLines request))%nat ∧
       calls (applyEdits request sched w).2
       = all_task_calls request (take n (textLines request)) ∧
       ∀ r, (applyEdits request sched w).1 = Returns r →
            r = response request ∧
            calls (applyEdits request sched w).2
            = all_task_calls request (textLines request).
Proof.
  intros Hdirect. unfold applyEdits. rewrite Hdirect.
  destruct (stream_calls request sched (textLines request) 0
              {| world := w; calls := [] |}) as (n & Hn & Hc & Hf).
  exists n. cbn [calls app] in Hc.
  destruct (stream request sched 0 (textLines request) _) as [[|why|] s];
    cbn [fst snd] in *; (split_and!; [done|done|]); intros r [=].
  subst r. split; [done|]. by rewrite Hc, Hf, firstn_all.
Qed.

(** X13. On its streaming path, [applyEdits] given a limiter that was
    disposed rejects with 'Object has been disposed' at the first line,
    for every replacement (the empty one included), without a call of
    [response.codeEdit] and without a change to the limiter of its own. *)
Theorem X13_applyEdits_on_disposed_limiter
    (request : Request.t) (sched : nat → Slot)
    (N : Z) (es es' : list Event) :
  let w := run es' (exec dispose (run es (new_Limiter N))) in
  Request.apply_directly request = false →
  applyEdits request sched w
  = (Rejects (Thrown "Object has been disposed"),
     {| world := run (before_queue (sched 0%nat)) w; calls := [] |}).
Proof.
  intros w Hdirect. unfold applyEdits. rewrite Hdirect.
  destruct (textLines_cons request) as (textLine & rest & ->).
  cbn [stream world]. rewrite queue_disposed; [done|].
  apply disposed_run. by apply disposed_run.
Qed.

Lemma nothing_in_flight N w : Inv N w → N ≤ 0 → inflight w = [].
Proof.
  intros [HI _] HN. pose proof (inv_inflight _ _ HI) as Hsub.
  rewrite (inv_nostart _ _ HI HN) in Hsub. by apply sublist_nil_r.
Qed.

(** X14. On its streaming path, [applyEdits] given a limiter whose
    maximum is zero or negative never calls [response.codeEdit] and never
    returns a response: the promise of the first line is never settled, so
    the function waits for ever, unless the limiter is disposed before the
    first line is queued, in which case it rejects. *)
Theorem X14_applyEdits_with_nonpositive_max
    (request : Request.t) (sched : nat → Slot) (N : Z) (es : list Event) :
  let w := run es (new_Limiter N) in
  N ≤ 0 →
  Request.apply_directly request = false →
  calls (applyEdits request sched w).2 = [] ∧
  (applyEdits request sched w).1
  = (if _isDisposed (limiter (run (before_queue (sched 0%nat)) w))
     then Rejects (Thrown "Object has been disposed")
     else NeverSettles).
Proof.
  intros w HN Hdirect. unfold applyEdits. rewrite Hdirect.
  destruct (textLines_cons request) as (textLine & rest & ->).
  cbn [stream world calls].
  set (w0 := run (before_queue (sched 0%nat)) w).
  assert (HI0 : Inv N w0) by apply Inv_run, Inv_execution.
  destruct (_isDisposed (limiter w0)) eqn:Hd.
  - by rewrite queue_disposed.
  - rewrite queue_live by done.
    assert (HI2 : Inv N (run (before_done (sched 0%nat))
                           (consume (pushed (task_of textLine) w0)))).
    { apply Inv_run. apply Inv_consume, Inv0_pushed; [apply HI0|done]. }
    rewrite (nothing_in_flight N _ HI2 HN).
    rewrite bool_decide_eq_false_2 by apply not_elem_of_nil. done.
Qed.

(* ===================================================================== *)
(** ** [applyEdits] alone on a limiter with a free slot *)
(* ===================================================================== *)

Lemma Limiter_eq (l l' : Limiter) :
  _size l = _size l' → _isDisposed l = _isDisposed l' →
  runningPromises l = runningPromises l' →
  maxDegreeOfParalellism l = maxDegreeOfParalellism l' →
  outstandingPromises l = outstandingPromises l' →
  _onDrained l = _onDrained l' →
  l = l'.
Proof. destruct l, l'. cbn. by intros -> -> -> -> -> ->. Qed.

(** A limiter is ready when it is live and has a free slot; its queue is
    then empty. *)
Lemma ready_queue_empty N w :
  Inv N w → _isDisposed (limiter w) = false →
  runningPromises (limiter w) < N →
  outstandingPromises (limiter w) = [].
Proof.
  intros [HI Hdr] Hd Hlt. pose proof (inv_max _ _ HI) as Hm.
  destruct (Hdr Hd) as [?|?]; [done|lia].
Qed.

Lemma queue_ready N f w :
  Inv N w → _isDisposed (limiter w) = false →
  runningPromises (limiter w) < N →
  consume (pushed f w) = consume_body (pushed f w).
Proof.
  intros HI Hd Hlt. pose proof (ready_queue_empty N w HI Hd Hlt) as Hq.
  destruct HI as [HI _]. pose proof (inv_max _ _ HI) as Hm.
  rewrite consume_unfold.
  assert (Hgo : may_start (limiter (pushed f w)) = true).
  { apply may_start_true. cbn. rewrite Hq. split; [done|lia]. }
  rewrite Hgo. apply consume_full, may_start_false. left.
  unfold consume_body. cbn. by rewrite Hq.
Qed.

Lemma fresh_not_in_flight N w : Inv N w → nextPromise w ∉ inflight w.
Proof.
  intros [HI _] Hin. pose proof (inv_fresh _ _ HI) as Hf.
  rewrite Forall_forall in Hf.
  assert (Hs : nextPromise w ∈ order w).
  { apply elem_of_app. left. eapply elem_of_sublist; [done|apply HI]. }
  specialize (Hf _ Hs). lia.
Qed.

(** One task queued on a ready limiter and completed before anything else
    happens: the limiter is as before. *)
Lemma one_task_alone N f o w :
  Inv N w → _isDisposed (limiter w) = false →
  runningPromises (limiter w) < N →
  let w1 := exec (queue f) w in
  let w3 := step w1 (Settles (nextPromise w) o) in
  result (queue f) w = Normal (nextPromise w) ∧
  nextPromise w ∈ inflight w1 ∧
  limiter w3 = limiter w ∧
  inflight w3 = inflight w ∧
  nextPromise w3 = S (nextPromise w) ∧
  settled w3 = <[nextPromise w := o]> (settled w).
Proof.
  intros HI Hd Hlt w1 w3.
  pose proof (ready_queue_empty N w HI Hd Hlt) as Hq.
  assert (Hw1 : w1 = consume_body (pushed f w)).
  { unfold w1, exec. rewrite queue_live by done. cbn [snd].
    by apply (queue_ready N). }
  assert (Hin : nextPromise w ∈ inflight w1).
  { rewrite Hw1. unfold consume_body. cbn. rewrite Hq. cbn.
    apply elem_of_app. right. by apply list_elem_of_singleton. }
  assert (HI1 : Inv N w1) by apply (Inv_step N w (CallQueue f) HI).
  assert (Hd1 : _isDisposed (limiter w1) = false).
  { rewrite Hw1. unfold consume_body. cbn. by rewrite Hq. }
  assert (Hq1 : outstandingPromises (limiter w1) = []).
  { rewrite Hw1. unfold consume_body. cbn. by rewrite Hq. }
  assert (Hw3 : w3 = released (with_settled (<[nextPromise w := o]>
                                 (settled w1)) (land (nextPromise w) w1))).
  { unfold w3. cbn [step]. rewrite bool_decide_eq_true_2 by done.
    unfold task_settles. rewrite consumed_live by by rewrite limiter_settle.
    destruct HI1 as [HI1 _]. rewrite (landed_eq N) by done.
    by apply consume_nil. }
  unfold result. rewrite queue_live by done.
  split_and!; [done|done|..]; rewrite Hw3, Hw1; unfold consume_body; cbn;
    rewrite Hq; cbn.
  - apply Limiter_eq; cbn; try done; lia.
  - rewrite filter_app, filter_ne_absent by by apply (fresh_not_in_flight N).
    rewrite filter_cons_False by (intros ?; done).
    by rewrite filter_nil, app_nil_r.
  - done.
  - done.
Qed.

Lemma stream_app request sched l1 l2 i s :
  stream request sched i (l1 ++ l2) s
  = match stream request sched i l1 s with
    | (Finished, s') => stream request sched (i + length l1) l2 s'
    | r => r
    end.
Proof.
  revert i s. induction l1 as [|textLine l1 IH]; intros i s.
  - cbn. by rewrite Nat.add_0_r.
  - cbn [app stream length].
    destruct (queue _ _) as [[p|msg] w1]; [|done].
    case_bool_decide; [|done].
    destruct (codeEdit_result (sched i)) as [[v|err]|]; [|done..].
    rewrite IH. by rewrite Nat.add_succ_r.
Qed.

(** The loop alone on a ready limiter, while the awaited calls succeed. *)
Lemma stream_alone_resolved request results N lines i s :
  Inv N (world s) → _isDisposed (limiter (world s)) = false →
  runningPromises (limiter (world s)) < N →
  (∀ j, (j < length lines)%nat → ∃ v, results (i + j)%nat = Resolved v) →
  ∃ w',
    stream request (alone results) i lines s
    = (Finished,
       {| world := w'; calls := calls s ++ all_task_calls request lines |}) ∧
    Inv N w' ∧
    limiter w' = limiter (world s) ∧
    inflight w' = inflight (world s) ∧
    nextPromise w' = (nextPromise (world s) + length lines)%nat ∧
    (∀ j, (j < length lines)%nat →
          settled w' !! (nextPromise (world s) + j)%nat
          = Some (Resolved undefined)) ∧
    (∀ k, (k < nextPromise (world s))%nat →
          settled w' !! k = settled (world s) !! k).
Proof.
  revert i s. induction lines as [|textLine rest IH]; intros i s HI Hd Hlt Hres.
  - exists (world s). cbn. rewrite app_nil_r, Nat.add_0_r.
    destruct s. split_and!; try done. intros j Hj. lia.
  - destruct (Hres 0%nat) as [v Hv]; [cbn; lia|]. rewrite Nat.add_0_r in Hv.
    destruct (one_task_alone N (task_of textLine) (Resolved undefined)
                (world s) HI Hd Hlt) as (Hr & Hin & Hl & Hfl & Hnext & Hset).
    cbn [stream alone before_queue before_done codeEdit_result run foldl].
    unfold result, exec in *.
    destruct (queue (task_of textLine) (world s)) as [[p|msg] w1] eqn:Hqueue;
      cbn [fst snd] in *; [|done].
    injection Hr as ->.
    rewrite bool_decide_eq_true_2 by done. rewrite Hv. cbn [async_outcome].
    set (s' := {| world := step w1 (Settles (nextPromise (world s))
                                      (Resolved undefined));
                  calls := calls s ++ task_calls request textLine |}).
    destruct (IH (S i) s') as (w' & Hstream & HI' & Hl' & Hfl' & Hn' & Hs' & Hold).
    + apply Inv_step.
      replace w1 with (step (world s) (CallQueue (task_of textLine)))
        by (cbn [step]; unfold exec; by rewrite Hqueue).
      by apply Inv_step.
    + cbn [world s']. by rewrite Hl.
    + cbn [world s']. by rewrite Hl.
    + intros j Hj. destruct (Hres (S j)) as [v' Hv']; [cbn; lia|].
      exists v'. by rewrite <- Hv', Nat.add_succ_r.
    + exists w'. cbn [world s'] in *. split_and!.
      * rewrite Hstream. cbn [calls s'].
        by rewrite all_task_calls_cons, app_assoc.
      * done.
      * congruence.
      * congruence.
      * rewrite Hn', Hnext. cbn [length]. lia.
      * intros [|j] Hj.
        -- rewrite Nat.add_0_r, Hold by (rewrite Hnext; lia).
           rewrite Hset. apply lookup_insert_eq.
        -- rewrite <- (Hs' j) by (cbn in Hj; lia). f_equal.
           rewrite Hnext. lia.
      * intros k Hk. rewrite Hold by (rewrite Hnext; lia).
        rewrite Hset. apply lookup_insert_ne. lia.
Qed.

(** X15. [applyEdits] on its streaming path, alone on a limiter that is
    not disposed and has a free slot, with every awaited call of
    [response.codeEdit] succeeding: it returns the response after the
    calls for all lines, it has queued one task per line, each promise it
    was given is resolved with [undefined], and the limiter's fields and
    the tasks in flight are what they were. *)
Theorem X15_applyEdits_alone_succeeds
    (request : Request.t) (results : nat → Outcome)
    (N : Z) (es : list Event) :
  let w := run es (new_Limiter N) in
  Request.apply_directly request = false →
  _isDisposed (limiter w) = false →
  runningPromises (limiter w) < N →
  (∀ i, ∃ v, results i = Resolved v) →
  ∃ w',
    applyEdits request (alone results) w
    = (Returns (response request),
       {| world := w';
          calls := all_task_calls request (textLines request) |}) ∧
    limiter w' = limiter w ∧
    inflight w' = inflight w ∧
    nextPromise w'
    = (nextPromise w + length (textLines request))%nat ∧
    ∀ j, (j < length (textLines request))%nat →
         settled w' !! (nextPromise w + j)%nat = Some (Resolved undefined).
Proof.
  intros w Hdirect Hd Hlt Hres. unfold applyEdits. rewrite Hdirect.
  destruct (stream_alone_resolved request results N (textLines request) 0
              {| world := w; calls := [] |})
    as (w' & Hstream & _ & Hl & Hfl & Hn & Hs & _);
    [apply Inv_execution|done|done|by intros j _|].
  exists w'. rewrite Hstream. cbn [world calls app] in *. done.
Qed.

(** X16. In the same setting, when the awaited call fails for line [j]
    and succeeds for the lines before it: [applyEdits] rejects with that
    failure after the calls for lines 0 to [j]; the lines after [j] are
    never queued (only [j + 1] promises were handed out), the promise of
    line [j] is rejected with the failure, and the limiter's fields and the
    tasks in flight are what they were. *)
Theorem X16_applyEdits_alone_stops_at_first_failure
    (request : Request.t) (results : nat → Outcome)
    (N : Z) (es : list Event) (j : nat) (err : Failure) :
  let w := run es (new_Limiter N) in
  Request.apply_directly request = false →
  _isDisposed (limiter w) = false →
  runningPromises (limiter w) < N →
  (j < length (textLines request))%nat →
  (∀ i, (i < j)%nat → ∃ v, results i = Resolved v) →
  results j = Rejected err →
  ∃ w',
    applyEdits request (alone results) w
    = (Rejects (TaskFailed err),
       {| world := w';
          calls := all_task_calls request
                     (take (S j) (textLines request)) |}) ∧
    limiter w' = limiter w ∧
    inflight w' = inflight w ∧
    nextPromise w' = (nextPromise w + S j)%nat ∧
    settled w' !! (nextPromise w + j)%nat = Some (Rejected err).
Proof.
  intros w Hdirect Hd Hlt Hj Hres Hfail. unfold applyEdits. rewrite Hdirect.
  destruct (lookup_lt_is_Some_2 (textLines request) j Hj) as [textLine Htl].
  assert (Hsplit :
            stream request (alone results) 0 (textLines request)
              {| world := w; calls := [] |}
            = stream request (alone results) 0
                (take j (textLines request)
                 ++ textLine :: drop (S j) (textLines request))
                {| world := w; calls := [] |})
    by by rewrite take_drop_middle.
  rewrite Hsplit, stream_app.
  destruct (stream_alone_resolved request results N
              (take j (textLines request)) 0 {| world := w; calls := [] |})
    as (w1 & Hstream & HI1 & Hl & Hfl & Hn & _ & _);
    [apply Inv_execution|done|done| |].
  { intros i Hi. rewrite length_take in Hi. apply Hres. lia. }
  rewrite Hstream. cbn [world calls app] in *.
  rewrite length_take, Nat.min_l, Nat.add_0_l in * by lia.
  destruct (one_task_alone N (task_of textLine) (Rejected err) w1 HI1)
    as (Hr & Hin & Hl3 & Hfl3 & Hnext & Hset); [by rewrite Hl..|].
  cbn [stream alone before_queue before_done codeEdit_result run foldl world].
  unfold result, exec in *.
  destruct (queue (task_of textLine) w1) as [[p|msg] w2]; cbn [fst snd] in *;
    [|done].
  injection Hr as ->. rewrite bool_decide_eq_true_2 by done.
  rewrite Hfail. cbn [async_outcome calls].
  eexists. split_and!; [|by rewrite Hl3|by rewrite Hfl3| |].
  - do 2 f_equal.
    rewrite (take_S_r _ _ _ Htl). unfold all_task_calls.
    by rewrite fmap_app, concat_app.
  - cbn [world]. rewrite Hnext, Hn. lia.
  - cbn [world]. rewrite Hset, Hn. apply lookup_insert_eq.
Qed.
(* ===================================================================== *)
(** ** Instances *)
(* ===================================================================== *)

Lemma X9_newRange_end_column_witness :
  Forall (λ c, ¬ is_newline c) [99; 99; 99]%N ∧
  is_newline 10%N ∧
  character
    (endPosition
       (newRange {| line := 3; character := 2; byteOffset := 0 |}
          ([97; 13; 10; 98; 98; 10] ++ [99; 99; 99])%N))
  = N.of_nat (length [99; 99; 99]%N).
Proof.
  assert (Hnl : is_newline 10%N) by by right.
  assert (Htail : Forall (λ c, ¬ is_newline c) [99; 99; 99]%N).
  { repeat constructor; by intros [?|?]. }
  split; [exact Htail|]. split; [exact Hnl|].
  apply (X9_newRange_end_column _ _ [97; 13; 10; 98; 98; 10]%N
           [99; 99; 99]%N eq_refl Htail).
  right. exists [97; 13; 10; 98; 98]%N, 10%N. by split.
Defined.

Lemma X12_edits_streamed_in_line_order_witness :
  Request.apply_directly sample_request = false ∧
  ∃ n, (n ≤ length (textLines sample_request))%nat ∧
       calls (applyEdits sample_request (alone (λ _, Resolved 5))
                (new_Limiter 1)).2
       = all_task_calls sample_request (take n (textLines sample_request)).
Proof.
  split; [reflexivity|].
  destruct (X12_edits_streamed_in_line_order sample_request
              (alone (λ _, Resolved 5)) (new_Limiter 1) eq_refl)
    as (n & Hn & Hc & _).
  exists n. split; [exact Hn|exact Hc].
Defined.

Lemma X13_applyEdits_on_disposed_limiter_witness :
  Request.apply_directly sample_request = false ∧
  (applyEdits sample_request (alone (λ _, Resolved 5))
     (run [] (exec dispose (run [CallQueue 0] (new_Limiter 1))))).1
  = Rejects (Thrown "Object has been disposed").
Proof.
  split; [reflexivity|].
  rewrite (X13_applyEdits_on_disposed_limiter sample_request
             (alone (λ _, Resolved 5)) 1 [CallQueue 0] [] eq_refl).
  reflexivity.
Defined.

Lemma X14_applyEdits_with_nonpositive_max_witness :
  0 ≤ 0 ∧
  Request.apply_directly sample_request = false ∧
  calls (applyEdits sample_request (alone (λ _, Resolved 5))
           (run [] (new_Limiter 0))).2 = [] ∧
  (applyEdits sample_request (alone (λ _, Resolved 5))
     (run [] (new_Limiter 0))).1 = NeverSettles.
Proof.
  split; [lia|]. split; [reflexivity|].
  destruct (X14_applyEdits_with_nonpositive_max sample_request
              (alone (λ _, Resolved 5)) 0 []) as [Hc He]; [lia|reflexivity|].
  split; [exact Hc|exact He].
Defined.

Lemma X15_applyEdits_alone_succeeds_witness :
  Request.apply_directly sample_request = false ∧
  length (textLines sample_request) = 3%nat ∧
  (applyEdits sample_request (alone (λ _, Resolved 5))
     (run [] (new_Limiter 1))).1
  = Returns (response sample_request).
Proof.
  split; [reflexivity|]. split; [reflexivity|].
  destruct (X15_applyEdits_alone_succeeds sample_request
              (λ _, Resolved 5) 1 []) as (w' & Heq & _).
  - reflexivity.
  - reflexivity.
  - reflexivity.
  - intros i. by exists 5%nat.
  - by rewrite Heq.
Defined.

Lemma X16_applyEdits_alone_stops_at_first_failure_witness :
  Request.apply_directly sample_request = false ∧
  (applyEdits sample_request
     (alone (λ i, if bool_decide (i = 1%nat) then Rejected 8 else Resolved 5))
     (run [] (new_Limiter 1))).1
  = Rejects (TaskFailed 8).
Proof.
  split; [reflexivity|].
  destruct (X16_applyEdits_alone_stops_at_first_failure sample_request
              (λ i, if bool_decide (i = 1%nat) then Rejected 8 else Resolved 5)
              1 [] 1%nat 8%nat) as (w' & Heq & _).
  - reflexivity.
  - reflexivity.
  - reflexivity.
  - vm_compute. lia.
  - intros i Hi. exists 5%nat. by rewrite bool_decide_eq_false_2 by lia.
  - reflexivity.
  - by rewrite Heq.
Defined.

(** The sample request: what is streamed and what is reported. *)
Example sample_request_streamed :
  textLines sample_request
  = [ {| tl_line := 3; content := [97; 13]%N |};
      {| tl_line := 4; content := [98; 98]%N |};
      {| tl_line := 5; content := [99; 99; 99]%N |} ] ∧
  Response.new_range (response sample_request)
  = {| startPosition := {| line := 3; character := 2; byteOffset := 0 |};
       endPosition := {| line := 6; character := 3; byteOffset := 0 |} |}.
Proof. by vm_compute. Qed.

(* ===================================================================== *)
(** ** The build reporter: what [log] prints and writes *)
(* ===================================================================== *)

Lemma print_unseen_spec (seen : gset JSString) (errors : list JSString) :
  ∃ shown,
    Reporter.print_unseen seen errors = Reporter.Error <$> shown ∧
    NoDup shown ∧
    (∀ e, e ∈ shown ↔ e ∈ errors ∧ e ∉ seen) ∧
    shown `sublist_of` errors.
Proof.
  revert seen. induction errors as [|err rest IH]; intros seen.
  - exists []. split_and!; [done|constructor| |done].
    intros e. rewrite elem_of_nil. tauto.
  - cbn [Reporter.print_unseen]. case_bool_decide as Hseen.
    + destruct (IH seen) as (shown & -> & Hnd & Hin & Hsub).
      exists shown. split_and!; [done|done| |by apply sublist_cons].
      intros e. rewrite Hin, elem_of_cons. split; [tauto|].
      intros [[->|?] ?]; [done|tauto].
    + destruct (IH ({[err]} ∪ seen)) as (shown & -> & Hnd & Hin & Hsub).
      exists (err :: shown). split_and!; [done| | |by apply sublist_skip].
      * constructor; [|done]. rewrite Hin. intros [_ Hn]. apply Hn.
        apply elem_of_union. left. by apply elem_of_singleton.
      * intros e. rewrite !elem_of_cons, Hin, not_elem_of_union.
        rewrite not_elem_of_singleton.
        destruct (decide (e = err)) as [->|Hne]; [tauto|]. tauto.
Qed.

Lemma remove_dups_snoc (l : list JSString) (x : JSString) :
  remove_dups (l ++ [x]) = filter (λ y, y ≠ x) (remove_dups l) ++ [x].
Proof.
  induction l as [|a l IH]; [done|].
  cbn [app remove_dups]. rewrite IH.
  destruct (decide_rel elem_of a (l ++ [x])) as [Hin'|Hin'];
    destruct (decide_rel elem_of a l) as [Hin|Hin];
    destruct (decide (a = x)) as [->|Hne].
  - done.
  - done.
  - by rewrite filter_cons_False by (by intros ?).
  - exfalso. apply elem_of_app in Hin' as [?|?%list_elem_of_singleton];
      done.
  - exfalso. apply Hin', elem_of_app. by left.
  - exfalso. apply Hin', elem_of_app. by left.
  - exfalso. apply Hin', elem_of_app. right. by left.
  - by rewrite filter_cons_True by done.
Qed.

Lemma first_occurrences_cons (x : JSString) (l : list JSString) :
  reverse (remove_dups (reverse (x :: l)))
  = x :: filter (λ y, y ≠ x) (reverse (remove_dups (reverse l))).
Proof.
  rewrite reverse_cons, remove_dups_snoc, reverse_app, filter_reverse.
  done.
Qed.

Lemma print_unseen_first (seen : gset JSString) (errors : list JSString) :
  Reporter.print_unseen seen errors
  = Reporter.Error
    <$> filter (λ e, e ∉ seen) (reverse (remove_dups (reverse errors))).
Proof.
  revert seen. induction errors as [|err rest IH]; intros seen; [done|].
  cbn [Reporter.print_unseen]. rewrite first_occurrences_cons, !IH.
  case_bool_decide as Hseen.
  - rewrite filter_cons_False by (by intros ?).
    rewrite list_filter_filter. f_equal. apply list_filter_iff.
    intros e. cbn. split; [|by intros [? ?]].
    intros He. split; [done|]. by intros ->.
  - rewrite filter_cons_True by done. cbn [fmap list_fmap]. f_equal.
    rewrite list_filter_filter. f_equal. apply list_filter_iff.
    intros e. cbn. rewrite not_elem_of_union, not_elem_of_singleton.
    tauto.
Qed.

Lemma filter_unseen_all (seen : gset JSString) (l : list JSString) :
  (∀ e, e ∉ seen) → filter (λ e, e ∉ seen) l = l.
Proof.
  intros Hseen. induction l as [|e l IH]; [done|].
  rewrite filter_cons_True by apply Hseen. by rewrite IH.
Qed.

(** X17. [log] prints every distinct error of the arrays of its log once,
    in the order of the first occurrences, and then the line that ends
    the compilation, which counts every error, repeated ones too. *)
Theorem X17_log_prints_each_error_once
    (now : N) (heap : gmap nat Reporter.ErrorArray)
    (this : Reporter.ErrorLog) :
  let errors := Reporter.flat heap (Reporter.allErrors this) in
  let shown := reverse (remove_dups (reverse errors)) in
  (Reporter.log now heap this).1
  = (Reporter.Error <$> shown)
    ++ [Reporter.Finished (Reporter.id this) (length errors)
          (Z.of_N now
           - default 0 (Z.of_N <$> Reporter.startTime this))] ∧
  NoDup shown ∧
  (∀ e, e ∈ shown ↔ e ∈ errors) ∧
  shown `sublist_of` errors.
Proof.
  intros errors shown.
  destruct (print_unseen_spec ∅ errors) as (shown' & Hp & Hnd & Hin & Hsub).
  assert (Hshown : Reporter.print_unseen ∅ errors
                   = Reporter.Error <$> shown).
  { rewrite print_unseen_first. rewrite filter_unseen_all; [done|].
    intros e. apply not_elem_of_empty. }
  assert (shown' = shown) as ->.
  { rewrite Hp in Hshown.
    refine (list_fmap_eq_inj Reporter.Error _ _ _ Hshown).
    by intros ?? [= ?]. }
  split_and!.
  - unfold Reporter.log. cbn [fst]. fold errors. rewrite Hshown.
    by destruct (Reporter.startTime this).
  - done.
  - intros e. rewrite Hin. split; [tauto|]. intros ?. split; [done|].
    apply not_elem_of_empty.
  - done.
Qed.

(* ===================================================================== *)
(** ** The build reporter: which errors become messages *)
(* ===================================================================== *)

Lemma span_app (p : CodeUnit → bool) (a b : JSString) :
  Forall (λ c, p c = true) a →
  match b with [] => True | c :: _ => p c = false end →
  Reporter.span p (a ++ b) = (a, b).
Proof.
  intros Ha Hb. induction Ha as [|c a Hc _ IH].
  - cbn [app]. destruct b as [|c b]; [done|].
    cbn [Reporter.span]. by rewrite Hb.
  - cbn [app Reporter.span]. by rewrite Hc, IH.
Qed.

Lemma span_inv (p : CodeUnit → bool) (s a b : JSString) :
  Reporter.span p s = (a, b) →
  s = a ++ b ∧ Forall (λ c, p c = true) a ∧
  match b with [] => True | c :: _ => p c = false end.
Proof.
  revert a b. induction s as [|c s IH]; intros a b; cbn.
  - intros [= <- <-]. by split_and!.
  - destruct (p c) eqn:Hc.
    + destruct (Reporter.span p s) as [a' b'] eqn:Hs.
      intros [= <- <-]. destruct (IH a' b' eq_refl) as (-> & Ha & Hb).
      split_and!; [done|by constructor|done].
    + intros [= <- <-]. by split_and!.
Qed.


Lemma expect_Some (c : CodeUnit) (s s' : JSString) :
  Reporter.expect c s = Some s' ↔ s = c :: s'.
Proof.
  unfold Reporter.expect. destruct s as [|d s]; [done|].
  destruct (N.eqb_spec d c) as [->|Hne]; split; intros [= ?]; by subst.
Qed.

(** X18. The regular expression of [log] accepts exactly the errors made
    of a path that is not empty and has no opening parenthesis, then in
    parentheses the line, a comma and the column, both non-empty strings
    of decimal digits, then a colon, a space and a text of any code
    units, line ends included.  The message made of such an error has
    this path, the numbers [parseInt] reads from the digits and this
    text; every other error gives no message. *)
Theorem X18_exec_accepts_exactly_the_message_shape
    (err : JSString) (m : Reporter.Message) :
  Reporter.exec err = Some m ↔ message_shape err m.
Proof.
  unfold message_shape, Reporter.exec. split.
  - destruct (Reporter.span _ err) as [pa r0] eqn:Hpa.
    case_bool_decide as Hpa0; [done|].
    destruct (Reporter.expect 40%N r0) as [r1|] eqn:H1; [|done].
    cbn [mbind option_bind].
    destruct (Reporter.span _ r1) as [ln r2] eqn:Hln.
    case_bool_decide as Hln0; [done|].
    destruct (Reporter.expect 44%N r2) as [r3|] eqn:H2; [|done].
    cbn [mbind option_bind].
    destruct (Reporter.span _ r3) as [col r4] eqn:Hcol.
    case_bool_decide as Hcol0; [done|].
    destruct (Reporter.expect 41%N r4) as [r5|] eqn:H3; [|done].
    cbn [mbind option_bind].
    destruct (Reporter.expect 58%N r5) as [r6|] eqn:H4; [|done].
    cbn [mbind option_bind].
    destruct (Reporter.expect 32%N r6) as [msg|] eqn:H5; [|done].
    cbn [mbind option_bind]. intros [= <-]. cbn.
    apply expect_Some in H1, H2, H3, H4, H5. subst.
    apply span_inv in Hpa as (-> & Hpa & _).
    apply span_inv in Hln as (-> & Hln & _).
    apply span_inv in Hcol as (-> & Hcol & _).
    exists ln, col. split_and!; try done.
    eapply Forall_impl; [exact Hpa|]. cbn. intros c Hc ->. done.
  - intros (ln & col & -> & Hpa0 & Hpa & Hln0 & Hln & Hcol0 & Hcol & Hl & Hc).
    rewrite span_app; [|
      eapply Forall_impl; [exact Hpa|]; cbn; intros c Hc';
      by destruct (N.eqb_spec c 40%N) | done].
    rewrite bool_decide_eq_false_2 by done. cbn [Reporter.expect N.eqb
      Pos.eqb mbind option_bind].
    rewrite span_app; [|done..].
    rewrite bool_decide_eq_false_2 by done. cbn [Reporter.expect N.eqb
      Pos.eqb mbind option_bind].
    rewrite span_app; [|done..].
    rewrite bool_decide_eq_false_2 by done. cbn [Reporter.expect N.eqb
      Pos.eqb mbind option_bind].
    destruct m; cbn in *. by subst.
Qed.

(* ===================================================================== *)
(** ** The build reporter: the counter of running builds *)
(* ===================================================================== *)

Lemma calls_app (cs cs' : list Reporter.LogCall) (this : Reporter.ErrorLog) :
  Reporter.calls (cs ++ cs') this
  = let '(l, p, w) := Reporter.calls cs this in
    let '(l', p', w') := Reporter.calls cs' l in
    (l', p ++ p', w ++ w').
Proof.
  revert this. induction cs as [|c cs IH]; intros this.
  - cbn. by destruct (Reporter.calls cs' this) as [[l p] w].
  - cbn [app Reporter.calls].
    destruct (Reporter.call c this) as [[l p] w]. rewrite IH.
    destruct (Reporter.calls cs l) as [[l1 p1] w1].
    destruct (Reporter.calls cs' l1) as [[l2 p2] w2].
    by rewrite !app_assoc.
Qed.

Lemma calls_while_running (cs : list Reporter.LogCall) (open : nat)
    (this : Reporter.ErrorLog) :
  Reporter.closes open cs = true →
  Z.of_nat open < Reporter.count this →
  Reporter.calls cs this
  = ({| Reporter.id := Reporter.id this;
        Reporter.allErrors := Reporter.allErrors this;
        Reporter.startTime := Reporter.startTime this;
        Reporter.count := Reporter.count this - Z.of_nat open |}, [], []).
Proof.
  revert open this. induction cs as [|[t|t h] cs IH]; intros open this.
  - cbn. intros ->%bool_decide_eq_true _. destruct this; cbn.
    do 3 f_equal. lia.
  - cbn [Reporter.closes Reporter.calls Reporter.call]. intros Hcl Hc.
    unfold Reporter.onStart. rewrite bool_decide_eq_true_2 by lia.
    rewrite (IH _ _ Hcl) by (cbn; lia). cbn. do 3 f_equal. lia.
  - cbn [Reporter.closes Reporter.calls Reporter.call]. intros Hcl Hc.
    destruct open as [|open]; [done|].
    unfold Reporter.onEnd. cbn [Reporter.count].
    rewrite bool_decide_eq_true_2 by lia.
    rewrite (IH _ _ Hcl) by (cbn; lia). cbn. do 3 f_equal. lia.
Qed.

(** X19. On a log none of whose builds is running, let [onStart] be
    called, then let builds start and end in any nesting, never more
    ended than started, and let [onEnd] be called at last.  The
    compilation is announced once, by the first call; nothing is printed or
    written in between; the last call logs the errors once, with the time
    elapsed since the first call, and the counter is 0 again. *)
Theorem X19_overlapping_builds_are_logged_once
    (this : Reporter.ErrorLog) (first last : N)
    (heap : gmap nat Reporter.ErrorArray) (between : list Reporter.LogCall) :
  Reporter.count this = 0 →
  Reporter.closes 0 between = true →
  Reporter.calls
    (Reporter.CallOnStart first :: between
     ++ [Reporter.CallOnEnd last heap]) this
  = ({| Reporter.id := Reporter.id this;
        Reporter.allErrors := Reporter.allErrors this;
        Reporter.startTime := Some first;
        Reporter.count := 0 |},
     Reporter.Starting (Reporter.id this)
     :: Reporter.report (Reporter.id this) first last
          (Reporter.flat heap (Reporter.allErrors this)),
     [(Reporter.logFileName (Reporter.id this),
       omap Reporter.exec (Reporter.flat heap (Reporter.allErrors this)))]).
Proof.
  intros Hc Hcl. cbn [Reporter.calls Reporter.call].
  unfold Reporter.onStart. rewrite Hc.
  rewrite bool_decide_eq_false_2 by lia. cbn [Reporter.id Reporter.allErrors
    Reporter.startTime Reporter.count].
  rewrite calls_app, (calls_while_running _ 0) by (done || cbn; lia).
  cbn [Reporter.calls Reporter.call Reporter.id Reporter.allErrors
    Reporter.startTime Reporter.count].
  unfold Reporter.onEnd. cbn [Reporter.id Reporter.allErrors
    Reporter.startTime Reporter.count].
  rewrite bool_decide_eq_false_2 by lia.
  unfold Reporter.log, Reporter.report. cbn [Reporter.id Reporter.allErrors
    Reporter.startTime Reporter.count].
  by rewrite !app_nil_r.
Qed.

(* ===================================================================== *)
(** ** The build reporter: one build of a reporter *)
(* ===================================================================== *)

Lemma reports_frame (r : Reporter.Handle) (errs : list JSString)
    (st : Reporter.State) :
  Reporter.errorLogsById (Reporter.reports r errs st)
  = Reporter.errorLogsById st ∧
  Reporter.nextArray (Reporter.reports r errs st) = Reporter.nextArray st ∧
  Reporter.printed (Reporter.reports r errs st) = Reporter.printed st ∧
  Reporter.written (Reporter.reports r errs st) = Reporter.written st.
Proof.
  revert st. induction errs as [|err errs IH]; intros st; [done|].
  change (Reporter.reports r (err :: errs) st)
    with (Reporter.reports r errs (Reporter.result r err st)).
  destruct (IH (Reporter.result r err st)) as (-> & -> & -> & ->). done.
Qed.

Lemma reports_own (r : Reporter.Handle) (errs : list JSString)
    (st : Reporter.State) (e : Reporter.ErrorArray) :
  Reporter.heap st !! Reporter.errors r = Some e →
  Reporter.heap (Reporter.reports r errs st) !! Reporter.errors r
  = Some {| Reporter.items := Reporter.items e ++ errs;
            Reporter.__logged__ := Reporter.__logged__ e |}.
Proof.
  revert st e. induction errs as [|err errs IH]; intros st e He.
  - cbn. rewrite app_nil_r, He. by destruct e.
  - change (Reporter.reports r (err :: errs) st)
      with (Reporter.reports r errs (Reporter.result r err st)).
    erewrite IH; [|cbn; by rewrite lookup_alter_eq, He].
    cbn. by rewrite <- app_assoc.
Qed.

Lemma reports_other (r : Reporter.Handle) (errs : list JSString)
    (st : Reporter.State) (a : nat) :
  a ≠ Reporter.errors r →
  Reporter.heap (Reporter.reports r errs st) !! a = Reporter.heap st !! a.
Proof.
  intros Ha. revert st. induction errs as [|err errs IH]; intros st; [done|].
  change (Reporter.reports r (err :: errs) st)
    with (Reporter.reports r errs (Reporter.result r err st)).
  rewrite IH. cbn. by rewrite lookup_alter_ne.
Qed.

Lemma flat_one (heap : gmap nat Reporter.ErrorArray) (a : nat)
    (e : Reporter.ErrorArray) :
  heap !! a = Some e → Reporter.flat heap [a] = Reporter.items e.
Proof. intros He. unfold Reporter.flat. cbn. by rewrite He, app_nil_r. Qed.

(** X20. One build of a reporter that is the only one of its log, with
    no build running: whatever was reported before [end] is forgotten.
    When the stream ends it emits an error that counts the errors reported
    since [end], if [emitError] is set and there is one at least, and
    [end] otherwise.  The compilation is announced and logged once, and
    logged a second time when the stream emits the error and
    [__logged__] was not set on the array; it is set from then on, so
    that later failing builds are logged once. *)
Theorem X20_build_of_a_lone_reporter
    (r : Reporter.Handle) (logged emitError : bool) (started now later : N)
    (errs : list JSString) (st : Reporter.State) :
  lone r logged st →
  let failing := emitError && bool_decide (errs ≠ []) in
  let again := failing && negb logged in
  let file := (Reporter.logFileName (Reporter.errorLog r),
               omap Reporter.exec errs) in
  let out := Reporter.build r emitError started now later errs st in
  out.1 = (if failing then Reporter.EmitError (length errs)
           else Reporter.EmitEnd) ∧
  Reporter.printed out.2
  = Reporter.printed st
    ++ Reporter.Starting (Reporter.errorLog r)
       :: Reporter.report (Reporter.errorLog r) started now errs
    ++ (if again
        then Reporter.report (Reporter.errorLog r) started later errs
        else []) ∧
  Reporter.written out.2
  = Reporter.written st ++ file :: (if again then [file] else []) ∧
  lone r (logged || failing) out.2.
Proof.
  intros (l & e & Hl & Hid & Hall & Hc & He & Hlg) failing again file out.
  subst out. unfold Reporter.build.
  set (s1 := Reporter.result_end r started st).
  assert (Hs1 : s1 = {|
    Reporter.errorLogsById :=
      <[Reporter.errorLog r :=
         {| Reporter.id := Reporter.errorLog r;
            Reporter.allErrors := [Reporter.errors r];
            Reporter.startTime := Some started;
            Reporter.count := 1 |}]> (Reporter.errorLogsById st);
    Reporter.heap :=
      alter (λ e, {| Reporter.items := [];
                     Reporter.__logged__ := Reporter.__logged__ e |})
        (Reporter.errors r) (Reporter.heap st);
    Reporter.nextArray := Reporter.nextArray st;
    Reporter.printed :=
      Reporter.printed st ++ [Reporter.Starting (Reporter.errorLog r)];
    Reporter.written := Reporter.written st |}).
  { subst s1. unfold Reporter.result_end. rewrite Hl.
    unfold Reporter.onStart. rewrite Hc, Hid, Hall.
    by rewrite bool_decide_eq_false_2 by lia. }
  clearbody s1.
  set (s2 := Reporter.reports r errs s1).
  destruct (reports_frame r errs s1) as (Hlogs & Hnext & Hpr & Hwr).
  assert (Hown : Reporter.heap s2 !! Reporter.errors r
                 = Some {| Reporter.items := errs;
                           Reporter.__logged__ := logged |}).
  { subst s2. erewrite reports_own;
      [|rewrite Hs1; cbn; by rewrite lookup_alter_eq, He].
    cbn. by rewrite Hlg. }
  fold s2 in Hlogs, Hnext, Hpr, Hwr. clearbody s2.
  unfold Reporter.flush. rewrite Hlogs, Hown, Hs1.
  cbn [Reporter.errorLogsById]. rewrite lookup_insert_eq.
  unfold Reporter.onEnd. cbn [Reporter.count Reporter.id Reporter.allErrors
    Reporter.startTime].
  rewrite bool_decide_eq_false_2 by lia.
  unfold Reporter.log. cbn [Reporter.count Reporter.id Reporter.allErrors
    Reporter.startTime Reporter.items Reporter.__logged__].
  rewrite (flat_one _ _ _ Hown). cbn [Reporter.items].
  assert (Hne : bool_decide (0 < length errs)%nat = bool_decide (errs ≠ [])).
  { destruct errs; [done|].
    by rewrite !bool_decide_eq_true_2 by (done || cbn; lia). }
  rewrite Hne. fold failing.
  assert (Hlone : ∀ heap' b,
    heap' !! Reporter.errors r
    = Some {| Reporter.items := errs; Reporter.__logged__ := b |} →
    lone r b {|
      Reporter.errorLogsById :=
        <[Reporter.errorLog r :=
           {| Reporter.id := Reporter.errorLog r;
              Reporter.allErrors := [Reporter.errors r];
              Reporter.startTime := Some started;
              Reporter.count := 1 - 1 |}]>
          (<[Reporter.errorLog r :=
             {| Reporter.id := Reporter.errorLog r;
                Reporter.allErrors := [Reporter.errors r];
                Reporter.startTime := Some started;
                Reporter.count := 1 |}]> (Reporter.errorLogsById st));
      Reporter.heap := heap';
      Reporter.nextArray := Reporter.nextArray s2;
      Reporter.printed := [];
      Reporter.written := [] |}).
  { intros heap' b Hb. eexists _, _. cbn.
    rewrite lookup_insert_eq. by split_and!. }
  destruct failing eqn:Hf; cbn [fst snd Reporter.printed Reporter.written].
  - subst again. destruct logged; cbn [negb andb orb].
    + rewrite Hpr, Hwr, Hs1. cbn [Reporter.printed Reporter.written].
      unfold Reporter.report.
      rewrite !app_nil_r, <- !app_assoc. split_and!; try done.
      destruct (Hlone (<[Reporter.errors r :=
        {| Reporter.items := errs; Reporter.__logged__ := true |}]>
        (Reporter.heap s2)) true) as (l' & e' & ?);
        [by rewrite lookup_insert_eq|].
      by exists l', e'.
    + rewrite Hpr, Hwr, Hs1. cbn [Reporter.printed Reporter.written].
      unfold Reporter.report.
      rewrite <- !app_assoc. split_and!; try done.
      destruct (Hlone (<[Reporter.errors r :=
        {| Reporter.items := errs; Reporter.__logged__ := true |}]>
        (Reporter.heap s2)) true) as (l' & e' & ?);
        [by rewrite lookup_insert_eq|].
      by exists l', e'.
  - subst again. cbn [andb]. rewrite orb_false_r.
    rewrite Hpr, Hwr, Hs1. cbn [Reporter.printed Reporter.written].
    unfold Reporter.report.
    rewrite !app_nil_r, <- !app_assoc. split_and!; try done.
    destruct (Hlone (Reporter.heap s2) logged Hown) as (l' & e' & ?).
    by exists l', e'.
Qed.

(* ===================================================================== *)
(** ** The build reporter: two reporters of one log *)
(* ===================================================================== *)

Lemma log_report (now started : N) (heap : gmap nat Reporter.ErrorArray)
    (l : Reporter.ErrorLog) :
  Reporter.startTime l = Some started →
  Reporter.log now heap l
  = (Reporter.report (Reporter.id l) started now
       (Reporter.flat heap (Reporter.allErrors l)),
     (Reporter.logFileName (Reporter.id l),
      omap Reporter.exec (Reporter.flat heap (Reporter.allErrors l)))).
Proof. intros Hs. unfold Reporter.log, Reporter.report. by rewrite Hs. Qed.

Lemma result_end_spec (r : Reporter.Handle) (now : N) (st : Reporter.State)
    (l : Reporter.ErrorLog) :
  Reporter.errorLogsById st !! Reporter.errorLog r = Some l →
  Reporter.result_end r now st
  = {| Reporter.errorLogsById :=
         <[Reporter.errorLog r := (Reporter.onStart now l).1]>
           (Reporter.errorLogsById st);
       Reporter.heap :=
         alter (λ e, {| Reporter.items := [];
                        Reporter.__logged__ := Reporter.__logged__ e |})
           (Reporter.errors r) (Reporter.heap st);
       Reporter.nextArray := Reporter.nextArray st;
       Reporter.printed :=
         Reporter.printed st ++ (Reporter.onStart now l).2;
       Reporter.written := Reporter.written st |}.
Proof.
  intros Hl. unfold Reporter.result_end. rewrite Hl.
  by destruct (Reporter.onStart now l).
Qed.

Lemma flush_spec (r : Reporter.Handle) (emitError : bool) (now later : N)
    (st : Reporter.State) (l : Reporter.ErrorLog)
    (e : Reporter.ErrorArray) :
  Reporter.errorLogsById st !! Reporter.errorLog r = Some l →
  Reporter.heap st !! Reporter.errors r = Some e →
  let failing := emitError && bool_decide (Reporter.items e ≠ []) in
  let again := failing && negb (Reporter.__logged__ e) in
  let l' := {| Reporter.id := Reporter.id l;
               Reporter.allErrors := Reporter.allErrors l;
               Reporter.startTime := Reporter.startTime l;
               Reporter.count := Reporter.count l - 1 |} in
  let last := bool_decide (Reporter.count l - 1 ≤ 0) in
  let out := Reporter.flush r emitError now later st in
  out.1 = (if failing then Reporter.EmitError (length (Reporter.items e))
           else Reporter.EmitEnd) ∧
  Reporter.errorLogsById out.2
  = <[Reporter.errorLog r := l']> (Reporter.errorLogsById st) ∧
  Reporter.heap out.2
  = (if failing
     then <[Reporter.errors r :=
             {| Reporter.items := Reporter.items e;
                Reporter.__logged__ := true |}]> (Reporter.heap st)
     else Reporter.heap st) ∧
  Reporter.printed out.2
  = Reporter.printed st
    ++ (if last then (Reporter.log now (Reporter.heap st) l').1 else [])
    ++ (if again then (Reporter.log later (Reporter.heap st) l').1
        else []) ∧
  Reporter.written out.2
  = Reporter.written st
    ++ (if last then [(Reporter.log now (Reporter.heap st) l').2] else [])
    ++ (if again then [(Reporter.log later (Reporter.heap st) l').2]
        else []).
Proof.
  intros Hl He failing again l' last out. subst out.
  unfold Reporter.flush. rewrite Hl, He. unfold Reporter.onEnd. fold l'.
  assert (Hne : bool_decide (0 < length (Reporter.items e))%nat
                = bool_decide (Reporter.items e ≠ [])).
  { destruct (Reporter.items e); [done|].
    by rewrite !bool_decide_eq_true_2 by (done || cbn; lia). }
  rewrite Hne. fold failing. cbn [Reporter.count l'].
  assert (Hlast : bool_decide (0 < Reporter.count l - 1) = negb last).
  { subst last. destruct (decide (0 < Reporter.count l - 1)).
    - by rewrite bool_decide_eq_true_2, bool_decide_eq_false_2 by lia.
    - by rewrite bool_decide_eq_false_2, bool_decide_eq_true_2 by lia. }
  rewrite Hlast. subst again.
  destruct last, failing, (Reporter.__logged__ e); cbn [negb andb];
    repeat match goal with
    | |- context [Reporter.log ?t ?h ?l] =>
        destruct (Reporter.log t h l)
    end; cbn; rewrite ?app_nil_r; done.
Qed.

Lemma flat_two (heap : gmap nat Reporter.ErrorArray) (a1 a2 : nat)
    (e1 e2 : Reporter.ErrorArray) :
  heap !! a1 = Some e1 → heap !! a2 = Some e2 →
  Reporter.flat heap [a1; a2] = Reporter.items e1 ++ Reporter.items e2.
Proof.
  intros H1 H2. unfold Reporter.flat. cbn. by rewrite H1, H2, app_nil_r.
Qed.

(** X21. Two reporters of one log whose builds overlap: both call [end],
    errors are reported to each, the stream of the first ends and then
    the stream of the second.  The compilation is announced once.  The
    end of the first stream logs nothing, unless it emits an error for the
    first time; the end of the second stream logs.  Whatever is logged
    holds the errors of both reporters, those of the first reporter
    first, and the time is counted from the first [end].  The error a
    stream emits counts the errors of its own reporter only. *)
Theorem X21_overlapping_builds_of_two_reporters
    (r1 r2 : Reporter.Handle) (logged1 logged2 emit1 emit2 : bool)
    (started1 started2 ended1 later1 ended2 later2 : N)
    (errs1 errs2 : list JSString) (st : Reporter.State) :
  paired r1 r2 logged1 logged2 st →
  let id := Reporter.errorLog r1 in
  let all := errs1 ++ errs2 in
  let failing1 := emit1 && bool_decide (errs1 ≠ []) in
  let failing2 := emit2 && bool_decide (errs2 ≠ []) in
  let file := (Reporter.logFileName id, omap Reporter.exec all) in
  let running :=
    Reporter.reports r2 errs2
      (Reporter.reports r1 errs1
         (Reporter.result_end r2 started2
            (Reporter.result_end r1 started1 st))) in
  let out1 := Reporter.flush r1 emit1 ended1 later1 running in
  let out2 := Reporter.flush r2 emit2 ended2 later2 out1.2 in
  out1.1 = (if failing1 then Reporter.EmitError (length errs1)
            else Reporter.EmitEnd) ∧
  out2.1 = (if failing2 then Reporter.EmitError (length errs2)
            else Reporter.EmitEnd) ∧
  Reporter.printed out2.2
  = Reporter.printed st
    ++ Reporter.Starting id
       :: (if failing1 && negb logged1
           then Reporter.report id started1 later1 all else [])
    ++ Reporter.report id started1 ended2 all
    ++ (if failing2 && negb logged2
        then Reporter.report id started1 later2 all else []) ∧
  Reporter.written out2.2
  = Reporter.written st
    ++ (if failing1 && negb logged1 then [file] else [])
    ++ file :: (if failing2 && negb logged2 then [file] else []) ∧
  paired r1 r2 (logged1 || failing1) (logged2 || failing2) out2.2.
Proof.
  intros (Hsame & Hdiff & l & e1 & e2 & Hl & Hid & Hall & Hc & He1 & He2
          & Hlg1 & Hlg2) id all failing1 failing2 file running out1 out2.
  (* the two calls of [end] *)
  set (s1 := Reporter.result_end r1 started1 st) in *.
  assert (Hs1 : s1 = _) by exact (result_end_spec r1 started1 st l Hl).
  unfold Reporter.onStart in Hs1. rewrite Hc, Hid, Hall in Hs1.
  rewrite bool_decide_eq_false_2 in Hs1 by lia. cbn in Hs1. fold id in Hs1.
  change (0 + 1) with 1 in Hs1.
  set (s2 := Reporter.result_end r2 started2 s1) in *.
  assert (Hl1 : Reporter.errorLogsById s1 !! Reporter.errorLog r2
                = Some {| Reporter.id := id;
                          Reporter.allErrors :=
                            [Reporter.errors r1; Reporter.errors r2];
                          Reporter.startTime := Some started1;
                          Reporter.count := 1 |}).
  { rewrite Hs1, <- Hsame. cbn. apply lookup_insert_eq. }
  pose proof (result_end_spec r2 started2 s1 _ Hl1) as Hs2. fold s2 in Hs2.
  unfold Reporter.onStart in Hs2. cbn in Hs2. rewrite <- Hsame in Hs2.
  fold id in Hs2. change (1 + 1) with 2 in Hs2.
  (* the errors *)
  set (s3 := Reporter.reports r1 errs1 s2) in *.
  destruct (reports_frame r1 errs1 s2) as (Hlog3 & _ & Hpr3 & Hwr3).
  fold s3 in Hlog3, Hpr3, Hwr3.
  assert (H31 : Reporter.heap s3 !! Reporter.errors r1
                = Some {| Reporter.items := errs1;
                          Reporter.__logged__ := logged1 |}).
  { assert (H21 : Reporter.heap s2 !! Reporter.errors r1
                   = Some {| Reporter.items := [];
                             Reporter.__logged__ := logged1 |}).
    { rewrite Hs2, Hs1. cbn. rewrite lookup_alter_ne by done.
      by rewrite lookup_alter_eq, He1, <- Hlg1. }
    subst s3. by rewrite (reports_own _ _ _ _ H21). }
  assert (H32 : Reporter.heap s3 !! Reporter.errors r2
                = Some {| Reporter.items := [];
                          Reporter.__logged__ := logged2 |}).
  { subst s3. rewrite reports_other by done.
    rewrite Hs2, Hs1. cbn. rewrite lookup_alter_eq.
    rewrite lookup_alter_ne by done. by rewrite He2, <- Hlg2. }
  fold running in out1.
  destruct (reports_frame r2 errs2 s3) as (Hlog4 & _ & Hpr4 & Hwr4).
  fold running in Hlog4, Hpr4, Hwr4.
  assert (H41 : Reporter.heap running !! Reporter.errors r1
                = Some {| Reporter.items := errs1;
                          Reporter.__logged__ := logged1 |}).
  { subst running. rewrite reports_other by done. exact H31. }
  assert (H42 : Reporter.heap running !! Reporter.errors r2
                = Some {| Reporter.items := errs2;
                          Reporter.__logged__ := logged2 |}).
  { subst running. by rewrite (reports_own _ _ _ _ H32). }
  assert (Hlog : Reporter.errorLogsById running !! id
                 = Some {| Reporter.id := id;
                           Reporter.allErrors :=
                             [Reporter.errors r1; Reporter.errors r2];
                           Reporter.startTime := Some started1;
                           Reporter.count := 2 |}).
  { rewrite Hlog4, Hlog3, Hs2. cbn. by rewrite lookup_insert_eq. }
  assert (Hpr : Reporter.printed running
                = Reporter.printed st ++ [Reporter.Starting id]).
  { rewrite Hpr4, Hpr3, Hs2, Hs1. cbn. by rewrite app_nil_r. }
  assert (Hwr : Reporter.written running = Reporter.written st).
  { by rewrite Hwr4, Hwr3, Hs2, Hs1. }
  clear Hlog3 Hpr3 Hwr3 Hlog4 Hpr4 Hwr4 H31 H32 Hs2 Hs1 Hl1.
  clearbody running. clear s1 s2 s3.
  (* the first stream ends *)
  destruct (flush_spec r1 emit1 ended1 later1 running _ _ Hlog H41)
    as (Hout1 & Hlog1 & Hheap1 & Hpr1 & Hwr1).
  fold out1 in Hout1, Hlog1, Hheap1, Hpr1, Hwr1.
  cbn [Reporter.items Reporter.__logged__ Reporter.count Reporter.id
       Reporter.allErrors Reporter.startTime] in *.
  fold failing1 in Hout1, Hheap1, Hpr1, Hwr1.
  rewrite (log_report later1 started1) in Hpr1, Hwr1 by done.
  cbn [fst snd Reporter.id Reporter.allErrors] in Hpr1, Hwr1.
  rewrite (flat_two _ _ _ _ _ H41 H42) in Hpr1, Hwr1.
  cbn [Reporter.items] in Hpr1, Hwr1. fold all in Hpr1, Hwr1.
  rewrite bool_decide_eq_false_2 in Hpr1, Hwr1 by lia.
  assert (H51 : Reporter.heap out1.2 !! Reporter.errors r1
                = Some {| Reporter.items := errs1;
                          Reporter.__logged__ := logged1 || failing1 |}).
  { rewrite Hheap1. destruct failing1.
    - by rewrite lookup_insert_eq, orb_true_r.
    - by rewrite orb_false_r. }
  assert (H52 : Reporter.heap out1.2 !! Reporter.errors r2
                = Some {| Reporter.items := errs2;
                          Reporter.__logged__ := logged2 |}).
  { rewrite Hheap1. destruct failing1; [|done].
    by rewrite lookup_insert_ne. }
  assert (Hlog5 : Reporter.errorLogsById out1.2 !! Reporter.errorLog r2
                  = Some {| Reporter.id := id;
                            Reporter.allErrors :=
                              [Reporter.errors r1; Reporter.errors r2];
                            Reporter.startTime := Some started1;
                            Reporter.count := 2 - 1 |}).
  { rewrite Hlog1, <- Hsame. apply lookup_insert_eq. }
  clear Hlog1 Hheap1. clearbody out1.
  (* the second stream ends *)
  destruct (flush_spec r2 emit2 ended2 later2 out1.2 _ _ Hlog5 H52)
    as (Hout2 & Hlog2 & Hheap2 & Hpr2 & Hwr2).
  fold out2 in Hout2, Hlog2, Hheap2, Hpr2, Hwr2.
  cbn [Reporter.items Reporter.__logged__ Reporter.count Reporter.id
       Reporter.allErrors Reporter.startTime] in *.
  fold failing2 in Hout2, Hheap2, Hpr2, Hwr2.
  rewrite !(log_report _ started1) in Hpr2, Hwr2 by done.
  cbn [fst snd Reporter.id Reporter.allErrors] in Hpr2, Hwr2.
  rewrite (flat_two _ _ _ _ _ H51 H52) in Hpr2, Hwr2.
  cbn [Reporter.items] in Hpr2, Hwr2. fold all in Hpr2, Hwr2.
  rewrite bool_decide_eq_true_2 in Hpr2, Hwr2 by lia.
  split_and!.
  - done.
  - done.
  - rewrite Hpr2, Hpr1, Hpr. rewrite app_nil_l, <- !app_assoc. done.
  - rewrite Hwr2, Hwr1, Hwr. rewrite app_nil_l, <- !app_assoc. done.
  - split; [done|]. split; [done|].
    eexists _, {| Reporter.items := errs1;
                  Reporter.__logged__ := logged1 || failing1 |},
      {| Reporter.items := errs2;
         Reporter.__logged__ := logged2 || failing2 |}.
    rewrite Hlog2, Hheap2, Hsame, lookup_insert_eq.
    split_and!; [done|by cbn|by cbn|by cbn| | |done|done].
    + destruct failing2; [|exact H51]. by rewrite lookup_insert_ne.
    + destruct failing2; [|by rewrite orb_false_r].
      by rewrite lookup_insert_eq, orb_true_r.
Qed.

(** X22. [createReporter] called with an id that has no log yet makes
    the log and a reporter that is the only one of it; called again with
    this id it makes a second reporter of the same log, with an array of
    its own.  Neither call prints or writes. *)
Theorem X22_reporters_of_one_id_share_its_log
    (id : JSString) (st : Reporter.State) :
  Reporter.errorLogsById st !! id = None →
  let first := Reporter.createReporter id st in
  let second := Reporter.createReporter id first.2 in
  lone first.1 false first.2 ∧
  paired first.1 second.1 false false second.2 ∧
  Reporter.printed second.2 = Reporter.printed st ∧
  Reporter.written second.2 = Reporter.written st.
Proof.
  intros Hnew first second.
  set (a := Reporter.nextArray st) in *.
  set (empty := {| Reporter.items := [];
                   Reporter.__logged__ := false |}).
  assert (Hfirst : ∃ logs,
    first = ({| Reporter.errorLog := id; Reporter.errors := a |},
             {| Reporter.errorLogsById := logs;
                Reporter.heap := <[a := empty]> (Reporter.heap st);
                Reporter.nextArray := S a;
                Reporter.printed := Reporter.printed st;
                Reporter.written := Reporter.written st |})
    ∧ logs !! id = Some {| Reporter.id := id;
                           Reporter.allErrors := [a];
                           Reporter.startTime := None;
                           Reporter.count := 0 |}).
  { eexists. split.
    - subst first. unfold Reporter.createReporter, Reporter.getErrorLog.
      rewrite Hnew. reflexivity.
    - cbn. by rewrite lookup_alter_eq, lookup_insert_eq. }
  destruct Hfirst as (logs & Hfirst & Hlogs). clearbody first. subst first.
  cbn [fst snd] in *.
  assert (Hsecond : ∃ logs',
    second = ({| Reporter.errorLog := id; Reporter.errors := S a |},
              {| Reporter.errorLogsById := logs';
                 Reporter.heap :=
                   <[S a := empty]> (<[a := empty]> (Reporter.heap st));
                 Reporter.nextArray := S (S a);
                 Reporter.printed := Reporter.printed st;
                 Reporter.written := Reporter.written st |})
    ∧ logs' !! id = Some {| Reporter.id := id;
                            Reporter.allErrors := [a; S a];
                            Reporter.startTime := None;
                            Reporter.count := 0 |}).
  { eexists. split.
    - subst second. unfold Reporter.createReporter, Reporter.getErrorLog.
      cbn [Reporter.errorLogsById]. rewrite Hlogs. reflexivity.
    - cbn. by rewrite lookup_alter_eq, Hlogs. }
  destruct Hsecond as (logs' & Hsecond & Hlogs'). clearbody second.
  subst second. cbn [fst snd] in *.
  split_and!; [| |done|done].
  - eexists _, _. cbn. rewrite Hlogs, lookup_insert_eq. by split_and!.
  - split; [done|]. split; [cbn; lia|].
    eexists _, _, _. cbn. rewrite Hlogs'.
    rewrite lookup_insert_eq, lookup_insert_ne, lookup_insert_eq by lia.
    by split_and!.
Qed.

Lemma X19_overlapping_builds_are_logged_once_witness :
  Reporter.count
    {| Reporter.id := [97%N]; Reporter.allErrors := [0%nat];
       Reporter.startTime := None; Reporter.count := 0 |} = 0 ∧
  Reporter.closes 0
    [Reporter.CallOnStart 2; Reporter.CallOnEnd 3 ∅] = true ∧
  (Reporter.calls
     [Reporter.CallOnStart 1; Reporter.CallOnStart 2;
      Reporter.CallOnEnd 3 ∅;
      Reporter.CallOnEnd 9
        {[ 0%nat := {| Reporter.items := [[101%N]; [102%N]; [101%N]];
                       Reporter.__logged__ := false |} ]}]
     {| Reporter.id := [97%N]; Reporter.allErrors := [0%nat];
        Reporter.startTime := None; Reporter.count := 0 |}).1.2
  = [Reporter.Starting [97%N];
     Reporter.Error [101%N]; Reporter.Error [102%N];
     Reporter.Finished [97%N] 3 8].
Proof.
  split; [reflexivity|]. split; [reflexivity|].
  pose proof (X19_overlapping_builds_are_logged_once
    {| Reporter.id := [97%N]; Reporter.allErrors := [0%nat];
       Reporter.startTime := None; Reporter.count := 0 |}
    1 9
    {[ 0%nat := {| Reporter.items := [[101%N]; [102%N]; [101%N]];
                   Reporter.__logged__ := false |} ]}
    [Reporter.CallOnStart 2; Reporter.CallOnEnd 3 ∅]
    eq_refl eq_refl) as H.
  apply (f_equal (λ x, x.1.2)) in H.
  vm_compute in H. vm_compute. exact H.
Defined.

Lemma X20_build_of_a_lone_reporter_witness :
  lone first_reporter.1 false first_reporter.2 ∧
  (Reporter.build first_reporter.1 true 1 5 6 [[101%N]; [101%N]]
     first_reporter.2).1 = Reporter.EmitError 2 ∧
  Reporter.printed
    (Reporter.build first_reporter.1 true 1 5 6 [[101%N]; [101%N]]
       first_reporter.2).2
  = [Reporter.Starting [97%N];
     Reporter.Error [101%N]; Reporter.Finished [97%N] 2 4;
     Reporter.Error [101%N]; Reporter.Finished [97%N] 2 5].
Proof.
  assert (Hlone : lone first_reporter.1 false first_reporter.2).
  { eexists _, _. vm_compute. by split_and!. }
  destruct (X20_build_of_a_lone_reporter first_reporter.1 false true
              1 5 6 [[101%N]; [101%N]] first_reporter.2 Hlone)
    as (H1 & H2 & _).
  split; [exact Hlone|]. split.
  - vm_compute in H1. vm_compute. exact H1.
  - vm_compute in H2. vm_compute. exact H2.
Defined.

Lemma X21_overlapping_builds_of_two_reporters_witness :
  paired first_reporter.1 second_reporter.1 false false
    second_reporter.2 ∧
  Reporter.printed
    (Reporter.flush second_reporter.1 true 7 8
       (Reporter.flush first_reporter.1 false 5 6
          (Reporter.reports second_reporter.1 [[102%N]]
             (Reporter.reports first_reporter.1 [[101%N]]
                (Reporter.result_end second_reporter.1 2
                   (Reporter.result_end first_reporter.1 1
                      second_reporter.2))))).2).2
  = [Reporter.Starting [97%N];
     Reporter.Error [101%N]; Reporter.Error [102%N];
     Reporter.Finished [97%N] 2 6;
     Reporter.Error [101%N]; Reporter.Error [102%N];
     Reporter.Finished [97%N] 2 7].
Proof.
  assert (Hpaired : paired first_reporter.1 second_reporter.1 false false
                      second_reporter.2).
  { split; [reflexivity|]. split; [vm_compute; lia|].
    eexists _, _, _. vm_compute. by split_and!. }
  destruct (X21_overlapping_builds_of_two_reporters
              first_reporter.1 second_reporter.1 false false false true
              1 2 5 6 7 8 [[101%N]] [[102%N]] second_reporter.2 Hpaired)
    as (_ & _ & H & _).
  split; [exact Hpaired|].
  vm_compute in H. vm_compute. exact H.
Defined.

Lemma X22_reporters_of_one_id_share_its_log_witness :
  Reporter.errorLogsById Reporter.initial !! [97%N] = None ∧
  lone first_reporter.1 false first_reporter.2 ∧
  paired first_reporter.1 second_reporter.1 false false second_reporter.2.
Proof.
  split; [reflexivity|].
  destruct (X22_reporters_of_one_id_share_its_log [97%N] Reporter.initial
              eq_refl) as (H1 & H2 & _).
  split; [exact H1|exact H2].
Defined.
